(** * IMGTextExtractor: the OCR orchestration of [script.js]

    A shallow embedding of [script.js] (text clean-up, skew estimation,
    OCR fan-out / fan-in, result selection, readiness gating, the click
    handlers, and the allocation and release of the OpenCV buffers)
    together with the properties stated about them.

    Conventions.
    - A JavaScript string is the list of its UTF-16 code units ([N]).
    - A JavaScript number that is only compared, negated or subtracted to
      get a sign is a rational ([Q]): every finite double is one, and on
      finite doubles those operations agree with the exact ones.
    - [undefined] is [None]. *)

From Stdlib Require Import List NArith ZArith QArith Qabs Bool Lia Lqa String
  Permutation Sorted.
From stdpp Require Import base list.
Import ListNotations.

Set Default Proof Using "Type".

(* ================================================================== *)
(** * Part I: definitions                                               *)
(* ================================================================== *)

(** ** Strings, character classes and the regular expressions of
       [cleanText] *)
Module Text.

Local Open Scope N_scope.

(** A UTF-16 code unit, and a string of them. *)
Abbreviation char16 := N.
Abbreviation jsstring := (list N).

Definition TAB : char16 := 0x09.
Definition LF : char16 := 0x0A.
Definition CR : char16 := 0x0D.
Definition SP : char16 := 0x20.
Definition ZWSP : char16 := 0x200B.

(** ECMAScript [WhiteSpace]: TAB, VT, FF, SP, NBSP, ZWNBSP and the
    category Zs.  U+200B is not part of it. *)
Definition isWhiteSpace (c : char16) : bool :=
  (c =? 0x09) || (c =? 0x0B) || (c =? 0x0C) || (c =? 0x20) || (c =? 0xA0)
  || (c =? 0x1680) || ((0x2000 <=? c) && (c <=? 0x200A))
  || (c =? 0x202F) || (c =? 0x205F) || (c =? 0x3000) || (c =? 0xFEFF).

(** ECMAScript [LineTerminator]: LF, CR, LS, PS. *)
Definition isLineTerminator (c : char16) : bool :=
  (c =? 0x0A) || (c =? 0x0D) || (c =? 0x2028) || (c =? 0x2029).

(** The class [\s], which is also what [String.prototype.trim] strips. *)
Definition isSpace (c : char16) : bool := isWhiteSpace c || isLineTerminator c.

(** The class [[^\S\r\n]]: not (non-space), not CR, not LF. *)
Definition isHSpace (c : char16) : bool :=
  negb (negb (isSpace c)) && negb (c =? CR) && negb (c =? LF).

(** The class [[ \t]]. *)
Definition isBlank (c : char16) : bool := (c =? SP) || (c =? TAB).

Definition isChar (d c : char16) : bool := c =? d.

(** The fragment of regular expressions the source uses: a sequence of
    character classes, each matched once or greedily [lo] or more
    times. *)
Inductive item :=
| One (p : char16 -> bool)
| AtLeast (lo : nat) (p : char16 -> bool).

Definition regex := list item.

Definition re_zwsp : regex := [One (isChar ZWSP)].            (* /<U+200B>/    *)
Definition re_hspace : regex := [AtLeast 1 isHSpace].         (* /[^\S\r\n]+/ *)
Definition re_trail : regex := [AtLeast 1 isBlank; One (isChar LF)]. (* /[ \t]+\n/ *)
Definition re_nl3 : regex := [AtLeast 3 (isChar LF)].         (* /\n{3,}/    *)

(** Length of the longest prefix of [s] inside the class [p]. *)
Fixpoint run_length (p : char16 -> bool) (s : jsstring) : nat :=
  match s with
  | c :: r => if p c then S (run_length p r) else O
  | [] => O
  end.

(** Greedy quantifier with backtracking: give the class [k] characters,
    and if the continuation fails give it one less, down to [lo]. *)
Fixpoint backtrack (cont : jsstring -> option nat) (s : jsstring)
    (lo k : nat) : option nat :=
  match cont (skipn k s) with
  | Some m => Some (k + m)%nat
  | None =>
      match k with
      | O => None
      | S k' => if (k <=? lo)%nat then None else backtrack cont s lo k'
      end
  end.

(** [match_here re s]: the length of the match of [re] anchored at the
    start of [s], if there is one. *)
Fixpoint match_here (re : regex) (s : jsstring) : option nat :=
  match re with
  | [] => Some O
  | One p :: re' =>
      match s with
      | c :: r => if p c then option_map S (match_here re' r) else None
      | [] => None
      end
  | AtLeast lo p :: re' =>
      let k := run_length p s in
      if (k <? lo)%nat then None else backtrack (match_here re') s lo k
  end.

(** [s.replace(/re/g, rep)] for a [re] that never matches the empty
    string (true of the four above).  [skip] counts the characters of the
    current match that are still to be consumed. *)
Fixpoint replace_from (re : regex) (rep : jsstring) (skip : nat)
    (s : jsstring) : jsstring :=
  match s with
  | [] => []
  | c :: r =>
      match skip with
      | S k => replace_from re rep k r
      | O =>
          match match_here re s with
          | Some (S m) => rep ++ replace_from re rep m r
          | _ => c :: replace_from re rep O r
          end
      end
  end.

Definition replace_all (re : regex) (rep s : jsstring) : jsstring :=
  replace_from re rep O s.

(** [s.split(sep)] for a one-character separator; never the empty list. *)
Fixpoint split (sep : char16) (s : jsstring) : list jsstring :=
  match s with
  | [] => [[]]
  | c :: r =>
      if c =? sep then [] :: split sep r
      else match split sep r with
           | l :: ls => (c :: l) :: ls
           | [] => [[c]]
           end
  end.

(** [ls.join(sep)]. *)
Fixpoint join (sep : char16) (ls : list jsstring) : jsstring :=
  match ls with
  | [] => []
  | l :: ls' =>
      match ls' with
      | [] => l
      | _ :: _ => l ++ sep :: join sep ls'
      end
  end.

Fixpoint trimStart (s : jsstring) : jsstring :=
  match s with
  | c :: r => if isSpace c then trimStart r else s
  | [] => []
  end.

Fixpoint trimEnd (s : jsstring) : jsstring :=
  match s with
  | [] => []
  | c :: r =>
      match trimEnd r with
      | [] => if isSpace c then [] else [c]
      | r' => c :: r'
      end
  end.

(** [s.trim()]. *)
Definition trim (s : jsstring) : jsstring := trimEnd (trimStart s).

(** [cleanText] of the source, on a string argument. *)
Definition cleanText (s : jsstring) : jsstring :=
  match s with
  | [] => s                                         (* if (!s) return s; *)
  | _ :: _ =>
      let s := replace_all re_zwsp [] s in          (* /<U+200B>/g -> ''      *)
      let s := replace_all re_hspace [SP] s in      (* /[^\S\r\n]+/g -> ' ' *)
      let s := replace_all re_trail [LF] s in       (* /[ \t]+\n/g -> '\n'  *)
      let s := replace_all re_nl3 [LF; LF] s in     (* /\n{3,}/g -> '\n\n'  *)
      let s := join LF (map trim (split LF s)) in
      trim s
  end.

End Text.

(** ** The clean-up transform as the specification words it

    Five passes over the text, each written as a direct recursion, to be
    compared with the regular-expression pipeline of [Text.cleanText]. *)
Module Normalize.
Import Text.
Local Open Scope N_scope.

(** "strip zero-width space characters" *)
Definition strip_zwsp (s : jsstring) : jsstring :=
  List.filter (fun c => negb (c =? ZWSP)) s.

(** "collapse runs of non-newline whitespace to a single space";
    [inrun] tells that the previous character belonged to such a run. *)
Fixpoint collapse_hspace_from (inrun : bool) (s : jsstring) : jsstring :=
  match s with
  | [] => []
  | c :: r =>
      if isHSpace c then
        if inrun then collapse_hspace_from true r
        else SP :: collapse_hspace_from true r
      else c :: collapse_hspace_from false r
  end.

Definition collapse_hspace : jsstring -> jsstring := collapse_hspace_from false.

(** [s] is a (possibly empty) run of class [p] followed by a newline. *)
Fixpoint run_to_newline (p : char16 -> bool) (s : jsstring) : bool :=
  match s with
  | [] => false
  | c :: r => if c =? LF then true else p c && run_to_newline p r
  end.

(** Drop every character of class [p] that belongs to a run ending at a
    newline. *)
Fixpoint strip_before_newline (p : char16 -> bool) (s : jsstring) : jsstring :=
  match s with
  | [] => []
  | c :: r =>
      if p c && negb (c =? LF) && run_to_newline p r
      then strip_before_newline p r
      else c :: strip_before_newline p r
  end.

(** "strip trailing horizontal whitespace before each newline" *)
Definition strip_trailing : jsstring -> jsstring := strip_before_newline isHSpace.

(** "collapse 3+ consecutive newlines to exactly 2"; [k] newlines of the
    current run have been kept so far. *)
Fixpoint collapse_newlines_from (k : nat) (s : jsstring) : jsstring :=
  match s with
  | [] => []
  | c :: r =>
      if c =? LF then
        if (k <? 2)%nat then LF :: collapse_newlines_from (S k) r
        else collapse_newlines_from k r
      else c :: collapse_newlines_from O r
  end.

Definition collapse_newlines : jsstring -> jsstring := collapse_newlines_from O.

(** Only whitespace is left on the current line. *)
Fixpoint blank_to_eol (s : jsstring) : bool :=
  match s with
  | [] => true
  | c :: r => if c =? LF then true else isSpace c && blank_to_eol r
  end.

(** "trim each line"; [bol] tells that no character of the current line
    has been kept yet. *)
Fixpoint trim_lines_from (bol : bool) (s : jsstring) : jsstring :=
  match s with
  | [] => []
  | c :: r =>
      if c =? LF then LF :: trim_lines_from true r
      else if isSpace c && (bol || blank_to_eol r) then trim_lines_from bol r
      else c :: trim_lines_from false r
  end.

Definition trim_lines : jsstring -> jsstring := trim_lines_from true.

(** The whole transform, pass after pass, ending with "trim the overall
    result". *)
Definition normalize (s : jsstring) : jsstring :=
  trim (trim_lines (collapse_newlines (strip_trailing
    (collapse_hspace (strip_zwsp s))))).

(** Shape of a cleaned text: every whitespace character is a single
    space or a newline, and there is no zero-width space. *)
Definition tidy (c : char16) : bool :=
  negb (c =? ZWSP) && (negb (isSpace c) || (c =? SP) || (c =? LF)).

(** All neighbours (starting from [prev]) are related by [ok]. *)
Fixpoint chain (ok : char16 -> char16 -> bool) (prev : char16)
    (s : jsstring) : bool :=
  match s with
  | [] => true
  | c :: r => ok prev c && chain ok c r
  end.

Definition okSS (a b : char16) : bool := negb ((a =? SP) && (b =? SP)).
Definition okSL (a b : char16) : bool := negb ((a =? SP) && (b =? LF)).
Definition okLS (a b : char16) : bool := negb ((a =? LF) && (b =? SP)).
Definition okN (a b : char16) : bool := okSS a b && okSL a b && okLS a b.

(** No three newlines in a row, [k] newlines being just behind. *)
Fixpoint nl_ok (k : nat) (s : jsstring) : bool :=
  match s with
  | [] => true
  | c :: r => if c =? LF then (k <? 2)%nat && nl_ok (S k) r else nl_ok O r
  end.

(** The three kinds of character of a tidy text. *)
Inductive char_view (c : char16) : Prop :=
| V_sp : c = SP -> char_view c
| V_lf : c = LF -> char_view c
| V_ink : isSpace c = false -> isHSpace c = false -> (c =? SP) = false ->
          (c =? LF) = false -> (c =? ZWSP) = false -> char_view c.

(** A text of tidy characters. *)
Definition Tidy (s : jsstring) : Prop := Forall (fun c => tidy c = true) s.

(** The shape reached at the end: tidy characters, single spaces that
    touch no newline and no end of the text, at most two newlines in a
    row, nothing to trim. *)
Definition cleaned (t : jsstring) : Prop :=
  Tidy t /\ chain okN LF (t ++ [LF]) = true /\ nl_ok O t = true /\ trim t = t.

(** The text has no carriage return. *)
Definition cr_free (s : jsstring) : bool := forallb (fun c => negb (c =? CR)) s.

End Normalize.

(** ** Library behaviour the script relies on: [Array.prototype.sort]
       and [Promise.all] *)
Module Js.

Definition Qltb (a b : Q) : bool := negb (Qle_bool b a).

Section Sort.
Context {A : Type}.
(** The comparator returns a number; a positive one puts its first
    argument after its second. *)
Variable cmp : A -> A -> Q.

Fixpoint insert (x : A) (l : list A) : list A :=
  match l with
  | [] => [x]
  | y :: r => if Qltb 0 (cmp x y) then y :: insert x r else x :: y :: r
  end.

(** [l.sort(cmp)]: the stable sort (ECMAScript 2019), here by insertion
    from the right, which keeps elements that compare equal in their
    original order. *)
Definition sort (l : list A) : list A := fold_right insert [] l.
End Sort.

(** How a promise ends. *)
Inductive settled (A E : Type) :=
| Fulfilled (a : A)
| Rejected (e : E).
Arguments Fulfilled {A E} a.
Arguments Rejected {A E} e.

(** What awaiting [Promise.all] gives: the array of values, the reason of
    a rejection, or nothing yet. *)
Inductive joined (A E : Type) :=
| Resolved (values : list A)
| Failed (reason : E)
| Pending.
Arguments Resolved {A E} values.
Arguments Failed {A E} reason.
Arguments Pending {A E}.

Section All.
Context {A E : Type}.

(** The values array once every slot is filled. *)
Fixpoint filled (slots : list (option A)) : option (list A) :=
  match slots with
  | [] => Some []
  | Some a :: r => option_map (cons a) (filled r)
  | None :: _ => None
  end.

(** Every filled slot holds the value its own task was fulfilled
    with. *)
Definition sound (outs : list (settled A E)) (slots : list (option A)) : Prop :=
  length slots = length outs /\
  forall i a, slots !! i = Some (Some a) -> outs !! i = Some (Fulfilled a).

(** [Promise.all(tasks)] where task [i] settles as [outs !! i] and the
    tasks settle in the order [ord]: a fulfilment stores its value at
    the task's own index, the first rejection rejects the whole. *)
Fixpoint all_from (outs : list (settled A E)) (ord : list nat)
    (slots : list (option A)) : joined A E :=
  match ord with
  | [] => match filled slots with
          | Some values => Resolved values
          | None => Pending
          end
  | i :: ord' =>
      match outs !! i with
      | Some (Rejected e) => Failed e
      | Some (Fulfilled a) => all_from outs ord' (<[i := Some a]> slots)
      | None => all_from outs ord' slots
      end
  end.

Definition promise_all (outs : list (settled A E)) (ord : list nat) : joined A E :=
  all_from outs ord (replicate (length outs) None).
End All.

(** [ord] is an order in which [n] tasks settle: [n] entries, each task
    among them. *)
Definition completion_order (n : nat) (ord : list nat) : bool :=
  (length ord =? n)%nat && forallb (fun i => existsb (Nat.eqb i) ord) (seq 0 n).

End Js.

(** ** Skew estimation: [computeSkewAngle] *)
Module Skew.
Import Js.
Local Open Scope Q_scope.

(** One row of the [HoughLinesP] output: [x1, y1, x2, y2]. *)
Record segment := { x1 : Z; y1 : Z; x2 : Z; y2 : Z }.

Section Estimate.
(** The grayscale image. *)
Context {Mat : Type}.
(** [Canny] then [HoughLinesP]: the detected rows, or [None] when
    either call throws. *)
Variable detect : Mat -> option (list segment).
(** [Math.atan2(dy, dx) * 180 / Math.PI] as the engine computes it. *)
Variable atan2_deg : Z -> Z -> Q.

Definition segment_angle (sg : segment) : Q :=
  atan2_deg (y2 sg - y1 sg)%Z (x2 sg - x1 sg)%Z.

(** The loop over the rows: an angle is pushed when
    [Math.abs(angle) < 45]. *)
Fixpoint collect_angles (rows : list segment) : list Q :=
  match rows with
  | [] => []
  | sg :: r =>
      let angle := segment_angle sg in
      if Qltb (Qabs angle) 45 then angle :: collect_angles r
      else collect_angles r
  end.

Definition computeSkewAngle (mat : Mat) : Q :=
  match detect mat with
  | None => 0                                   (* catch (err) *)
  | Some rows =>
      let angles := collect_angles rows in
      match angles with
      | [] => 0                                 (* angles.length === 0 *)
      | _ :: _ =>
          let sorted := sort (fun a b => a - b) angles in
          nth (Nat.div (length angles) 2) sorted 0
      end
  end.

(** The specification's words: each segment's angle is [atan2(dy, dx)]
    in degrees, with [dy = y2 - y1] and [dx = x2 - x1]; the segments
    with [|angle| >= 45] are discarded. *)
Definition surviving_angles (rows : list segment) : list Q :=
  List.filter (fun a => negb (Qle_bool 45 (Qabs a)))
    (map (fun sg => atan2_deg (y2 sg - y1 sg)%Z (x2 sg - x1 sg)%Z) rows).
End Estimate.

Definition count_if (p : Q -> bool) (l : list Q) : nat :=
  length (List.filter p l).

(** [m] is a median of [l]: one of its elements, with at most half of
    the list strictly below it and at most half strictly above. *)
Definition is_median (m : Q) (l : list Q) : Prop :=
  In m l /\
  (2 * count_if (fun a => Qltb a m) l <= length l)%nat /\
  (2 * count_if (fun a => Qltb m a) l <= length l)%nat.

End Skew.

(** ** OCR fan-out, fan-in and result selection: [doExtract] *)
Module Ocr.
Import Js.
Local Open Scope Q_scope.

Definition psms : list string := ["6"; "3"; "4"; "11"]%string.

Definition whitelist : string :=
  "ABCDEFGHIJKLMNOPQRSTUVWXYZabcdefghijklmnopqrstuvwxyz0123456789.,:-()/%&$ "%string.

(** The specification's words for the whitelist: "alphanumeric
    characters plus [.,:-()/%&$ ] and space". *)
Definition is_alnum (c : Ascii.ascii) : bool :=
  let n := Ascii.nat_of_ascii c in
  ((48 <=? n) && (n <=? 57) || (65 <=? n) && (n <=? 90)
   || (97 <=? n) && (n <=? 122))%nat.

Definition in_string (c : Ascii.ascii) (s : string) : bool :=
  existsb (Ascii.eqb c) (list_ascii_of_string s).

Definition allowed (c : Ascii.ascii) : bool :=
  is_alnum c || in_string c ".,:-()/%&$ "%string.

(** [res.data] as far as the script reads it; [None] is a missing (or,
    for the confidence, a NaN) field. *)
Record ocr_data := { data_text : option (list N); data_confidence : option Q }.

(** The object built in the [then] callback.  The fall-back object of
    the selector has no [variant] and no [psm]. *)
Record attempt := {
  text : list N;
  avgConf : Q;
  variant : option nat;
  psm : option string
}.

(** What the page shows: [resultArea.value] and the confidence badge
    ([None] is the dash). *)
Record display := { resultArea : list N; confBadge : option Q }.

(** State of both widgets after the reset at the top of [doExtract]. *)
Definition blank : display := {| resultArea := []; confBadge := None |}.

Section Run.
(** PNG blobs, image buffers, thrown values. *)
Context {Blob Mat Err : Type}.
(** [cv.imshow] then [procCanvas.toBlob(_, 'image/png')]. *)
Variable toBlob : Mat -> Blob.

(** An entry of the array [createProcessedVariants] returns. *)
Record processed := { blob : Blob; mat : Mat }.

(** The options object handed to [Tesseract.recognize], with its first
    two arguments. *)
Record request := {
  image : Blob;
  lang : string;
  load_fast : bool;
  tessedit_pageseg_mode : string;
  tessedit_char_whitelist : string
}.

(** A dispatched call and what its [then] callback closes over. *)
Record task := { t_request : request; t_variant : nat; t_psm : string }.

(** [Tesseract.recognize]: how the [k]-th call of a run settles. *)
Definition engine : Type := nat -> request -> settled ocr_data Err.

Inductive failure :=
| Thrown (e : Err)            (* a rejection or an exception of the libraries *)
| NoWinningVariant.           (* [variants[...]] is [undefined]: [.mat] throws *)

Inductive outcome :=
| NotReady                                 (* alert and return, line 282 *)
| Waiting                                  (* the join has not settled   *)
| Error (f : failure) (shown : display)    (* the [catch] block          *)
| Done (shown : display) (best : attempt) (bestMat : Mat).

(** Each recipe of [createProcessedVariants] pushes its image unless it
    threw. *)
Fixpoint pushed (recipes : list (option Mat)) : list Mat :=
  match recipes with
  | [] => []
  | Some m :: r => m :: pushed r
  | None :: r => pushed r
  end.

Definition createProcessedVariants (v0 v1 v2 v3 : option Mat) : list processed :=
  map (fun m => {| blob := toBlob m; mat := m |}) (pushed [v0; v1; v2; v3]).

Definition recognize_request (vb : Blob) (p : string) : request :=
  {| image := vb; lang := "eng"; load_fast := false;
     tessedit_pageseg_mode := p; tessedit_char_whitelist := whitelist |}.

(** The two nested loops: variant [i] (from 0), then each mode. *)
Fixpoint tasks_from (i : nat) (variants : list processed) : list task :=
  match variants with
  | [] => []
  | v :: r =>
      map (fun p => {| t_request := recognize_request (blob v) p;
                       t_variant := i + 1; t_psm := p |}) psms
      ++ tasks_from (S i) r
  end.

Definition ocrTasks (variants : list processed) : list task :=
  tasks_from O variants.

(** The specification's words: the request of the pair made of the
    variant at position [i] and of the mode [p]. *)
Definition pair_task (i : nat) (v : processed) (p : string) : task :=
  {| t_request := {| image := blob v; lang := "eng"; load_fast := false;
                     tessedit_pageseg_mode := p;
                     tessedit_char_whitelist := whitelist |};
     t_variant := i + 1; t_psm := p |}.

(** The request number [k], counting variant-major over four modes. *)
Definition pair_at (variants : list processed) (k : nat) : option task :=
  match variants !! (Nat.div k 4), psms !! (Nat.modulo k 4) with
  | Some v, Some p => Some (pair_task (Nat.div k 4) v p)
  | _, _ => None
  end.

(** The [then] callback. *)
Definition then_attempt (t : task) (d : ocr_data) : attempt :=
  {| text := default [] (data_text d);            (* res.data.text || ''      *)
     avgConf := default 0 (data_confidence d);    (* res.data.confidence || 0 *)
     variant := Some (t_variant t);
     psm := Some (t_psm t) |}.

Definition settle (tess : engine) (k : nat) (t : task) : settled attempt Err :=
  match tess k (t_request t) with
  | Fulfilled d => Fulfilled (then_attempt t d)
  | Rejected e => Rejected e
  end.

Definition dispatch (tess : engine) (ts : list task) : list (settled attempt Err) :=
  imap (settle tess) ts.

(** [results.sort((a, b) => b.avgConf - a.avgConf)] and
    [results[0] || { text: '', avgConf: 0 }]. *)
Definition select (results : list attempt) : attempt :=
  match sort (fun a b => avgConf b - avgConf a) results with
  | best :: _ => best
  | [] => {| text := []; avgConf := 0; variant := None; psm := None |}
  end.

(** [Math.max(0, best.variant - 1)]; NaN when [best.variant] is
    missing. *)
Definition best_index (best : attempt) : option nat :=
  match variant best with
  | Some v => Some (Z.to_nat (Z.max 0 (Z.of_nat v - 1)))
  | None => None
  end.

(** [variants[...].mat], or [None] where the script throws. *)
Definition best_mat (variants : list processed) (best : attempt) : option Mat :=
  match best_index best with
  | Some i => match variants !! i with
              | Some v => Some (mat v)
              | None => None
              end
  | None => None
  end.

Definition show (normalize : bool) (best : attempt) : display :=
  {| resultArea := if normalize then Text.cleanText (text best) else text best;
     confBadge := if Qeq_bool (avgConf best) 0 then None else Some (avgConf best) |}.

(** [doExtract].  [prep] is how the image preparation before the four
    recipes ends together with the outcome of each recipe, [tess] the
    OCR engine, [ord] the order in which the requests settle.  Both
    branches on [optShowAll] look the winning image up in the same
    way.  The calls of [cv.imshow] that display the thumbnails and the
    winning image are taken here to return; [Buffers.doExtract_buf]
    follows the run when one of them throws. *)
Definition doExtract (cvReady : bool)
    (prep : settled (option Mat * option Mat * option Mat * option Mat) Err)
    (tess : engine) (ord : list nat) (normalize : bool) : outcome :=
  if negb cvReady then NotReady else
  match prep with
  | Rejected e => Error (Thrown e) blank
  | Fulfilled (v0, v1, v2, v3) =>
      let variants := createProcessedVariants v0 v1 v2 v3 in
      let ocrTasks := dispatch tess (ocrTasks variants) in
      match promise_all ocrTasks ord with
      | Pending => Waiting
      | Failed e => Error (Thrown e) blank
      | Resolved results =>
          let best := select results in
          let shown := show normalize best in
          match best_mat variants best with
          | None => Error NoWinningVariant shown
          | Some m => Done shown best m
          end
      end
  end.

End Run.

(** [best] is the first of the attempts of greatest confidence in [l]. *)
Definition first_max (best : attempt) (l : list attempt) : Prop :=
  exists pre post,
    l = pre ++ best :: post /\
    (forall a, In a pre -> avgConf a < avgConf best) /\
    (forall a, In a post -> avgConf a <= avgConf best).

End Ocr.

(** ** Readiness flags and the buttons *)
Module Page.

Section Page.
Context {File : Type}.

Record page := {
  cvReady : bool;
  tessReady : bool;
  lastFile : option File;
  btnExtract_disabled : bool;
  btnReprocess_disabled : bool
}.

Definition updateReady (p : page) : page :=
  {| cvReady := cvReady p; tessReady := tessReady p; lastFile := lastFile p;
     btnExtract_disabled := negb (cvReady p && tessReady p);
     btnReprocess_disabled := negb (cvReady p && tessReady p) |}.

(** The [let] declarations; whether the markup disables the buttons is
    not known to the script. *)
Definition declared (d1 d2 : bool) : page :=
  {| cvReady := false; tessReady := false; lastFile := None;
     btnExtract_disabled := d1; btnReprocess_disabled := d2 |}.

Definition initTesseract (p : page) : page :=
  updateReady
    {| cvReady := cvReady p; tessReady := true; lastFile := lastFile p;
       btnExtract_disabled := btnExtract_disabled p;
       btnReprocess_disabled := btnReprocess_disabled p |}.

(** The callback installed on [cv.onRuntimeInitialized]. *)
Definition onRuntimeInitialized (p : page) : page :=
  updateReady
    {| cvReady := true; tessReady := tessReady p; lastFile := lastFile p;
       btnExtract_disabled := btnExtract_disabled p;
       btnReprocess_disabled := btnReprocess_disabled p |}.

Definition set_file (f : option File) (p : page) : page :=
  {| cvReady := cvReady p; tessReady := tessReady p; lastFile := f;
     btnExtract_disabled := btnExtract_disabled p;
     btnReprocess_disabled := btnReprocess_disabled p |}.

(** The script runs to its end before any event is delivered: it
    declares the state, calls [initTesseract] and registers the event
    listeners. *)
Definition loaded (d1 d2 : bool) : page := initTesseract (declared d1 d2).

Inductive event :=
| CvRuntimeInitialized
| FileChanged (f : option File)
| ClearClicked
| ExtractClicked
| ReprocessClicked.

(** Effect of an event on the flags, the file and the buttons;
    [doExtract] itself writes none of them. *)
Definition step (p : page) (e : event) : page :=
  match e with
  | CvRuntimeInitialized => onRuntimeInitialized p
  | FileChanged f => set_file f p
  | ClearClicked => set_file None p
  | ExtractClicked | ReprocessClicked => p
  end.


(** What a click on one of the two buttons asks for: nothing when the
    button is disabled or no file is chosen, else [doExtract(lastFile)]. *)
Definition clicked (disabled : bool) (p : page) : option File :=
  if disabled then None else lastFile p.
End Page.

End Page.

(** ** Concrete inputs used below *)
Module Examples.
Import Js Ocr Page.
Local Open Scope Q_scope.

(** ["a   b\t\n\n\n\nc  "], ["a b\n\nc"], ["wo<U+200B>rd"], ["word"] and
    ["a\r\n\r\n\r\nb"] as code units. *)
Definition spaced_text : list N :=
  [97; 32; 32; 32; 98; 9; 10; 10; 10; 10; 99; 32; 32]%N.
Definition spaced_clean : list N := [97; 32; 98; 10; 10; 99]%N.
Definition crlf_text : list N := [97; 13; 10; 13; 10; 13; 10; 98]%N.

(** Three attempts, the last two tied for the best confidence. *)
Definition attempt_of (c : Q) (v : nat) (p : string) : attempt :=
  {| text := [111; 107]%N; avgConf := c; variant := Some v; psm := Some p |}.
Definition tied_attempts : list attempt :=
  [attempt_of 80 1 "6"; attempt_of 91 1 "3"; attempt_of 91 2 "6"].

(** Images are numbered, a blob is the number of its image, a thrown
    value is its message. *)
Definition four_images : option nat * option nat * option nat * option nat :=
  (Some 0, Some 1, Some 2, Some 3)%nat.
Definition four_variants : list (@processed nat nat) :=
  createProcessedVariants (fun m => m)
    (Some 0%nat) (Some 1%nat) (Some 2%nat) (Some 3%nat).

(** An engine that fulfils every request, ever more confident. *)
Definition steady : @engine nat string :=
  fun k _ => Fulfilled {| data_text := Some [111; 107]%N;
                          data_confidence := Some (inject_Z (Z.of_nat (60 + k))) |}.

(** The same engine, whose sixth call is rejected. *)
Definition flaky : @engine nat string :=
  fun k r => if (k =? 5)%nat then Rejected "worker terminated"%string
             else steady k r.

Definition is_fulfilled {A E : Type} (o : settled A E) : bool :=
  match o with
  | Fulfilled _ => true
  | Rejected _ => false
  end.

(** A segment detector and an angle function for a page that leans by
    two degrees. *)
Definition two_rows (_ : unit) : option (list Skew.segment) :=
  Some [ {| Skew.x1 := 0; Skew.y1 := 0; Skew.x2 := 100; Skew.y2 := 3 |};
         {| Skew.x1 := 0; Skew.y1 := 0; Skew.x2 := 0; Skew.y2 := 50 |} ]%Z.
Definition coarse_atan2 (dy dx : Z) : Q :=
  if (dx =? 0)%Z then 90 else inject_Z ((57 * dy) / dx).

(** The page after OpenCV has reported in. *)
Definition ready_page : @page unit :=
  step (loaded false false) CvRuntimeInitialized.

End Examples.

(** ** What a reader sees of a text *)
Module Shape.
Import Text.
Local Open Scope N_scope.

(** A character that leaves a mark: neither whitespace nor the
    zero-width space. *)
Definition ink (c : char16) : bool := negb (isSpace c) && negb (c =? ZWSP).

(** The visible characters of a text, in order. *)
Definition visible (s : jsstring) : jsstring := List.filter ink s.

(** [a] directly followed by [b] somewhere in [s]. *)
Fixpoint adjacent (a b : char16) (s : jsstring) : bool :=
  match s with
  | [] => false
  | x :: r =>
      match r with
      | [] => false
      | y :: _ => ((x =? a) && (y =? b)) || adjacent a b r
      end
  end.

(** Three newlines in a row somewhere in [s]; [k] newlines are just
    behind. *)
Fixpoint newline_run3 (k : nat) (s : jsstring) : bool :=
  match s with
  | [] => false
  | c :: r =>
      if c =? LF then (2 <=? k)%nat || newline_run3 (S k) r
      else newline_run3 O r
  end.

End Shape.

(** ** Geometry normalisation: the decisions of
       [createProcessedVariants] *)
Module Geometry.
Import Js Skew.
Local Open Scope Q_scope.

(** The double written [0.35]. *)
Definition skew_threshold : Q := 3152519739159347 # 9007199254740992.

Definition targetMinWidth : Z := 2200.

(** [src.cols < targetMinWidth]: the image is enlarged. *)
Definition upscaled (cols : Z) : bool := (cols <? targetMinWidth)%Z.

Section Deskew.
Context {Mat : Type}.
Variable detect : Mat -> option (list segment).
Variable atan2_deg : Z -> Z -> Q.

(** The angle handed to [rotateMat], if the image is rotated at all:
    [-angle] when [doDeskew] and [Math.abs(angle) > 0.35]. *)
Definition deskew_rotation (doDeskew : bool) (gray : Mat) : option Q :=
  if doDeskew then
    let angle := computeSkewAngle detect atan2_deg gray in
    if Qltb skew_threshold (Qabs angle) then Some (- angle) else None
  else None.
End Deskew.

(** Counting the entries below, and not above, a value. *)
Definition count_lt (v : Q) (l : list Q) : nat := count_if (fun a => Qltb a v) l.
Definition count_le (v : Q) (l : list Q) : nat :=
  count_if (fun a => negb (Qltb v a)) l.

End Geometry.

(** ** Clicks on the two buttons, over a sequence of events *)
Module Clicks.
Import Page.

Section Clicks.
Context {File : Type}.

(** What a click on Extract or Reprocess does. *)
Inductive click_effect :=
| Ignored                 (* the button is disabled                     *)
| AskForImage             (* alert('Please choose an image first.')     *)
| Extract (f : File).     (* doExtract(lastFile)                        *)

Definition button_click (disabled : bool) (p : @page File) : click_effect :=
  if disabled then Ignored
  else match lastFile p with
       | None => AskForImage
       | Some f => Extract f
       end.

Definition run_events (p : @page File) (es : list event) : @page File :=
  fold_left step es p.

(** The file of the latest choice among the events: a change of the file
    input sets it ([files[0] || null]), Clear forgets it. *)
Fixpoint latest_file (es : list (@event File)) (f0 : option File) : option File :=
  match es with
  | [] => f0
  | FileChanged f :: r => latest_file r f
  | ClearClicked :: r => latest_file r None
  | _ :: r => latest_file r f0
  end.

(** The OpenCV callback is among the events. *)
Definition opencv_reported (es : list (@event File)) : bool :=
  existsb (fun e => match e with
                    | CvRuntimeInitialized => true
                    | _ => false
                    end) es.
End Clicks.

End Clicks.

(** ** Lifetime of the native buffers *)
Module Buffers.
Import Js Skew Geometry Ocr.
Local Open Scope Q_scope.

(** The buffers a run can allocate, named after the variable that first
    holds them ([b_rotated] is [dst] of [rotateMat]). *)
Inductive buf :=
| b_src | b_resized | b_gray | b_rotated | b_M | b_edges | b_lines
| b_v0 | b_dst0 | b_kernel
| b_blur | b_dst1
| b_bil | b_med | b_dst2
| b_claheBase | b_claheDst | b_claheObj | b_dst3.

Definition buf_tag (b : buf) : nat :=
  match b with
  | b_src => 0 | b_resized => 1 | b_gray => 2 | b_rotated => 3 | b_M => 4
  | b_edges => 5 | b_lines => 6 | b_v0 => 7 | b_dst0 => 8 | b_kernel => 9
  | b_blur => 10 | b_dst1 => 11 | b_bil => 12 | b_med => 13 | b_dst2 => 14
  | b_claheBase => 15 | b_claheDst => 16 | b_claheObj => 17 | b_dst3 => 18
  end%nat.

Definition buf_eqb (a b : buf) : bool := (buf_tag a =? buf_tag b)%nat.

(** The library calls that may throw; [cv.imshow] inside a loop carries
    the index of its iteration. *)
Inductive site :=
| c_imread | c_cvtColor_rgba | c_resize | c_cvtColor_gray
| c_Canny | c_HoughLinesP | c_getRotationMatrix2D | c_warpAffine
| c_equalizeHist0 | c_adaptiveThreshold0 | c_getStructuringElement | c_morphologyEx
| c_GaussianBlur | c_threshold1
| c_bilateralFilter | c_medianBlur | c_adaptiveThreshold2
| c_equalizeHist3 | c_CLAHE_apply | c_threshold3
| c_imshow_blob (i : nat) | c_imshow_thumb (i : nat) | c_imshow_best.

Fixpoint mem (b : buf) (l : list buf) : bool :=
  match l with
  | [] => false
  | x :: r => buf_eqb b x || mem b r
  end.

Fixpoint remove_one (b : buf) (l : list buf) : list buf :=
  match l with
  | [] => []
  | x :: r => if buf_eqb b x then r else x :: remove_one b r
  end.

(** The buffers alive, the deletions of a buffer that was not alive, the
    uses of one, and the array [variants]. *)
Record state := {
  live : list buf;
  double_delete : list buf;
  use_after_delete : list buf;
  variants : list buf
}.

Definition start : state :=
  {| live := []; double_delete := []; use_after_delete := []; variants := [] |}.

Section Lifetimes.
(** Errors of the OCR engine. *)
Context {E : Type}.
(** Which calls throw in this run. *)
Variable throws : site -> bool.

Definition exn : Type := @failure (site + E).

(** A piece of the script: it changes the state and either returns or
    throws. *)
Definition cmd (A : Type) : Type := state -> state * (A + exn).

Definition ret {A : Type} (a : A) : cmd A := fun st => (st, inl a).

Definition bind {A B : Type} (m : cmd A) (f : A -> cmd B) : cmd B :=
  fun st =>
    match m st with
    | (st', inl a) => f a st'
    | (st', inr e) => (st', inr e)
    end.

Notation "x <- m ;; k" := (bind m (fun x => k))
  (at level 100, m at next level, right associativity).
Notation "m ;; k" := (bind m (fun _ => k))
  (at level 100, right associativity).

(** [new cv.Mat()] and the other constructors, which are taken not to
    throw. *)
Definition new (b : buf) : cmd unit :=
  fun st =>
    ({| live := b :: live st; double_delete := double_delete st;
        use_after_delete := use_after_delete st; variants := variants st |},
     inl tt).

Definition touch (st : state) (b : buf) : state :=
  if mem b (live st) then st
  else {| live := live st; double_delete := double_delete st;
          use_after_delete := b :: use_after_delete st; variants := variants st |}.

(** A library call on the buffers [args]. *)
Definition call (s : site) (args : list buf) : cmd unit :=
  fun st =>
    (fold_left touch args st,
     if throws s then inr (Thrown (inl s)) else inl tt).

(** [b.delete()]. *)
Definition delete (b : buf) : cmd unit :=
  fun st =>
    if mem b (live st) then
      ({| live := remove_one b (live st); double_delete := double_delete st;
          use_after_delete := use_after_delete st; variants := variants st |},
       inl tt)
    else
      ({| live := live st; double_delete := b :: double_delete st;
          use_after_delete := use_after_delete st; variants := variants st |},
       inl tt).

(** [variants.push(b)]. *)
Definition push (b : buf) : cmd unit :=
  fun st =>
    ({| live := live st; double_delete := double_delete st;
        use_after_delete := use_after_delete st;
        variants := variants st ++ [b] |},
     inl tt).

(** [try { m } catch (e) { }]. *)
Definition try_ (m : cmd unit) : cmd unit := fun st => (fst (m st), inl tt).

(** A loop over an array of buffers, from index [i]. *)
Fixpoint for_each (i : nat) (l : list buf) (f : nat -> buf -> cmd unit) : cmd unit :=
  match l with
  | [] => ret tt
  | b :: r => f i b ;; for_each (S i) r f
  end.

(** Reading a buffer (its size, its data). *)
Definition use (args : list buf) : cmd unit :=
  fun st => (fold_left touch args st, inl tt).

Definition raise {A : Type} (e : exn) : cmd A := fun st => (st, inr e).

Definition get_variants : cmd (list buf) := fun st => (st, inl (variants st)).

(** [computeSkewAngle(mat)]; [rows] is what [HoughLinesP] writes when it
    does not throw. *)
Definition computeSkewAngle_buf (atan2_deg : Z -> Z -> Q)
    (rows : list segment) (mat : buf) : cmd Q :=
  fun st =>
    match (new b_edges ;;
           call c_Canny [mat; b_edges] ;;
           new b_lines ;;
           call c_HoughLinesP [b_edges; b_lines; mat] ;;
           use [b_lines] ;;
           delete b_edges ;; delete b_lines ;;
           ret (computeSkewAngle (fun _ : unit => Some rows) atan2_deg tt)) st with
    | (st', inl angle) => (st', inl angle)
    | (st', inr _) => (st', inl 0)               (* catch (err) { return 0 } *)
    end.

(** [rotateMat(src, angle)]. *)
Definition rotateMat_buf (srcb : buf) : cmd buf :=
  use [srcb] ;;
  call c_getRotationMatrix2D [] ;; new b_M ;;
  new b_rotated ;;
  use [srcb] ;;
  call c_warpAffine [srcb; b_rotated; b_M] ;;
  delete b_M ;;
  ret b_rotated.

(** The four recipes, each inside its own [try]. *)
Definition recipe0 (gray : buf) : cmd unit :=
  new b_v0 ;; call c_equalizeHist0 [gray; b_v0] ;;
  new b_dst0 ;; call c_adaptiveThreshold0 [b_v0; b_dst0] ;;
  call c_getStructuringElement [] ;; new b_kernel ;;
  call c_morphologyEx [b_dst0; b_dst0; b_kernel] ;;
  delete b_kernel ;;
  push b_dst0 ;;
  delete b_v0.

Definition recipe1 (gray : buf) : cmd unit :=
  new b_blur ;; call c_GaussianBlur [gray; b_blur] ;;
  new b_dst1 ;; call c_threshold1 [b_blur; b_dst1] ;;
  push b_dst1 ;;
  delete b_blur.

Definition recipe2 (gray : buf) : cmd unit :=
  new b_bil ;; call c_bilateralFilter [gray; b_bil] ;;
  new b_med ;; call c_medianBlur [b_bil; b_med] ;;
  new b_dst2 ;; call c_adaptiveThreshold2 [b_med; b_dst2] ;;
  push b_dst2 ;;
  delete b_bil ;; delete b_med.

Definition recipe3 (gray : buf) : cmd unit :=
  new b_claheBase ;; call c_equalizeHist3 [gray; b_claheBase] ;;
  new b_claheDst ;;
  new b_claheObj ;;
  call c_CLAHE_apply [b_claheObj; b_claheBase; b_claheDst] ;;
  new b_dst3 ;; call c_threshold3 [b_claheDst; b_dst3] ;;
  push b_dst3 ;;
  delete b_claheBase ;; delete b_claheDst ;; delete b_claheObj.

(** Loading, enlarging, graying and deskewing; returns the buffers then
    held by [src] and [gray]. *)
Definition prepare (cols : Z) (one_channel doDeskew : bool)
    (atan2_deg : Z -> Z -> Q) (rows : list segment) : cmd (buf * buf) :=
  call c_imread [] ;; new b_src ;;
  use [b_src] ;;
  (if one_channel then call c_cvtColor_rgba [b_src; b_src] else ret tt) ;;
  use [b_src] ;;
  src <- (if upscaled cols then
            use [b_src] ;;
            new b_resized ;; call c_resize [b_src; b_resized] ;;
            delete b_src ;; ret b_resized
          else ret b_src) ;;
  new b_gray ;; call c_cvtColor_gray [src; b_gray] ;;
  gray <- (if doDeskew then
             angle <- computeSkewAngle_buf atan2_deg rows b_gray ;;
             if Qltb skew_threshold (Qabs angle) then
               rotated <- rotateMat_buf b_gray ;;
               delete b_gray ;; ret rotated
             else ret b_gray
           else ret b_gray) ;;
  ret (src, gray).

(** [createProcessedVariants(file, doDeskew)] on an image [cols] wide;
    returns the images of the array of blobs. *)
Definition createProcessedVariants_buf (cols : Z) (one_channel doDeskew : bool)
    (atan2_deg : Z -> Z -> Q) (rows : list segment) : cmd (list buf) :=
  sg <- prepare cols one_channel doDeskew atan2_deg rows ;;
  try_ (recipe0 (snd sg)) ;;
  try_ (recipe1 (snd sg)) ;;
  try_ (recipe2 (snd sg)) ;;
  try_ (recipe3 (snd sg)) ;;
  vs <- get_variants ;;
  for_each 0 vs (fun i v => call (c_imshow_blob i) [v]) ;;
  delete (snd sg) ;; delete (fst sg) ;;
  ret vs.

(** The part of [doExtract] after the selection: thumbnails, the winning
    image, and the release of every variant. *)
Definition display_and_release (showAll : bool) (ms : list buf)
    (bestMat : option buf) : cmd buf :=
  (if showAll then for_each 0 ms (fun i m => call (c_imshow_thumb i) [m])
   else ret tt) ;;
  m <- (match bestMat with
        | Some m => ret m
        | None => raise NoWinningVariant
        end) ;;
  call c_imshow_best [m] ;;
  for_each 0 ms (fun _ m => try_ (delete m)) ;;
  ret m.

(** [doExtract] with its buffers. *)
Definition doExtract_buf (cvReady : bool) (cols : Z)
    (one_channel doDeskew showAll normalize : bool)
    (atan2_deg : Z -> Z -> Q) (rows : list segment)
    (tess : @engine buf (site + E)) (ord : list nat)
    : state -> state * @outcome buf (site + E) :=
  fun st =>
    if negb cvReady then (st, NotReady) else
    match createProcessedVariants_buf cols one_channel doDeskew atan2_deg rows st with
    | (st1, inr f) => (st1, Error f blank)
    | (st1, inl ms) =>
        let variants := map (fun m => {| blob := m; mat := m |}) ms in
        match promise_all (dispatch tess (ocrTasks variants)) ord with
        | Pending => (st1, Waiting)
        | Failed e => (st1, Error (Thrown e) blank)
        | Resolved results =>
            let best := select results in
            let shown := show normalize best in
            match display_and_release showAll ms (best_mat variants best) st1 with
            | (st2, inl m) => (st2, Done shown best m)
            | (st2, inr f) => (st2, Error f shown)
            end
        end
    end.

(** *** What the code leaves behind, call by call *)

(** Detection threw ([Canny] or [HoughLinesP]). *)
Definition detection_failed : bool := throws c_Canny || throws c_HoughLinesP.

(** The image is rotated. *)
Definition rotates (doDeskew : bool) (atan2_deg : Z -> Z -> Q)
    (rows : list segment) : bool :=
  doDeskew && negb detection_failed &&
  Qltb skew_threshold (Qabs (computeSkewAngle (fun _ : unit => Some rows) atan2_deg tt)).

(** The first call that throws before the recipes, if any. *)
Definition prepare_failure (cols : Z) (one_channel doDeskew : bool)
    (atan2_deg : Z -> Z -> Q) (rows : list segment) : option site :=
  if throws c_imread then Some c_imread
  else if one_channel && throws c_cvtColor_rgba then Some c_cvtColor_rgba
  else if upscaled cols && throws c_resize then Some c_resize
  else if throws c_cvtColor_gray then Some c_cvtColor_gray
  else if rotates doDeskew atan2_deg rows then
    if throws c_getRotationMatrix2D then Some c_getRotationMatrix2D
    else if throws c_warpAffine then Some c_warpAffine
    else None
  else None.

(** The buffers that [src] and [gray] hold when the recipes start. *)
Definition src_buf (cols : Z) : buf := if upscaled cols then b_resized else b_src.
Definition gray_buf (doDeskew : bool) (atan2_deg : Z -> Z -> Q)
    (rows : list segment) : buf :=
  if rotates doDeskew atan2_deg rows then b_rotated else b_gray.

(** Buffers of the skew detection that are never deleted. *)
Definition skew_left (doDeskew : bool) : list buf :=
  if doDeskew then
    if throws c_Canny then [b_edges]
    else if throws c_HoughLinesP then [b_lines; b_edges]
    else []
  else [].

(** Each recipe: its image if it got to the end, and the buffers it
    leaves alive. *)
Definition out0 : option buf :=
  if throws c_equalizeHist0 || throws c_adaptiveThreshold0
     || throws c_getStructuringElement || throws c_morphologyEx
  then None else Some b_dst0.
Definition left0 : list buf :=
  if throws c_equalizeHist0 then [b_v0]
  else if throws c_adaptiveThreshold0 then [b_dst0; b_v0]
  else if throws c_getStructuringElement then [b_dst0; b_v0]
  else if throws c_morphologyEx then [b_kernel; b_dst0; b_v0]
  else [b_dst0].

Definition out1 : option buf :=
  if throws c_GaussianBlur || throws c_threshold1 then None else Some b_dst1.
Definition left1 : list buf :=
  if throws c_GaussianBlur then [b_blur]
  else if throws c_threshold1 then [b_dst1; b_blur]
  else [b_dst1].

Definition out2 : option buf :=
  if throws c_bilateralFilter || throws c_medianBlur || throws c_adaptiveThreshold2
  then None else Some b_dst2.
Definition left2 : list buf :=
  if throws c_bilateralFilter then [b_bil]
  else if throws c_medianBlur then [b_med; b_bil]
  else if throws c_adaptiveThreshold2 then [b_dst2; b_med; b_bil]
  else [b_dst2].

Definition out3 : option buf :=
  if throws c_equalizeHist3 || throws c_CLAHE_apply || throws c_threshold3
  then None else Some b_dst3.
Definition left3 : list buf :=
  if throws c_equalizeHist3 then [b_claheBase]
  else if throws c_CLAHE_apply then [b_claheObj; b_claheDst; b_claheBase]
  else if throws c_threshold3 then [b_dst3; b_claheObj; b_claheDst; b_claheBase]
  else [b_dst3].

(** The images the recipes push, and every buffer alive once the four
    recipes are over ([src] and [gray] apart). *)
Definition outs : list buf := pushed [out0; out1; out2; out3].
Definition held (doDeskew : bool) : list buf :=
  left3 ++ left2 ++ left1 ++ left0 ++ skew_left doDeskew.

(** The buffers of a recipe that are not its image. *)
Definition scrap (out : option buf) (left : list buf) : list buf :=
  match out with
  | Some _ => []
  | None => left
  end.

(** What a run that reaches its end never releases. *)
Definition leaked (doDeskew : bool) : list buf :=
  scrap out3 left3 ++ scrap out2 left2 ++ scrap out1 left1 ++ scrap out0 left0
  ++ skew_left doDeskew.

(** The first iteration below [n] at which the call [s i] throws. *)
Fixpoint first_throw (s : nat -> site) (i n : nat) : option nat :=
  match n with
  | O => None
  | S n' => if throws (s i) then Some i else first_throw s (S i) n'
  end.

(** Neither the thumbnails nor the winning image make [cv.imshow]
    throw. *)
Definition display_ok (showAll : bool) : bool :=
  negb (throws c_imshow_best) &&
  (if showAll then
     match first_throw c_imshow_thumb 0 (length outs) with
     | Some _ => false
     | None => true
     end
   else true).

(** How the part of [createProcessedVariants] that [doExtract] of the
    module [Ocr] takes as given ends. *)
Definition prep_of (cols : Z) (one_channel doDeskew : bool)
    (atan2_deg : Z -> Z -> Q) (rows : list segment)
    : settled (option buf * option buf * option buf * option buf) (site + E) :=
  match prepare_failure cols one_channel doDeskew atan2_deg rows with
  | Some s => Rejected (inl s)
  | None =>
      match first_throw c_imshow_blob 0 (length outs) with
      | Some i => Rejected (inl (c_imshow_blob i))
      | None => Fulfilled (out0, out1, out2, out3)
      end
  end.
End Lifetimes.

(** Runs used as examples: no call throws; [Canny] and [medianBlur]
    throw; an engine that fulfils every request, and one whose sixth call
    is rejected; the rows of a page that leans by two degrees. *)
Definition quiet : site -> bool := fun _ => false.
Definition rough (s : site) : bool :=
  match s with
  | c_Canny | c_medianBlur => true
  | _ => false
  end.
Definition steady_ocr : @engine buf (site + string) :=
  fun k _ => Fulfilled {| data_text := Some [111; 107]%N;
                          data_confidence := Some (inject_Z (Z.of_nat (60 + k))) |}.
Definition flaky_ocr : @engine buf (site + string) :=
  fun k r => if (k =? 5)%nat then Rejected (inr "worker terminated"%string)
             else steady_ocr k r.
Definition leaning_rows : list segment :=
  [ {| x1 := 0; y1 := 0; x2 := 100; y2 := 3 |};
    {| x1 := 0; y1 := 0; x2 := 0; y2 := 50 |} ]%Z.
Definition gray_only : state :=
  {| live := [b_gray]; double_delete := []; use_after_delete := [];
     variants := [] |}.

End Buffers.

(* ================================================================== *)
(** * Part II: properties                                               *)
(* ================================================================== *)

(** ** [sort] and [Promise.all] *)
Module JsFacts.
Import Js.
Local Open Scope Q_scope.

Lemma Qltb_lt a b : Qltb a b = true <-> a < b.
Proof.
  unfold Qltb. rewrite negb_true_iff. split; intros H.
  - apply Qnot_le_lt. intros Hle. apply Qle_bool_iff in Hle. congruence.
  - destruct (Qle_bool b a) eqn:Hb; [|reflexivity].
    apply Qle_bool_iff in Hb. exfalso. now apply (Qlt_not_le a b).
Qed.

Lemma Qltb_ge a b : Qltb a b = false <-> b <= a.
Proof.
  unfold Qltb. rewrite negb_false_iff. apply Qle_bool_iff.
Qed.

Section SortFacts.
Context {A : Type} (cmp : A -> A -> Q).

Lemma insert_perm x l : Permutation (insert cmp x l) (x :: l).
Proof.
  induction l as [|y r IH]; cbn [insert]; [reflexivity|].
  destruct (Qltb 0 (cmp x y)); [|reflexivity].
  rewrite IH. apply perm_swap.
Qed.

Lemma sort_perm l : Permutation (sort cmp l) l.
Proof.
  induction l as [|x r IH]; [reflexivity|].
  cbn [sort fold_right]. fold (sort cmp r).
  rewrite insert_perm. now constructor.
Qed.

Lemma sort_length l : length (sort cmp l) = length l.
Proof. apply Permutation_length, sort_perm. Qed.
End SortFacts.

(** Ascending numeric sort, [(a, b) => a - b]. *)
Lemma insert_sorted x l :
  StronglySorted Qle l -> StronglySorted Qle (insert (fun a b => a - b) x l).
Proof.
  induction l as [|y r IH]; intros Hs; cbn [insert].
  - repeat constructor.
  - apply StronglySorted_inv in Hs. destruct Hs as [Hr Hy].
    destruct (Qltb 0 (x - y)) eqn:Hc.
    + apply Qltb_lt in Hc. constructor; [now apply IH|].
      eapply Permutation_Forall; [symmetry; apply insert_perm|].
      constructor; [lra|assumption].
    + apply Qltb_ge in Hc. constructor; [now constructor|].
      constructor; [lra|].
      apply (List.Forall_impl (P := Qle y)); [|assumption]. intros a Ha. lra.
Qed.

Lemma sort_sorted l : StronglySorted Qle (sort (fun a b => a - b) l).
Proof.
  induction l as [|x r IH]; [constructor|].
  cbn [sort fold_right]. now apply insert_sorted.
Qed.

Section AllFacts.
Context {A E : Type}.
Implicit Type outs : list (settled A E).
Implicit Type slots : list (option A).
Implicit Type values : list A.

Lemma filled_Some slots values :
  filled slots = Some values -> slots = map Some values.
Proof.
  revert values. induction slots as [|[a|] r IH]; intros values H; cbn in H.
  - now inversion H.
  - destruct (filled r) as [v|]; [|discriminate]. inversion H; subst.
    cbn. f_equal. now apply IH.
  - discriminate.
Qed.

Lemma filled_map values : filled (map Some values) = Some values.
Proof.
  induction values as [|a r IH]; [reflexivity|]. cbn. now rewrite IH.
Qed.

Lemma sound_start outs : sound outs (replicate (length outs) None).
Proof.
  split; [apply length_replicate|].
  intros i a H. apply lookup_replicate in H. destruct H. discriminate.
Qed.

Lemma sound_insert outs slots i a :
  sound outs slots -> outs !! i = Some (Fulfilled a) ->
  sound outs (<[i := Some a]> slots).
Proof.
  intros [Hl Hs] Hi. split; [now rewrite length_insert|].
  intros j b Hj. destruct (decide (i = j)) as [->|Hne].
  - rewrite list_lookup_insert_eq in Hj; [congruence|].
    rewrite Hl. now apply lookup_lt_Some in Hi.
  - rewrite list_lookup_insert_ne in Hj by assumption. now apply Hs.
Qed.

Lemma sound_values outs values :
  sound outs (map Some values) -> outs = map Fulfilled values.
Proof.
  intros [Hl Hs]. rewrite length_map in Hl.
  apply list_eq. intros i. rewrite list_lookup_fmap.
  destruct (values !! i) as [a|] eqn:Hv; cbn.
  - apply Hs. rewrite list_lookup_fmap, Hv. reflexivity.
  - apply lookup_ge_None. apply lookup_ge_None in Hv. lia.
Qed.

Lemma all_from_resolved outs ord slots values :
  sound outs slots -> all_from outs ord slots = Resolved values ->
  outs = map Fulfilled values.
Proof.
  revert slots. induction ord as [|i ord IH]; intros slots Hs H; cbn in H.
  - destruct (filled slots) as [v|] eqn:Hf; [|discriminate].
    inversion H; subst. apply filled_Some in Hf. subst. now apply sound_values.
  - destruct (outs !! i) as [[a|e]|] eqn:Hi; [|discriminate|]; eauto using sound_insert.
Qed.

Lemma all_from_failed outs ord slots e :
  all_from outs ord slots = Failed e -> In (Rejected e) outs.
Proof.
  revert slots. induction ord as [|i ord IH]; intros slots H; cbn in H.
  - destruct (filled slots); discriminate.
  - destruct (outs !! i) as [[a|e']|] eqn:Hi; eauto.
    inversion H; subst. apply list_elem_of_In, list_elem_of_lookup. eauto.
Qed.

(** When every task is fulfilled and [ord] names them all, the join
    resolves with the values in task order. *)
Lemma all_from_complete values ord slots :
  length slots = length values ->
  (forall i a, slots !! i = Some (Some a) -> values !! i = Some a) ->
  (forall i, (i < length values)%nat ->
             In i ord \/ exists a, slots !! i = Some (Some a)) ->
  all_from (map (@Fulfilled A E) values) ord slots = Resolved values.
Proof.
  revert slots. induction ord as [|i ord IH]; intros slots Hl Hs Hc; cbn.
  - assert (slots = map Some values) as ->.
    { apply list_eq. intros i. rewrite list_lookup_fmap.
      destruct (decide (i < length values)%nat) as [Hi|Hi].
      - destruct (Hc i Hi) as [[]|[a Ha]]. rewrite Ha. now rewrite (Hs i a Ha).
      - rewrite !(proj2 (lookup_ge_None _ _)); [reflexivity|lia..]. }
    now rewrite filled_map.
  - rewrite list_lookup_fmap.
    destruct (values !! i) as [a|] eqn:Hv; cbn.
    + apply IH.
      * now rewrite length_insert.
      * intros j b Hj. destruct (decide (i = j)) as [->|Hne].
        -- rewrite list_lookup_insert_eq in Hj; [congruence|].
           rewrite Hl. now apply lookup_lt_Some in Hv.
        -- rewrite list_lookup_insert_ne in Hj by assumption. now apply Hs.
      * intros j Hj. destruct (decide (i = j)) as [->|Hne].
        -- right. exists a. rewrite list_lookup_insert_eq; [reflexivity|].
           rewrite Hl. assumption.
        -- destruct (Hc j Hj) as [[?|?]|[b Hb]]; [congruence|now left|].
           right. exists b. now rewrite list_lookup_insert_ne.
    + apply IH; [assumption..|].
      intros j Hj. destruct (Hc j Hj) as [[<-|?]|?]; [|now left|now right].
      apply lookup_ge_None in Hv. lia.
Qed.

(** A rejected task that settles makes the join reject. *)
Lemma all_from_rejects outs ord slots j e :
  outs !! j = Some (Rejected e) -> In j ord ->
  exists e', all_from outs ord slots = Failed e'.
Proof.
  intros Hj. revert slots. induction ord as [|i ord IH]; intros slots Hin; [destruct Hin|].
  cbn. destruct (outs !! i) as [[a|e']|] eqn:Hi; [|eauto|].
  - destruct Hin as [->|Hin]; [congruence|]. now apply IH.
  - destruct Hin as [->|Hin]; [congruence|]. now apply IH.
Qed.

(** The reason is that of the first task to be rejected. *)
Lemma all_from_first_rejection outs pre j post slots e :
  (forall i, In i pre -> forall e', outs !! i <> Some (Rejected e')) ->
  outs !! j = Some (Rejected e) ->
  all_from outs (pre ++ j :: post) slots = Failed e.
Proof.
  intros Hpre Hj. revert slots. induction pre as [|i pre IH]; intros slots; cbn.
  - now rewrite Hj.
  - destruct (outs !! i) as [[a|e']|] eqn:Hi.
    + apply IH. intros k Hk. apply Hpre. now right.
    + exfalso. apply (Hpre i (or_introl eq_refl) e'). assumption.
    + apply IH. intros k Hk. apply Hpre. now right.
Qed.

Lemma completion_order_in n ord i :
  completion_order n ord = true -> (i < n)%nat -> In i ord.
Proof.
  unfold completion_order. intros H Hi. apply andb_true_iff in H.
  destruct H as [_ H]. rewrite forallb_forall in H.
  specialize (H i). rewrite existsb_exists in H.
  destruct H as (j & Hj & Hij); [apply in_seq; lia|].
  apply Nat.eqb_eq in Hij. now subst.
Qed.

Lemma promise_all_fulfilled values ord :
  completion_order (length values) ord = true ->
  promise_all (map (@Fulfilled A E) values) ord = Resolved values.
Proof.
  intros Hp. unfold promise_all. rewrite length_map.
  apply all_from_complete.
  - apply length_replicate.
  - intros i a H. apply lookup_replicate in H. destruct H. discriminate.
  - intros i Hi. left. now apply (completion_order_in (length values)).
Qed.

Lemma promise_all_rejected outs ord j e :
  completion_order (length outs) ord = true ->
  outs !! j = Some (Rejected e) ->
  exists e', promise_all outs ord = Failed e'.
Proof.
  intros Hp Hj. apply (all_from_rejects outs ord _ j e Hj).
  apply (completion_order_in (length outs)); [assumption|].
  now apply lookup_lt_Some in Hj.
Qed.

Lemma promise_all_resolved outs ord values :
  promise_all outs ord = Resolved values -> outs = map Fulfilled values.
Proof. apply all_from_resolved, sound_start. Qed.
End AllFacts.

End JsFacts.

(** ** The regular-expression pipeline against the five passes *)
Module TextFacts.
Import Text Normalize.
Local Open Scope N_scope.

Lemma replace_zwsp_filter s : replace_all re_zwsp [] s = strip_zwsp s.
Proof.
  unfold replace_all.
  induction s as [|c r IH]; [reflexivity|].
  cbn [replace_from strip_zwsp List.filter].
  cbn [match_here re_zwsp]. unfold isChar at 1.
  destruct (c =? ZWSP); cbn; fold (strip_zwsp r); now rewrite IH.
Qed.

(** A greedy class with nothing after it takes the whole run. *)
Lemma match_single lo p s :
  match_here [AtLeast lo p] s =
  if (run_length p s <? lo)%nat then None else Some (run_length p s).
Proof.
  cbn [match_here]. destruct (run_length p s <? lo)%nat; [reflexivity|].
  destruct (run_length p s); cbn; f_equal; lia.
Qed.

Lemma replace_hspace_both s :
  replace_from re_hspace [SP] O s = collapse_hspace_from false s /\
  replace_from re_hspace [SP] (run_length isHSpace s) s = collapse_hspace_from true s.
Proof.
  unfold re_hspace.
  induction s as [|c r [IH0 IH1]]; [split; reflexivity|].
  match goal with |- ?A /\ _ => assert (H0 : A) end.
  { cbn [replace_from]. rewrite match_single.
    cbn [run_length collapse_hspace_from].
    destruct (isHSpace c); cbn.
    - now rewrite IH1.
    - now rewrite IH0. }
  split; [exact H0|].
  cbn [run_length]. destruct (isHSpace c) eqn:Hc.
  - cbn [replace_from collapse_hspace_from]. now rewrite Hc.
  - rewrite H0. cbn [collapse_hspace_from]. now rewrite Hc.
Qed.

Lemma replace_hspace_collapse s :
  replace_all re_hspace [SP] s = collapse_hspace s.
Proof. apply replace_hspace_both. Qed.

Lemma isBlank_not_LF c : isBlank c = true -> (c =? LF) = false.
Proof.
  intros H. destruct (N.eqb_spec c LF) as [->|]; [discriminate H|reflexivity].
Qed.

(** Below the end of a run of blanks the next character is a blank, so
    [\n] does not match there: backtracking never helps. *)
Lemma newline_fails_in_run s k :
  (k < run_length isBlank s)%nat ->
  match_here [One (isChar LF)] (skipn k s) = None.
Proof.
  revert k. induction s as [|c r IH]; intros k Hk; cbn in Hk; [lia|].
  destruct (isBlank c) eqn:Hc; [|lia].
  destruct k as [|k].
  - cbn. unfold isChar. now rewrite (isBlank_not_LF c Hc).
  - cbn [skipn]. apply IH. lia.
Qed.

Lemma backtrack_in_run s k :
  (k < run_length isBlank s)%nat ->
  backtrack (match_here [One (isChar LF)]) s 1 k = None.
Proof.
  induction k as [|k IH]; intros Hk; cbn [backtrack];
    rewrite (newline_fails_in_run s _ Hk); [reflexivity|].
  destruct (S k <=? 1)%nat; [reflexivity|]. apply IH. lia.
Qed.

Lemma newline_after_run s :
  match_here [One (isChar LF)] (skipn (run_length isBlank s) s) =
  if run_to_newline isBlank s then Some 1%nat else None.
Proof.
  induction s as [|c r IH]; [reflexivity|].
  cbn [run_length run_to_newline].
  destruct (isBlank c) eqn:Hc.
  - rewrite (isBlank_not_LF c Hc). cbn [skipn andb]. exact IH.
  - cbn [skipn match_here andb]. unfold isChar.
    destruct (c =? LF); reflexivity.
Qed.

Lemma backtrack_unfold cont s lo k :
  backtrack cont s lo k =
  match cont (skipn k s) with
  | Some m => Some (k + m)%nat
  | None => match k with
            | O => None
            | S k' => if (k <=? lo)%nat then None else backtrack cont s lo k'
            end
  end.
Proof. destruct k; reflexivity. Qed.

Lemma match_trail s :
  match_here re_trail s =
  if (0 <? run_length isBlank s)%nat && run_to_newline isBlank s
  then Some (S (run_length isBlank s)) else None.
Proof.
  change (match_here re_trail s) with
    (if (run_length isBlank s <? 1)%nat then None
     else backtrack (match_here [One (isChar LF)]) s 1 (run_length isBlank s)).
  rewrite backtrack_unfold, newline_after_run.
  destruct (run_length isBlank s) as [|k] eqn:Hk; [reflexivity|].
  cbn [Nat.ltb Nat.leb andb].
  destruct (run_to_newline isBlank s).
  - f_equal. lia.
  - destruct k; [reflexivity|]. cbn [Nat.leb].
    apply backtrack_in_run. lia.
Qed.

Lemma replace_trail_both s :
  replace_from re_trail [LF] O s = strip_before_newline isBlank s /\
  (run_to_newline isBlank s = true ->
   LF :: replace_from re_trail [LF] (S (run_length isBlank s)) s
   = strip_before_newline isBlank s).
Proof.
  induction s as [|c r [IH0 IH1]]; [split; [reflexivity|discriminate]|].
  split.
  - cbn [replace_from]. rewrite match_trail.
    cbn [run_length run_to_newline strip_before_newline].
    destruct (isBlank c) eqn:Hc.
    + rewrite (isBlank_not_LF c Hc). cbn [Nat.ltb Nat.leb andb negb].
      destruct (run_to_newline isBlank r) eqn:Hr.
      * cbn [app]. now apply IH1.
      * now rewrite IH0.
    + cbn [Nat.ltb Nat.leb andb]. now rewrite IH0.
  - cbn [run_length run_to_newline strip_before_newline replace_from].
    destruct (c =? LF) eqn:Hlf.
    + intros _. destruct (isBlank c) eqn:Hc.
      { rewrite (isBlank_not_LF c Hc) in Hlf. discriminate. }
      cbn [andb]. rewrite IH0. apply N.eqb_eq in Hlf. now subst c.
    + destruct (isBlank c); cbn [andb negb]; [|discriminate].
      intros Hr. rewrite Hr. now apply IH1.
Qed.

Lemma replace_trail_strip s :
  replace_all re_trail [LF] s = strip_before_newline isBlank s.
Proof. apply replace_trail_both. Qed.

(** Two classes that agree on the characters of [s] strip the same. *)
Lemma run_to_newline_ext p q s :
  (forall c, In c s -> p c = q c) -> run_to_newline p s = run_to_newline q s.
Proof.
  induction s as [|c r IH]; intros H; [reflexivity|].
  cbn. rewrite (H c (or_introl eq_refl)), IH; [reflexivity|].
  intros d Hd. apply H. now right.
Qed.

Lemma strip_before_newline_ext p q s :
  (forall c, In c s -> p c = q c) ->
  strip_before_newline p s = strip_before_newline q s.
Proof.
  induction s as [|c r IH]; intros H; [reflexivity|].
  assert (Hr : forall d, In d r -> p d = q d) by (intros d Hd; apply H; now right).
  cbn. rewrite (H c (or_introl eq_refl)), (run_to_newline_ext p q r Hr), (IH Hr).
  reflexivity.
Qed.

Lemma replace_nl3_all s :
  let run := run_length (isChar LF) in
  replace_from re_nl3 [LF; LF] O s = collapse_newlines_from 0 s /\
  replace_from re_nl3 [LF; LF] (run s) s = collapse_newlines_from 2 s /\
  collapse_newlines_from 1 s =
    (if (run s <? 2)%nat then replace_from re_nl3 [LF; LF] O s
     else LF :: replace_from re_nl3 [LF; LF] (run s) s).
Proof.
  unfold re_nl3. cbv zeta.
  induction s as [|c r (IHA & IHB & IHC)]; [repeat split; reflexivity|].
  assert (Hcn : forall k, collapse_newlines_from k (c :: r) =
    if isChar LF c
    then if (k <? 2)%nat then LF :: collapse_newlines_from (S k) r
         else collapse_newlines_from k r
    else c :: collapse_newlines_from 0 r) by reflexivity.
  assert (Hrep : replace_from [AtLeast 3 (isChar LF)] [LF; LF] O (c :: r) =
    if isChar LF c
    then if (run_length (isChar LF) r <? 2)%nat
         then c :: replace_from [AtLeast 3 (isChar LF)] [LF; LF] O r
         else LF :: LF :: replace_from [AtLeast 3 (isChar LF)] [LF; LF]
                            (run_length (isChar LF) r) r
    else c :: replace_from [AtLeast 3 (isChar LF)] [LF; LF] O r).
  { cbn [replace_from]. rewrite match_single. cbn [run_length].
    destruct (isChar LF c); [|reflexivity].
    destruct (run_length (isChar LF) r) as [|[|j]]; reflexivity. }
  rewrite Hrep, !Hcn. cbn [run_length].
  destruct (isChar LF c) eqn:Hc.
  - assert (c = LF) as -> by (now apply N.eqb_eq).
    cbn [Nat.ltb Nat.leb replace_from]. rewrite IHB, IHC.
    destruct (run_length (isChar LF) r) as [|[|j]] eqn:Hj; cbn [Nat.ltb Nat.leb];
      repeat split; try reflexivity.
    all: now rewrite IHB.
  - rewrite Hrep, IHA. cbn [Nat.ltb Nat.leb]. repeat split; reflexivity.
Qed.

Lemma replace_nl3_collapse s :
  replace_all re_nl3 [LF; LF] s = collapse_newlines s.
Proof. apply (replace_nl3_all s). Qed.

Lemma join_cons_head c l ls : join LF ((c :: l) :: ls) = c :: join LF (l :: ls).
Proof. destruct ls; reflexivity. Qed.

Lemma join_cons2 sep l l' ls :
  join sep (l :: l' :: ls) = l ++ sep :: join sep (l' :: ls).
Proof. reflexivity. Qed.

Lemma split_nonempty sep s : split sep s <> [].
Proof.
  destruct s as [|c r]; cbn; [discriminate|].
  destruct (c =? sep); [discriminate|]. destruct (split sep r); discriminate.
Qed.

Lemma trimEnd_nonspace c l : isSpace c = false -> trimEnd (c :: l) = c :: trimEnd l.
Proof. intros H. cbn. rewrite H. now destruct (trimEnd l). Qed.

Lemma trim_lines_split s :
  match split LF s with
  | [] => False
  | l :: ls =>
      join LF (trim l :: map trim ls) = trim_lines_from true s /\
      join LF (trimEnd l :: map trim ls) = trim_lines_from false s /\
      blank_to_eol s = match trimEnd l with [] => true | _ :: _ => false end
  end.
Proof.
  induction s as [|c r IH]; [repeat split; reflexivity|].
  cbn [split trim_lines_from blank_to_eol].
  destruct (split LF r) as [|l ls] eqn:Hs; [destruct IH|].
  destruct IH as (IHt & IHf & IHb).
  destruct (c =? LF) eqn:Hc.
  - cbn [map]. change (trim []) with (@nil char16). change (trimEnd []) with (@nil char16).
    rewrite join_cons2, IHt. repeat split; reflexivity.
  - destruct (isSpace c) eqn:Hsp; cbn [andb orb].
    + repeat split.
      * unfold trim. cbn [trimStart]. rewrite Hsp. exact IHt.
      * rewrite IHb. cbn [trimEnd]. rewrite Hsp.
        destruct (trimEnd l) eqn:Hl; [exact IHf|].
        rewrite join_cons_head. now rewrite IHf.
      * rewrite IHb. cbn [trimEnd]. rewrite Hsp. now destruct (trimEnd l).
    + repeat split.
      * unfold trim at 1. cbn [trimStart]. rewrite Hsp.
        rewrite (trimEnd_nonspace c l Hsp), join_cons_head. now rewrite IHf.
      * rewrite (trimEnd_nonspace c l Hsp), join_cons_head. now rewrite IHf.
      * now rewrite (trimEnd_nonspace c l Hsp).
Qed.

Lemma trim_lines_join s :
  join LF (map trim (split LF s)) = trim_lines s.
Proof.
  pose proof (trim_lines_split s) as H.
  destruct (split LF s) as [|l ls]; [destruct H|]. apply H.
Qed.

Lemma isBlank_isHSpace c : isBlank c = true -> isHSpace c = true.
Proof.
  unfold isBlank. intros H. apply orb_true_iff in H.
  destruct H as [H|H]; apply N.eqb_eq in H; subst c; reflexivity.
Qed.

Lemma collapse_hspace_chars b s c :
  In c (collapse_hspace_from b s) -> c = SP \/ (In c s /\ isHSpace c = false).
Proof.
  revert b. induction s as [|d r IH]; intros b; cbn; [tauto|].
  destruct (isHSpace d) eqn:Hd.
  - destruct b; cbn; intros H.
    + destruct (IH _ H) as [->|[? ?]]; auto.
    + destruct H as [<-|H]; [auto|]. destruct (IH _ H) as [->|[? ?]]; auto.
  - cbn. intros [<-|H]; [auto|]. destruct (IH _ H) as [->|[? ?]]; auto.
Qed.

(** The regular-expression pipeline is the five passes of [normalize]. *)
Lemma cleanText_normalize s : cleanText s = normalize s.
Proof.
  destruct s as [|c0 r0]; [reflexivity|].
  unfold cleanText, normalize.
  rewrite replace_zwsp_filter, replace_hspace_collapse, replace_trail_strip,
    replace_nl3_collapse, trim_lines_join.
  do 3 f_equal. unfold strip_trailing.
  apply strip_before_newline_ext. intros c Hc.
  destruct (collapse_hspace_chars _ _ _ Hc) as [->|[_ Hh]]; [reflexivity|].
  rewrite Hh. destruct (isBlank c) eqn:Hb; [|reflexivity].
  apply isBlank_isHSpace in Hb. congruence.
Qed.

End TextFacts.

(** ** Shape of a cleaned text, and idempotence without carriage return *)
Module TidyFacts.
Import Text Normalize TextFacts.
Local Open Scope N_scope.

Lemma tidy_view c : tidy c = true -> char_view c.
Proof.
  unfold tidy. intros H. apply andb_true_iff in H. destruct H as [Hz H].
  apply negb_true_iff in Hz.
  destruct (N.eqb_spec c SP) as [->|Hsp]; [now apply V_sp|].
  destruct (N.eqb_spec c LF) as [->|Hlf]; [now apply V_lf|].
  destruct (isSpace c) eqn:Hs; [discriminate H|].
  apply V_ink; auto.
  - unfold isHSpace. now rewrite Hs.
  - now apply N.eqb_neq.
  - now apply N.eqb_neq.
Qed.

Lemma Tidy_cons c s : Tidy (c :: s) -> char_view c /\ Tidy s.
Proof. intros H. inversion H; subst. split; [now apply tidy_view|assumption]. Qed.

Lemma Tidy_incl s t : (forall c, In c t -> In c s) -> Tidy s -> Tidy t.
Proof.
  unfold Tidy. rewrite !List.Forall_forall. intros Hin H c Hc. apply H, Hin, Hc.
Qed.

(** *** Every pass after the second only deletes characters *)

Lemma strip_before_newline_incl p s c :
  In c (strip_before_newline p s) -> In c s.
Proof.
  induction s as [|d r IH]; cbn; [tauto|].
  destruct (p d && negb (d =? LF) && run_to_newline p r); cbn; tauto.
Qed.

Lemma collapse_newlines_incl k s c :
  In c (collapse_newlines_from k s) -> In c s.
Proof.
  revert k. induction s as [|d r IH]; intros k; cbn [collapse_newlines_from In]; [tauto|].
  destruct (d =? LF) eqn:Hd.
  - destruct (k <? 2)%nat; cbn [In]; intros H.
    + destruct H as [<-|H]; [left; now apply N.eqb_eq|right; eauto].
    + right; eauto.
  - cbn. intros [H|H]; [now left|right; eauto].
Qed.

Lemma trim_lines_incl b s c : In c (trim_lines_from b s) -> In c s.
Proof.
  revert b. induction s as [|d r IH]; intros b; cbn; [tauto|].
  destruct (d =? LF) eqn:Hd.
  - cbn. intros [<-|H]; [left; now apply N.eqb_eq|right; eauto].
  - destruct (isSpace d && (b || blank_to_eol r)); cbn.
    + intros H. right; eauto.
    + intros [H|H]; [now left|right; eauto].
Qed.

Lemma trimStart_incl s c : In c (trimStart s) -> In c s.
Proof.
  induction s as [|d r IH]; cbn; [tauto|].
  destruct (isSpace d); cbn; tauto.
Qed.

Lemma trimEnd_incl s c : In c (trimEnd s) -> In c s.
Proof.
  induction s as [|d r IH]; cbn; [tauto|].
  destruct (trimEnd r) as [|e r'].
  - destruct (isSpace d); cbn; tauto.
  - cbn in *. tauto.
Qed.

Lemma strip_zwsp_in s c : In c (strip_zwsp s) -> In c s /\ (c =? ZWSP) = false.
Proof.
  unfold strip_zwsp. rewrite List.filter_In. intros [? H].
  split; [assumption|]. now apply negb_true_iff.
Qed.

(** After the first two passes the text is tidy, if it had no carriage
    return. *)
Lemma collapse_tidy s : cr_free s = true -> Tidy (collapse_hspace (strip_zwsp s)).
Proof.
  intros Hcr. unfold cr_free in Hcr. rewrite forallb_forall in Hcr. unfold Tidy. rewrite List.Forall_forall. intros c Hc.
  destruct (collapse_hspace_chars _ _ _ Hc) as [->|[Hin Hh]]; [reflexivity|].
  apply strip_zwsp_in in Hin. destruct Hin as [Hin Hz].
  unfold tidy. rewrite Hz. cbn [negb andb].
  unfold isHSpace in Hh. rewrite negb_involutive in Hh.
  destruct (isSpace c); [|reflexivity].
  specialize (Hcr c Hin). rewrite Hcr in Hh.
  cbn in Hh. apply negb_false_iff in Hh. rewrite Hh. now rewrite orb_true_r.
Qed.

(** *** Neighbour relations *)

Ltac char_cases H :=
  apply Tidy_cons in H;
  let Hs := fresh "Hs" in let Hh := fresh "Hh" in let Hsp := fresh "Hsp" in
  let Hlf := fresh "Hlf" in let Hz := fresh "Hz" in let Ht := fresh "Ht" in
  destruct H as [[->| ->|Hs Hh Hsp Hlf Hz] Ht].

Ltac bool_hyps :=
  repeat match goal with
  | H : _ && _ = true |- _ => apply andb_true_iff in H; destruct H
  | H : negb _ = true |- _ => apply negb_true_iff in H
  | H : negb _ = false |- _ => apply negb_false_iff in H
  end.

Lemma chain_okSS_SP s b : chain okSS SP s = true -> chain okSS b s = true.
Proof.
  destruct s as [|c r]; [reflexivity|]. cbn [chain]. intros H. bool_hyps.
  apply andb_true_iff; split; [|assumption].
  unfold okSS in *. cbn in H. bool_hyps. rewrite H. now rewrite andb_false_r.
Qed.

Lemma chain_and prev s :
  chain okN prev s = chain okSS prev s && chain okSL prev s && chain okLS prev s.
Proof.
  revert prev. induction s as [|c r IH]; intros prev; [reflexivity|].
  cbn [chain]. rewrite IH. unfold okN.
  destruct (okSS prev c), (okSL prev c), (okLS prev c),
    (chain okSS c r), (chain okSL c r); reflexivity.
Qed.

Lemma chain_snoc_free ok prev s x :
  (forall a, ok a x = true) -> chain ok prev (s ++ [x]) = chain ok prev s.
Proof.
  intros H. revert prev. induction s as [|c r IH]; intros prev; cbn [app chain].
  - now rewrite H.
  - now rewrite IH.
Qed.

Lemma chain_snoc_l ok prev s x :
  chain ok prev (s ++ [x]) = true -> chain ok prev s = true.
Proof.
  revert prev. induction s as [|c r IH]; intros prev; cbn [app chain]; [reflexivity|].
  intros H. bool_hyps. apply andb_true_iff; split; [assumption|]. now apply IH.
Qed.

(** *** Pass 2: no two spaces in a row *)

Lemma collapse_okSS s prev inrun :
  (inrun = false -> (prev =? SP) = false) ->
  chain okSS prev (collapse_hspace_from inrun s) = true.
Proof.
  revert prev inrun. induction s as [|c r IH]; intros prev inrun Hp; [reflexivity|].
  cbn [collapse_hspace_from]. destruct (isHSpace c) eqn:Hc.
  - destruct inrun.
    + now apply IH.
    + cbn [chain]. rewrite IH by discriminate.
      unfold okSS. now rewrite Hp.
  - cbn [chain]. assert (Hsp : (c =? SP) = false).
    { destruct (N.eqb_spec c SP) as [->|]; [discriminate Hc|reflexivity]. }
    rewrite IH by auto. unfold okSS. rewrite Hsp. now rewrite andb_false_r.
Qed.

(** *** Pass 3: no space before a newline, spaces still single *)

Lemma strip_trailing_okSS s prev :
  Tidy s -> chain okSS prev s = true -> chain okSS prev (strip_trailing s) = true.
Proof.
  unfold strip_trailing.
  revert prev. induction s as [|c r IH]; intros prev Ht Hch; [reflexivity|].
  cbn [chain] in Hch. bool_hyps. cbn [strip_before_newline].
  char_cases Ht.
  - change (isHSpace SP && negb (SP =? LF)) with true. cbn [andb].
    destruct (run_to_newline isHSpace r).
    + apply IH; [assumption|]. now apply chain_okSS_SP.
    + cbn [chain]. rewrite IH by assumption. now rewrite andb_true_r.
  - change (isHSpace LF && negb (LF =? LF)) with false. cbn [andb chain].
    rewrite IH by assumption. now rewrite andb_true_r.
  - rewrite Hh. cbn [andb chain]. rewrite IH by assumption. now rewrite andb_true_r.
Qed.

Lemma strip_trailing_okSL s prev :
  Tidy s -> ((prev =? SP) = true -> run_to_newline isHSpace s = false) ->
  chain okSL prev (strip_trailing s) = true.
Proof.
  unfold strip_trailing.
  revert prev. induction s as [|c r IH]; intros prev Ht Hp; [reflexivity|].
  cbn [strip_before_newline]. cbn [run_to_newline] in Hp.
  char_cases Ht.
  - change (isHSpace SP && negb (SP =? LF)) with true. cbn [andb].
    change (SP =? LF) with false in Hp. change (isHSpace SP) with true in Hp.
    cbn [andb] in Hp.
    destruct (run_to_newline isHSpace r) eqn:Hr.
    + apply IH; [assumption|]. intros H. specialize (Hp H). discriminate.
    + cbn [chain]. rewrite IH by auto. unfold okSL.
      change (SP =? LF) with false. now rewrite andb_false_r.
  - change (isHSpace LF && negb (LF =? LF)) with false. cbn [andb chain].
    change (LF =? LF) with true in Hp.
    rewrite IH by (auto; discriminate). unfold okSL.
    destruct (prev =? SP); [specialize (Hp eq_refl); discriminate|reflexivity].
  - rewrite Hh. cbn [andb chain]. rewrite IH by (auto; congruence).
    unfold okSL. rewrite Hlf. now rewrite andb_false_r.
Qed.

(** *** Pass 4: at most two newlines in a row, neighbours untouched *)

Lemma collapse_newlines_chain ok s prev k :
  (k <> O -> prev = LF) -> chain ok prev s = true ->
  chain ok prev (collapse_newlines_from k s) = true.
Proof.
  revert prev k. induction s as [|c r IH]; intros prev k Hk Hch; [reflexivity|].
  cbn [chain] in Hch. bool_hyps. cbn [collapse_newlines_from].
  destruct (N.eqb_spec c LF) as [->|Hc].
  - destruct (k <? 2)%nat eqn:Hk2.
    + cbn [chain]. rewrite IH by auto. now rewrite andb_true_r.
    + apply IH; [assumption|]. rewrite Hk; [assumption|].
      intros ->. discriminate Hk2.
  - cbn [chain]. rewrite IH by (auto; congruence). now rewrite andb_true_r.
Qed.

Lemma collapse_newlines_nl_ok s k :
  (k <= 2)%nat -> nl_ok k (collapse_newlines_from k s) = true.
Proof.
  revert k. induction s as [|c r IH]; intros k Hk; [reflexivity|].
  cbn [collapse_newlines_from]. destruct (c =? LF) eqn:Hc.
  - destruct (k <? 2)%nat eqn:Hk2.
    + cbn [nl_ok]. change (LF =? LF) with true. rewrite Hk2. cbn [andb].
      apply IH. apply Nat.ltb_lt in Hk2. lia.
    + now apply IH.
  - cbn [nl_ok]. rewrite Hc. apply IH. lia.
Qed.

(** *** Pass 5: lines neither start nor end with a space *)

Lemma trim_lines_okLS s prev bol :
  Tidy s -> ((prev =? LF) = true -> bol = true) ->
  chain okLS prev (trim_lines_from bol s) = true.
Proof.
  revert prev bol. induction s as [|c r IH]; intros prev bol Ht Hp; [reflexivity|].
  cbn [trim_lines_from]. char_cases Ht.
  - change (SP =? LF) with false. change (isSpace SP) with true. cbn [andb].
    destruct (bol || blank_to_eol r) eqn:Hb.
    + now apply IH.
    + cbn [chain]. rewrite IH by (auto; discriminate). unfold okLS.
      apply orb_false_iff in Hb. destruct Hb as [-> _].
      destruct (prev =? LF); [specialize (Hp eq_refl); discriminate|reflexivity].
  - change (LF =? LF) with true. cbn [chain]. rewrite IH by auto.
    unfold okLS. change (LF =? SP) with false. now rewrite andb_false_r.
  - rewrite Hlf, Hs. cbn [andb chain]. rewrite IH by (auto; congruence).
    unfold okLS. rewrite Hsp. now rewrite andb_false_r.
Qed.

Lemma trim_lines_okSL s prev bol :
  Tidy s -> ((prev =? SP) = true -> blank_to_eol s = false) ->
  chain okSL prev (trim_lines_from bol s ++ [LF]) = true.
Proof.
  revert prev bol. induction s as [|c r IH]; intros prev bol Ht Hp.
  - cbn. unfold okSL. change (LF =? LF) with true.
    destruct (prev =? SP); [specialize (Hp eq_refl); discriminate|reflexivity].
  - cbn [trim_lines_from]. cbn [blank_to_eol] in Hp. char_cases Ht.
    + change (SP =? LF) with false in *. change (isSpace SP) with true in *.
      cbn [andb] in *.
      destruct (bol || blank_to_eol r) eqn:Hb.
      * now apply IH.
      * cbn [app chain]. apply orb_false_iff in Hb. destruct Hb as [_ Hb].
        rewrite IH by auto. unfold okSL. change (SP =? LF) with false.
        now rewrite andb_false_r.
    + change (LF =? LF) with true in *. cbn [app chain].
      rewrite IH by (auto; discriminate). unfold okSL.
      destruct (prev =? SP); [specialize (Hp eq_refl); discriminate|reflexivity].
    + rewrite Hlf, Hs. cbn [andb app chain]. rewrite IH by (auto; congruence).
      unfold okSL. rewrite Hlf. now rewrite andb_false_r.
Qed.

Lemma trim_lines_okSS s prev bol :
  Tidy s -> chain okSS prev s = true ->
  chain okSS prev (trim_lines_from bol s) = true.
Proof.
  revert prev bol. induction s as [|c r IH]; intros prev bol Ht Hch; [reflexivity|].
  cbn [chain] in Hch. bool_hyps. cbn [trim_lines_from]. char_cases Ht.
  - change (SP =? LF) with false. change (isSpace SP) with true. cbn [andb].
    destruct (bol || blank_to_eol r).
    + apply IH; [assumption|]. now apply chain_okSS_SP.
    + cbn [chain]. rewrite IH by assumption. now rewrite andb_true_r.
  - change (LF =? LF) with true. cbn [chain]. rewrite IH by assumption.
    now rewrite andb_true_r.
  - rewrite Hlf, Hs. cbn [andb chain]. rewrite IH by assumption.
    now rewrite andb_true_r.
Qed.

(** After a space of a text with single spaces and none before a newline
    comes an ordinary character, which resets the newline count. *)
Lemma nl_ok_after_space r k :
  Tidy r -> chain okSS SP r = true -> chain okSL SP r = true ->
  nl_ok k r = nl_ok O r.
Proof.
  intros Ht H1 H2. destruct r as [|c r]; [reflexivity|].
  cbn [chain] in H1, H2. bool_hyps. char_cases Ht.
  - discriminate.
  - discriminate.
  - cbn [nl_ok]. now rewrite Hlf.
Qed.

Lemma trim_lines_nl_ok s prev bol k :
  Tidy s -> chain okSS prev s = true -> chain okSL prev s = true ->
  nl_ok k s = true -> nl_ok k (trim_lines_from bol s) = true.
Proof.
  revert prev bol k. induction s as [|c r IH]; intros prev bol k Ht H1 H2 Hn;
    [reflexivity|].
  cbn [chain] in H1, H2. bool_hyps. cbn [trim_lines_from]. cbn [nl_ok] in Hn.
  char_cases Ht.
  - change (SP =? LF) with false in *. cbv iota in Hn.
    change (isSpace SP) with true. cbn [andb].
    destruct (bol || blank_to_eol r).
    + apply (IH SP); try assumption.
      now rewrite (nl_ok_after_space r k).
    + cbn [nl_ok]. change (SP =? LF) with false. now apply (IH SP).
  - change (LF =? LF) with true in *. cbv iota in Hn. bool_hyps. cbn [nl_ok].
    change (LF =? LF) with true. apply andb_true_iff; split; [assumption|].
    now apply (IH LF).
  - rewrite Hlf in Hn. rewrite Hlf, Hs. cbn [andb nl_ok]. rewrite Hlf. now apply (IH c).
Qed.

(** *** Pass 6: trimming keeps the shape *)

Lemma trimStart_chain s :
  Tidy s -> chain okN LF (s ++ [LF]) = true ->
  chain okN LF (trimStart s ++ [LF]) = true.
Proof.
  induction s as [|c r IH]; intros Ht Hch; [assumption|].
  cbn [app chain] in Hch. bool_hyps. cbn [trimStart]. char_cases Ht.
  - discriminate.
  - change (isSpace LF) with true. now apply IH.
  - rewrite Hs. cbn [app chain]. apply andb_true_iff. now split.
Qed.

Lemma trimEnd_chain s prev :
  Tidy s -> chain okN prev (s ++ [LF]) = true ->
  chain okN prev (trimEnd s ++ [LF]) = true.
Proof.
  revert prev. induction s as [|c r IH]; intros prev Ht Hch; [assumption|].
  cbn [app chain] in Hch. bool_hyps.
  assert (Hc := Ht). apply Tidy_cons in Hc. destruct Hc as [_ Htr].
  specialize (IH c Htr ltac:(assumption)).
  cbn [trimEnd]. destruct (trimEnd r) as [|e r'] eqn:He.
  - cbn [app chain] in IH. bool_hyps. char_cases Ht.
    + discriminate.
    + change (isSpace LF) with true. cbn [app chain].
      apply andb_true_iff. now split.
    + rewrite Hs. cbn [app chain]. rewrite andb_true_r.
      apply andb_true_iff; split; assumption.
  - cbn [app chain]. apply andb_true_iff. now split.
Qed.

Lemma trimStart_nl_ok s k : nl_ok k s = true -> nl_ok O (trimStart s) = true.
Proof.
  revert k. induction s as [|c r IH]; intros k Hn; [reflexivity|].
  cbn [trimStart]. cbn [nl_ok] in Hn. destruct (isSpace c) eqn:Hs.
  - destruct (c =? LF); bool_hyps; eauto.
  - cbn [nl_ok]. destruct (N.eqb_spec c LF) as [->|]; [discriminate Hs|assumption].
Qed.

Lemma trimEnd_nl_ok s k : nl_ok k s = true -> nl_ok k (trimEnd s) = true.
Proof.
  revert k. induction s as [|c r IH]; intros k Hn; [reflexivity|].
  cbn [trimEnd]. cbn [nl_ok] in Hn.
  destruct (trimEnd r) as [|e r'] eqn:He.
  - destruct (isSpace c) eqn:Hs; [reflexivity|].
    cbn [nl_ok]. destruct (N.eqb_spec c LF) as [->|]; [discriminate Hs|reflexivity].
  - cbn [nl_ok]. fold (nl_ok (S k) (e :: r')). fold (nl_ok O (e :: r')).
    destruct (c =? LF); bool_hyps.
    + apply andb_true_iff; split; [assumption|]. now apply IH.
    + now apply IH.
Qed.

Lemma trimEnd_idem s : trimEnd (trimEnd s) = trimEnd s.
Proof.
  induction s as [|c r IH]; [reflexivity|].
  cbn [trimEnd]. destruct (trimEnd r) as [|e r'] eqn:He.
  - destruct (isSpace c) eqn:Hs; [reflexivity|]. cbn. now rewrite Hs.
  - change (trimEnd (c :: e :: r')) with
      (match trimEnd (e :: r') with
       | [] => if isSpace c then [] else [c]
       | x :: y => c :: x :: y end).
    now rewrite IH.
Qed.

Lemma trimStart_head s :
  match trimStart s with [] => True | c :: _ => isSpace c = false end.
Proof.
  induction s as [|c r IH]; [exact I|].
  cbn [trimStart]. destruct (isSpace c) eqn:Hs; assumption.
Qed.

Lemma trim_idem s : trim (trim s) = trim s.
Proof.
  unfold trim. pose proof (trimStart_head s) as H.
  destruct (trimStart s) as [|c r]; [reflexivity|].
  rewrite (trimEnd_nonspace c r H). cbn [trimStart]. rewrite H.
  rewrite <- (trimEnd_nonspace c r H). apply trimEnd_idem.
Qed.

(** *** A cleaned text is left alone by every pass *)

Lemma strip_zwsp_fix t : Tidy t -> strip_zwsp t = t.
Proof.
  unfold strip_zwsp. induction t as [|c r IH]; intros Ht; [reflexivity|].
  cbn [List.filter]. char_cases Ht.
  - change (negb (SP =? ZWSP)) with true. cbv iota. now rewrite IH.
  - change (negb (LF =? ZWSP)) with true. cbv iota. now rewrite IH.
  - rewrite Hz. cbn [negb]. now rewrite IH.
Qed.

Lemma collapse_hspace_fix t prev inrun :
  Tidy t -> chain okSS prev t = true -> (inrun = true -> prev = SP) ->
  collapse_hspace_from inrun t = t.
Proof.
  revert prev inrun. induction t as [|c r IH]; intros prev inrun Ht Hch Hp;
    [reflexivity|].
  cbn [chain] in Hch. bool_hyps. cbn [collapse_hspace_from]. char_cases Ht.
  - change (isHSpace SP) with true. cbv iota. destruct inrun.
    + rewrite (Hp eq_refl) in *. discriminate.
    + f_equal. now apply (IH SP).
  - change (isHSpace LF) with false. cbv iota. f_equal.
    apply (IH LF); [assumption..|discriminate].
  - rewrite Hh. f_equal. apply (IH c); [assumption..|discriminate].
Qed.

Lemma strip_trailing_fix t prev :
  Tidy t -> chain okN prev t = true -> strip_trailing t = t.
Proof.
  unfold strip_trailing.
  revert prev. induction t as [|c r IH]; intros prev Ht Hch; [reflexivity|].
  cbn [chain] in Hch. bool_hyps. cbn [strip_before_newline]. char_cases Ht.
  - change (isHSpace SP && negb (SP =? LF)) with true. cbn [andb].
    assert (Hr : run_to_newline isHSpace r = false).
    { destruct r as [|d r]; [reflexivity|]. cbn [chain] in *. bool_hyps.
      unfold okN in *. bool_hyps. char_cases Ht0; try discriminate.
      cbn [run_to_newline]. now rewrite Hlf, Hh. }
    rewrite Hr. f_equal. now apply (IH SP).
  - change (isHSpace LF && negb (LF =? LF)) with false. cbn [andb]. f_equal.
    now apply (IH LF).
  - rewrite Hh. cbn [andb]. f_equal. now apply (IH c).
Qed.

Lemma collapse_newlines_fix t k :
  nl_ok k t = true -> collapse_newlines_from k t = t.
Proof.
  revert k. induction t as [|c r IH]; intros k Hn; [reflexivity|].
  cbn [nl_ok] in Hn. cbn [collapse_newlines_from].
  destruct (N.eqb_spec c LF) as [->|Hc].
  - bool_hyps. rewrite H. f_equal. now apply IH.
  - f_equal. now apply IH.
Qed.

Lemma trim_lines_fix t prev bol :
  Tidy t -> chain okN prev (t ++ [LF]) = true -> (bol = true -> prev = LF) ->
  trim_lines_from bol t = t.
Proof.
  revert prev bol. induction t as [|c r IH]; intros prev bol Ht Hch Hp;
    [reflexivity|].
  cbn [app chain] in Hch. bool_hyps. cbn [trim_lines_from]. char_cases Ht.
  - change (SP =? LF) with false. change (isSpace SP) with true. cbn [andb].
    assert (Hb : bol = false).
    { destruct bol; [|reflexivity]. rewrite (Hp eq_refl) in *. discriminate. }
    assert (Hr : blank_to_eol r = false).
    { destruct r as [|d r]; cbn [app chain] in *; bool_hyps; [discriminate|].
      unfold okN in *. bool_hyps. char_cases Ht0; try discriminate.
      cbn [blank_to_eol]. now rewrite Hlf, Hs. }
    rewrite Hb, Hr. cbn [orb]. f_equal. apply (IH SP); [assumption..|discriminate].
  - change (LF =? LF) with true. cbv iota. f_equal. now apply (IH LF).
  - rewrite Hlf, Hs. cbn [andb]. f_equal.
    apply (IH c); [assumption..|discriminate].
Qed.

Lemma normalize_fix t : cleaned t -> normalize t = t.
Proof.
  intros (Ht & Hch & Hn & Htr). unfold normalize.
  assert (Hch' : chain okN LF t = true) by (now apply chain_snoc_l in Hch).
  assert (Hss : chain okSS LF t = true).
  { rewrite chain_and in Hch'. now bool_hyps. }
  rewrite (strip_zwsp_fix t Ht).
  unfold collapse_hspace. rewrite (collapse_hspace_fix t LF false Ht Hss) by discriminate.
  rewrite (strip_trailing_fix t LF Ht Hch').
  unfold collapse_newlines. rewrite (collapse_newlines_fix t O Hn).
  unfold trim_lines. rewrite (trim_lines_fix t LF true Ht Hch) by reflexivity.
  exact Htr.
Qed.

(** *** The result of the transform is cleaned *)

Lemma normalize_cleaned s : cr_free s = true -> cleaned (normalize s).
Proof.
  intros Hcr. unfold normalize.
  set (x2 := collapse_hspace (strip_zwsp s)).
  set (x3 := strip_trailing x2). set (x4 := collapse_newlines x3).
  set (x5 := trim_lines x4).
  assert (T2 : Tidy x2) by (now apply collapse_tidy).
  assert (B2 : chain okSS LF x2 = true) by (apply collapse_okSS; reflexivity).
  assert (T3 : Tidy x3).
  { apply (Tidy_incl x2); [|assumption]. intros c. apply strip_before_newline_incl. }
  assert (B3 : chain okSS LF x3 = true) by (now apply strip_trailing_okSS).
  assert (C3 : chain okSL LF x3 = true) by (apply strip_trailing_okSL; [assumption|discriminate]).
  assert (T4 : Tidy x4).
  { apply (Tidy_incl x3); [|assumption]. intros c. apply collapse_newlines_incl. }
  assert (B4 : chain okSS LF x4 = true) by (apply collapse_newlines_chain; auto; congruence).
  assert (C4 : chain okSL LF x4 = true) by (apply collapse_newlines_chain; auto; congruence).
  assert (D4 : nl_ok O x4 = true) by (apply collapse_newlines_nl_ok; lia).
  assert (T5 : Tidy x5).
  { apply (Tidy_incl x4); [|assumption]. intros c. apply trim_lines_incl. }
  assert (N5 : chain okN LF (x5 ++ [LF]) = true).
  { rewrite chain_and. repeat (apply andb_true_iff; split).
    - rewrite chain_snoc_free
        by (intros a; unfold okSS; change (LF =? SP) with false; now rewrite andb_false_r).
      now apply trim_lines_okSS.
    - apply trim_lines_okSL; [assumption|discriminate].
    - rewrite chain_snoc_free
        by (intros a; unfold okLS; change (LF =? SP) with false; now rewrite andb_false_r).
      now apply trim_lines_okLS. }
  assert (D5 : nl_ok O x5 = true) by (now apply (trim_lines_nl_ok x4 LF)).
  repeat split.
  - apply (Tidy_incl x5); [|assumption]. intros c Hc.
    now apply trimStart_incl, trimEnd_incl.
  - unfold trim. apply trimEnd_chain.
    + apply (Tidy_incl x5); [|assumption]. intros c. apply trimStart_incl.
    + now apply trimStart_chain.
  - unfold trim. apply trimEnd_nl_ok. now apply (trimStart_nl_ok x5 O).
  - apply trim_idem.
Qed.

Lemma normalize_idem s :
  cr_free s = true -> normalize (normalize s) = normalize s.
Proof. intros H. now apply normalize_fix, normalize_cleaned. Qed.

End TidyFacts.

(** ** Skew estimation *)
Module SkewFacts.
Import Js JsFacts Skew.
Local Open Scope Q_scope.

Lemma collect_angles_filter atan2_deg rows :
  collect_angles atan2_deg rows = surviving_angles atan2_deg rows.
Proof.
  unfold surviving_angles. induction rows as [|sg r IH]; [reflexivity|].
  cbn [collect_angles map List.filter]. unfold segment_angle, Qltb.
  destruct (Qle_bool 45 (Qabs (atan2_deg (y2 sg - y1 sg)%Z (x2 sg - x1 sg)%Z)));
    cbn [negb]; now rewrite IH.
Qed.

Lemma surviving_bound atan2_deg rows a :
  In a (surviving_angles atan2_deg rows) -> - (45) < a /\ a < 45.
Proof.
  unfold surviving_angles. rewrite List.filter_In. intros [_ H].
  change (Qltb (Qabs a) 45 = true) in H.
  apply Qltb_lt in H. now apply Qabs_Qlt_condition.
Qed.

Lemma count_if_perm p l l' :
  Permutation l l' -> count_if p l = count_if p l'.
Proof.
  unfold count_if. induction 1 as [|x l l' _ IH|x y l|l l' l'' _ IH1 _ IH2];
    cbn [List.filter].
  - reflexivity.
  - destruct (p x); cbn [length]; now rewrite IH.
  - destruct (p x), (p y); reflexivity.
  - now rewrite IH1.
Qed.

Lemma count_if_app p l1 l2 :
  count_if p (l1 ++ l2) = (count_if p l1 + count_if p l2)%nat.
Proof. unfold count_if. now rewrite List.filter_app, length_app. Qed.

Lemma count_if_le p l : (count_if p l <= length l)%nat.
Proof. apply List.filter_length_le. Qed.

Lemma count_if_none p l :
  Forall (fun a => p a = false) l -> count_if p l = O.
Proof.
  unfold count_if. induction 1 as [|a l Ha _ IH]; [reflexivity|].
  cbn [List.filter]. now rewrite Ha.
Qed.

Lemma sorted_around l1 m l2 :
  StronglySorted Qle (l1 ++ m :: l2) ->
  Forall (fun a => a <= m) l1 /\ Forall (Qle m) l2.
Proof.
  induction l1 as [|a l1 IH]; cbn [app]; intros H;
    apply StronglySorted_inv in H; destruct H as [Hs Hf].
  - split; [constructor|assumption].
  - destruct (IH Hs) as [H1 H2]. split; [|assumption].
    constructor; [|assumption].
    rewrite List.Forall_forall in Hf. apply Hf, in_elt.
Qed.

(** The element in the middle of a sorted list is a median of it. *)
Lemma middle_of_sorted l :
  StronglySorted Qle l -> l <> [] ->
  is_median (nth (Nat.div (length l) 2) l 0) l.
Proof.
  intros Hs Hne.
  assert (Hlen : (length l / 2 < length l)%nat).
  { destruct l; [congruence|]. apply Nat.div_lt; cbn [length]; lia. }
  destruct (nth_split l 0 Hlen) as (l1 & l2 & Hl & Hl1).
  set (m := nth (length l / 2) l 0) in *.
  assert (Hn : length l = (length l1 + S (length l2))%nat).
  { rewrite Hl at 1. now rewrite length_app. }
  rewrite Hl in Hs. destruct (sorted_around _ _ _ Hs) as [Hlo Hhi].
  assert (Hmm : Qltb m m = false) by (apply Qltb_ge; lra).
  unfold is_median. rewrite Hl at 1 2 4.
  change (m :: l2) with ([m] ++ l2). rewrite !count_if_app.
  repeat split.
  - apply in_elt.
  - rewrite (count_if_none _ l2).
    + unfold count_if at 2. cbn [List.filter]. rewrite Hmm. cbn [length].
      pose proof (count_if_le (fun a => Qltb a m) l1).
      pose proof (Nat.div_mod_eq (length l) 2). lia.
    + apply (List.Forall_impl (P := Qle m)); [|assumption].
      intros a Ha. now apply Qltb_ge.
  - rewrite (count_if_none _ l1).
    + unfold count_if at 1. cbn [List.filter]. rewrite Hmm. cbn [length].
      pose proof (count_if_le (fun a => Qltb m a) l2).
      pose proof (Nat.div_mod_eq (length l) 2).
      pose proof (Nat.mod_upper_bound (length l) 2). lia.
    + apply (List.Forall_impl (P := fun a => a <= m)); [|assumption].
      intros a Ha. now apply Qltb_ge.
Qed.

Lemma is_median_perm m l l' : Permutation l l' -> is_median m l -> is_median m l'.
Proof.
  intros Hp (Hin & Hlo & Hhi). unfold is_median.
  rewrite <- !(count_if_perm _ l l' Hp), <- (Permutation_length Hp).
  repeat split; [|assumption..]. now apply (Permutation_in _ Hp).
Qed.

(** [angles[Math.floor(angles.length / 2)]] after the numeric sort. *)
Lemma middle_is_median l :
  l <> [] ->
  is_median (nth (Nat.div (length l) 2) (sort (fun a b => a - b) l) 0) l.
Proof.
  intros Hne. apply (is_median_perm _ (sort (fun a b => a - b) l)).
  - apply sort_perm.
  - rewrite <- (sort_length (fun a b => a - b) l).
    apply middle_of_sorted; [apply sort_sorted|].
    intros H. apply Hne. apply Permutation_nil.
    rewrite <- H. apply sort_perm.
Qed.

End SkewFacts.

(** ** Requests, attempts and the selector *)
Module OcrFacts.
Import Js JsFacts Ocr.
Local Open Scope Q_scope.

Section RunFacts.
Context {Blob Mat Err : Type}.
Implicit Type vs : list (@processed Blob Mat).
Implicit Type tess : @engine Blob Err.

Lemma tasks_from_length i vs :
  length (tasks_from i vs) = (length vs * 4)%nat.
Proof.
  revert i. induction vs as [|v r IH]; intros i; [reflexivity|].
  cbn [tasks_from]. rewrite length_app, IH. reflexivity.
Qed.

Lemma tasks_from_lookup i vs q j :
  (j < 4)%nat ->
  tasks_from i vs !! (4 * q + j)%nat =
  match vs !! q with
  | Some v => pair_task (i + q) v <$> psms !! j
  | None => None
  end.
Proof.
  intros Hj. revert i q. induction vs as [|v r IH]; intros i q; [reflexivity|].
  cbn [tasks_from]. destruct q as [|q].
  - rewrite lookup_app_l by (cbn; lia).
    replace (4 * 0 + j)%nat with j by lia. cbn [lookup list_lookup].
    rewrite Nat.add_0_r. unfold pair_task, recognize_request.
    now rewrite list_lookup_fmap.
  - rewrite lookup_app_r by (cbn; lia).
    replace (4 * S q + j - length (map (fun p : string =>
      {| t_request := recognize_request (blob v) p; t_variant := i + 1;
         t_psm := p |}) psms))%nat with (4 * q + j)%nat by (cbn; lia).
    rewrite IH. cbn [lookup list_lookup].
    now replace (S i + q)%nat with (i + S q)%nat by lia.
Qed.

(** Request [k] is the one of the pair (variant [k / 4], mode
    [k mod 4]). *)
Lemma ocrTasks_lookup vs k : ocrTasks vs !! k = pair_at vs k.
Proof.
  unfold ocrTasks, pair_at.
  rewrite (Nat.div_mod_eq k 4) at 1.
  rewrite tasks_from_lookup by (apply Nat.mod_upper_bound; lia).
  destruct (vs !! (k / 4)%nat) as [v|]; [|reflexivity].
  destruct (psms !! (k mod 4)%nat); reflexivity.
Qed.

Lemma ocrTasks_variant vs k t :
  ocrTasks vs !! k = Some t ->
  exists i v, vs !! i = Some v /\ t_variant t = (i + 1)%nat.
Proof.
  rewrite ocrTasks_lookup. unfold pair_at.
  destruct (vs !! (k / 4)%nat) as [v|] eqn:Hv; [|discriminate].
  destruct (psms !! (k mod 4)%nat) as [p|]; [|discriminate].
  intros H. inversion H; subst. now exists (k / 4)%nat, v.
Qed.

Lemma dispatch_lookup tess (ts : list (@task Blob)) k :
  dispatch tess ts !! k = settle tess k <$> ts !! k.
Proof. unfold dispatch. apply list_lookup_imap. Qed.

Lemma dispatch_length tess (ts : list (@task Blob)) :
  length (dispatch tess ts) = length ts.
Proof. unfold dispatch. apply length_imap. Qed.

(** Every collected attempt is the [then] image of its own request. *)
Lemma resolved_attempt tess (ts : list (@task Blob)) ord results k a :
  promise_all (dispatch tess ts) ord = Resolved results ->
  results !! k = Some a ->
  exists t d, ts !! k = Some t /\ a = then_attempt t d.
Proof.
  intros Hr Ha. apply promise_all_resolved in Hr.
  assert (H : dispatch tess ts !! k = Some (Fulfilled a)).
  { rewrite Hr, list_lookup_fmap, Ha. reflexivity. }
  rewrite dispatch_lookup in H.
  destruct (ts !! k) as [t|]; [|discriminate]. cbn in H.
  unfold settle in H. destruct (tess k (t_request t)) as [d|e]; [|discriminate].
  inversion H. now exists t, d.
Qed.

Lemma resolved_length tess (ts : list (@task Blob)) ord results :
  promise_all (dispatch tess ts) ord = Resolved results ->
  length results = length ts.
Proof.
  intros Hr. apply promise_all_resolved in Hr.
  rewrite <- (dispatch_length tess ts), Hr. now rewrite length_map.
Qed.

Lemma best_mat_in_bounds vs (a : attempt) i v :
  vs !! i = Some v -> variant a = Some (i + 1)%nat ->
  best_mat vs a = Some (mat v).
Proof.
  intros Hv Ha. unfold best_mat, best_index. rewrite Ha.
  replace (Z.to_nat (Z.max 0 (Z.of_nat (i + 1) - 1))) with i by lia.
  now rewrite Hv.
Qed.

Lemma promise_all_nil ord :
  promise_all (@nil (settled attempt Err)) ord = Resolved [].
Proof.
  unfold promise_all. cbn [length replicate].
  induction ord as [|i ord IH]; [reflexivity|]. exact IH.
Qed.
End RunFacts.

(** The head of the descending stable sort is the first maximum. *)
Lemma sort_head_first_max (l : list attempt) :
  l <> [] ->
  exists best rest,
    sort (fun a b => avgConf b - avgConf a) l = best :: rest /\
    first_max best l.
Proof.
  induction l as [|x r IH]; [congruence|]. intros _.
  cbn [sort fold_right]. fold (sort (fun a b => avgConf b - avgConf a) r).
  destruct r as [|y r'].
  - exists x, []. split; [reflexivity|]. exists [], [].
    repeat split; intros a [].
  - destruct IH as (b & rest & Hs & pre & post & Hl & Hpre & Hpost); [discriminate|].
    rewrite Hs. cbn [insert].
    destruct (Qltb 0 (avgConf b - avgConf x)) eqn:Hc.
    + apply Qltb_lt in Hc. exists b, (insert (fun a b => avgConf b - avgConf a) x rest).
      split; [reflexivity|]. exists (x :: pre), post. repeat split.
      * now rewrite Hl.
      * intros a [<-|Ha]; [lra|now apply Hpre].
      * assumption.
    + apply Qltb_ge in Hc. exists x, (b :: rest).
      split; [reflexivity|]. exists [], (y :: r'). repeat split.
      * intros a [].
      * intros a Ha. rewrite Hl in Ha. apply in_app_or in Ha.
        destruct Ha as [Ha|[<-|Ha]].
        -- specialize (Hpre a Ha). lra.
        -- lra.
        -- specialize (Hpost a Ha). lra.
Qed.

Lemma select_first_max (l : list attempt) : l <> [] -> first_max (select l) l.
Proof.
  intros H. destruct (sort_head_first_max l H) as (b & rest & Hs & Hf).
  unfold select. now rewrite Hs.
Qed.

Lemma first_max_in best l : first_max best l -> In best l.
Proof. intros (pre & post & -> & _). apply in_elt. Qed.

End OcrFacts.

(** ** Readiness *)
Module PageFacts.
Import Page.

Section PageFacts.
Context {File : Type}.
Implicit Type p : @page File.

End PageFacts.

End PageFacts.

(** ** The definitions on small inputs *)
Module Checks.
Import Text Normalize Js Skew Ocr Page Examples.

Example trail_matches_blanks_then_newline :
  match_here re_trail [32; 9; 10; 97]%N = Some 3.
Proof. reflexivity. Qed.

Example trail_needs_the_newline : match_here re_trail [32; 9; 97]%N = None.
Proof. reflexivity. Qed.

Example nl3_takes_the_whole_run :
  match_here re_nl3 [10; 10; 10; 10; 97]%N = Some 4 /\
  match_here re_nl3 [10; 10; 97]%N = None.
Proof. split; reflexivity. Qed.

Example replace_trail_example :
  replace_all re_trail [LF] [97; 32; 9; 10; 98; 32]%N = [97; 10; 98; 32]%N.
Proof. reflexivity. Qed.

Example split_keeps_empty_lines :
  split LF [97; 10; 10; 98]%N = [[97]; []; [98]]%N /\ split LF [] = [[]].
Proof. split; reflexivity. Qed.

Example trim_strips_cr_and_lf : trim [32; 13; 97; 32; 98; 10]%N = [97; 32; 98]%N.
Proof. reflexivity. Qed.

Example passes_one_by_one :
  collapse_hspace [97; 9; 32; 160; 98; 13; 10]%N = [97; 32; 98; 13; 10]%N /\
  strip_trailing [97; 32; 160; 10; 98; 32]%N = [97; 10; 98; 32]%N /\
  collapse_newlines [10; 10; 10; 10; 97; 10; 10; 98]%N = [10; 10; 97; 10; 10; 98]%N /\
  trim_lines [32; 97; 32; 10; 32; 13; 98; 32]%N = [97; 10; 98]%N.
Proof. repeat split. Qed.

Example zwsp_is_not_whitespace : isSpace ZWSP = false /\ isSpace 0xFEFF%N = true.
Proof. split; reflexivity. Qed.

Example sort_is_stable :
  sort (fun a b : Q * nat => (fst a - fst b)%Q) [(2%Q, 0); (1%Q, 1); (2%Q, 2)]
  = [(1%Q, 1); (2%Q, 0); (2%Q, 2)].
Proof. reflexivity. Qed.

Example join_keeps_task_order :
  promise_all (E := unit) [Fulfilled 10; Fulfilled 20; Fulfilled 30] [2; 0; 1]
  = Resolved [10; 20; 30].
Proof. reflexivity. Qed.

Example join_rejects_with_first_rejection :
  promise_all [Fulfilled 1; Rejected "a"%string; Rejected "b"%string] [2; 1; 0]
  = Failed "b"%string.
Proof. reflexivity. Qed.

Example join_waits_for_all :
  promise_all (E := unit) [Fulfilled 1; Fulfilled 2] [0] = Pending.
Proof. reflexivity. Qed.

Example skew_of_leaning_page :
  computeSkewAngle two_rows coarse_atan2 tt = 1%Q.
Proof. reflexivity. Qed.

Example skew_takes_upper_middle :
  computeSkewAngle
    (fun _ : unit =>
       Some [ {| x1 := 0; y1 := 0; x2 := 100; y2 := 6 |};
              {| x1 := 0; y1 := 0; x2 := 100; y2 := 2 |} ]%Z)
    coarse_atan2 tt = 3%Q.
Proof. reflexivity. Qed.

Example select_breaks_ties_by_position :
  select tied_attempts = attempt_of 91 1 "3".
Proof. reflexivity. Qed.

Example sixteen_requests : length (ocrTasks four_variants) = 16.
Proof. reflexivity. Qed.

Example run_of_steady_engine :
  doExtract (fun m : nat => m) true (Fulfilled four_images) steady
    (rev (seq 0 16)) true
  = Done {| resultArea := [111; 107]%N; confBadge := Some 75%Q |}
         {| text := [111; 107]%N; avgConf := 75; variant := Some 4;
            psm := Some "11"%string |}
         3.
Proof. reflexivity. Qed.

Example buttons_follow_the_flags :
  btnExtract_disabled (loaded (File := unit) false false) = true /\
  btnExtract_disabled ready_page = false /\
  clicked (btnExtract_disabled ready_page) (set_file (Some tt) ready_page) = Some tt.
Proof. repeat split. Qed.

End Checks.

(* ================================================================== *)
(** * Part III: the stated properties                                   *)
(* ================================================================== *)

Import Text Normalize Js Skew Ocr Page Examples.
Import JsFacts TextFacts TidyFacts SkewFacts OcrFacts PageFacts.

(** C1.  When every request of a batch is fulfilled, the join hands the
    attempts over in generation order whatever the order in which the
    requests settled, and the selector returns the first attempt of
    greatest confidence: everything before it is strictly less
    confident, nothing after it is more confident. *)
Theorem selector_picks_first_maximum {Err : Type} (atts : list attempt)
    (ord : list nat) :
  (0 < length atts)%nat ->
  completion_order (length atts) ord = true ->
  promise_all (E := Err) (map Fulfilled atts) ord = Resolved atts /\
  first_max (select atts) atts.
Proof.
  intros Hlen Hord. split.
  - now apply promise_all_fulfilled.
  - apply select_first_max. intros ->. cbn in Hlen. lia.
Qed.

Lemma selector_picks_first_maximum_witness :
  (0 < length tied_attempts)%nat /\
  completion_order (length tied_attempts) [2; 0; 1] = true /\
  promise_all (E := unit) (map Fulfilled tied_attempts) [2; 0; 1]
    = Resolved tied_attempts /\
  first_max (select tied_attempts) tied_attempts.
Proof.
  split; [cbn; lia|]. split; [reflexivity|].
  apply (selector_picks_first_maximum (Err := unit)); [cbn; lia|reflexivity].
Defined.

(** C8.  On an empty list the selector falls back to the object with
    empty text and confidence 0, which is also what the page then
    shows. *)
Theorem select_empty_default (normalize : bool) :
  select [] = {| text := []; avgConf := 0; variant := None; psm := None |} /\
  text (select []) = [] /\ avgConf (select []) = 0%Q /\
  show normalize (select []) = blank.
Proof. destruct normalize; repeat split. Qed.

(** C2, as the script behaves.  Once any request of a batch is rejected
    the join rejects with the reason of a rejected request, nothing is
    collected, ranked or shown, and the run ends in the error handler:
    results are ranked only when every request is fulfilled. *)
Theorem rejection_aborts_run {Blob Mat Err : Type} (toBlob : Mat -> Blob)
    (v0 v1 v2 v3 : option Mat) (tess : @engine Blob Err) (ord : list nat)
    (normalize : bool) (j : nat) (e : Err) :
  let outs := dispatch tess (ocrTasks (createProcessedVariants toBlob v0 v1 v2 v3)) in
  completion_order (length outs) ord = true ->
  outs !! j = Some (Rejected e) ->
  exists e',
    In (Rejected e') outs /\
    promise_all outs ord = Failed e' /\
    doExtract toBlob true (Fulfilled (v0, v1, v2, v3)) tess ord normalize
      = Error (Thrown e') blank.
Proof.
  intros outs Hord Hj.
  destruct (promise_all_rejected outs ord j e Hord Hj) as [e' He'].
  exists e'. split; [|split; [assumption|]].
  - exact (all_from_failed _ _ _ _ He').
  - unfold doExtract. cbn [negb]. fold outs. now rewrite He'.
Qed.

Lemma rejection_aborts_run_witness :
  let outs := dispatch flaky (ocrTasks four_variants) in
  completion_order (length outs) (seq 0 16) = true /\
  outs !! 5 = Some (Rejected "worker terminated"%string) /\
  exists e',
    In (Rejected e') outs /\
    promise_all outs (seq 0 16) = Failed e' /\
    doExtract (fun m : nat => m) true (Fulfilled four_images) flaky (seq 0 16) false
      = Error (Thrown e') blank.
Proof.
  split; [reflexivity|]. split; [reflexivity|].
  apply (rejection_aborts_run (fun m : nat => m) (Some 0) (Some 1) (Some 2) (Some 3)
           flaky (seq 0 16) false 5 "worker terminated"%string);
    reflexivity.
Defined.

(** C2, as stated, fails: with fifteen of sixteen requests fulfilled and
    one rejected, no result is collected and the run reports an error,
    although both engines are ready. *)
Lemma single_rejection_loses_all_results :
  let outs := dispatch flaky (ocrTasks four_variants) in
  length (List.filter is_fulfilled outs) = 15 /\
  promise_all outs (seq 0 16) = Failed "worker terminated"%string /\
  doExtract (fun m : nat => m) true (Fulfilled four_images) flaky (seq 0 16) false
    = Error (Thrown "worker terminated"%string) blank.
Proof. repeat split. Qed.

(** C3.  The estimate lies strictly between -45 and 45 degrees; it is 0
    when detection throws or no angle survives the filter.  Otherwise,
    with the angle of each detected segment being [atan2(dy, dx)] in
    degrees for [dy = y2 - y1] and [dx = x2 - x1], and the angles with
    [|angle| >= 45] discarded, it is a median of the angles that are
    left: the entry at position [n / 2] of their ascending rearrangement
    (the upper middle one for an even count). *)
Theorem skew_angle_bounded_median {Mat : Type}
    (detect : Mat -> option (list segment)) (atan2_deg : Z -> Z -> Q)
    (mat : Mat) :
  let r := computeSkewAngle detect atan2_deg mat in
  ((- (45) < r)%Q /\ (r < 45)%Q) /\
  match detect mat with
  | None => r = 0%Q
  | Some rows =>
      let kept :=
        List.filter (fun a => negb (Qle_bool 45 (Qabs a)))
          (map (fun sg => atan2_deg (y2 sg - y1 sg)%Z (x2 sg - x1 sg)%Z) rows) in
      match kept with
      | [] => r = 0%Q
      | _ :: _ =>
          is_median r kept /\
          exists sorted,
            Permutation sorted kept /\ StronglySorted Qle sorted /\
            nth_error sorted (length kept / 2) = Some r
      end
  end.
Proof.
  cbv zeta. unfold computeSkewAngle.
  destruct (detect mat) as [rows|]; [|split; [split; reflexivity|reflexivity]].
  rewrite collect_angles_filter.
  fold (surviving_angles atan2_deg rows).
  destruct (surviving_angles atan2_deg rows) as [|a l] eqn:Hk;
    [split; [split; reflexivity|reflexivity]|].
  set (kept := a :: l) in *.
  set (sorted := sort (fun a b => (a - b)%Q) kept).
  assert (Hm : is_median (nth (length kept / 2) sorted 0%Q) kept)
    by (apply middle_is_median; discriminate).
  split; [|split; [exact Hm|]].
  - apply (surviving_bound atan2_deg rows). rewrite Hk. apply Hm.
  - exists sorted. split; [apply sort_perm|]. split; [apply sort_sorted|].
    apply nth_error_nth'. unfold sorted. rewrite sort_length.
    apply Nat.div_lt; cbn; lia.
Qed.

(** C4, on the code: when all four recipes fail the run shows the empty
    text and the dash, then throws on [variants[NaN].mat] and ends in
    the error handler. *)
Theorem no_variants_ends_in_error {Blob Mat Err : Type} (toBlob : Mat -> Blob)
    (tess : @engine Blob Err) (ord : list nat) (normalize : bool) :
  doExtract toBlob true (Fulfilled (None, None, None, None)) tess ord normalize
  = Error NoWinningVariant blank.
Proof.
  unfold doExtract. cbn [negb createProcessedVariants pushed map ocrTasks tasks_from].
  change (dispatch tess []) with (@nil (settled attempt Err)).
  rewrite promise_all_nil. destruct normalize; reflexivity.
Qed.

(** C5, as the script behaves.  On a text without carriage return,
    cleaning twice gives what cleaning once gives. *)
Theorem cleanText_idempotent_without_cr (s : list N) :
  cr_free s = true -> cleanText (cleanText s) = cleanText s.
Proof.
  intros H. rewrite !cleanText_normalize. now apply normalize_idem.
Qed.

Lemma cleanText_idempotent_without_cr_witness :
  cr_free spaced_text = true /\
  cleanText (cleanText spaced_text) = cleanText spaced_text.
Proof.
  split; [reflexivity|].
  apply (cleanText_idempotent_without_cr spaced_text). reflexivity.
Defined.

(** C5, as stated, fails: blank lines that end in CR LF come out as three
    newlines, which a second pass collapses to two. *)
Lemma cleanText_not_idempotent_on_crlf :
  cleanText crlf_text = [97; 10; 10; 10; 98]%N /\
  cleanText (cleanText crlf_text) = [97; 10; 10; 98]%N /\
  cleanText (cleanText crlf_text) <> cleanText crlf_text.
Proof. repeat split. discriminate. Qed.


(** C6.  The modes are ["6"; "3"; "4"; "11"]; a run builds four requests
    per variant, request [k] being the one of variant [k / 4] and mode
    [k mod 4], for English, with the whitelist of the alphanumeric
    characters plus [.,:-()/%&$ ] and space, that mode, and
    [load_fast] off. *)
Theorem requests_per_variant_and_mode {Blob Mat : Type}
    (vs : list (@processed Blob Mat)) :
  psms = ["6"; "3"; "4"; "11"]%string /\
  length (ocrTasks vs) = length vs * 4 /\
  (forall k, ocrTasks vs !! k =
     match vs !! (k / 4), psms !! (k mod 4) with
     | Some v, Some p =>
         Some {| t_request := {| image := blob v; lang := "eng";
                                 load_fast := false;
                                 tessedit_pageseg_mode := p;
                                 tessedit_char_whitelist := whitelist |};
                 t_variant := k / 4 + 1; t_psm := p |}
     | _, _ => None
     end) /\
  (forall c, in_string c whitelist = allowed c).
Proof.
  split; [reflexivity|]. split; [apply tasks_from_length|].
  split; [apply ocrTasks_lookup|].
  intros [[] [] [] [] [] [] [] []]; vm_compute; reflexivity.
Qed.




(** C10.  When a run has at least one variant and its join resolves,
    every attempt carries the number [i + 1] of a variant position [i],
    and the look-up of the winning image at
    [max 0 (best.variant - 1)] finds a variant. *)
Theorem winning_variant_in_bounds {Blob Mat Err : Type}
    (vs : list (@processed Blob Mat)) (tess : @engine Blob Err)
    (ord : list nat) (results : list attempt) :
  0 < length vs ->
  promise_all (dispatch tess (ocrTasks vs)) ord = Resolved results ->
  Forall (fun a => exists i, variant a = Some (i + 1) /\ i < length vs) results /\
  exists i v,
    best_index (select results) = Some i /\ vs !! i = Some v /\
    best_mat vs (select results) = Some (mat v).
Proof.
  intros Hvs Hr.
  assert (Hall : forall a, In a results ->
            exists i v, vs !! i = Some v /\ variant a = Some (i + 1)).
  { intros a Ha. apply list_elem_of_In in Ha.
    apply list_elem_of_lookup in Ha. destruct Ha as [k Hk].
    destruct (resolved_attempt tess _ ord results k a Hr Hk) as (t & d & Ht & ->).
    destruct (ocrTasks_variant vs k t Ht) as (i & v & Hv & Hi).
    exists i, v. split; [assumption|]. cbn. now rewrite Hi. }
  split.
  - apply List.Forall_forall. intros a Ha.
    destruct (Hall a Ha) as (i & v & Hv & Hi). exists i.
    split; [assumption|]. now apply lookup_lt_Some in Hv.
  - assert (Hne : results <> []).
    { intros ->. apply resolved_length in Hr.
      unfold ocrTasks in Hr. rewrite tasks_from_length in Hr. cbn in Hr. lia. }
    destruct (Hall (select results)) as (i & v & Hv & Hi).
    { apply first_max_in, select_first_max, Hne. }
    exists i, v. unfold best_index. rewrite Hi.
    replace (Z.to_nat (Z.max 0 (Z.of_nat (i + 1) - 1))) with i by lia.
    repeat split; [assumption|]. exact (best_mat_in_bounds vs _ i v Hv Hi).
Qed.

Lemma winning_variant_in_bounds_witness :
  0 < length four_variants /\
  (exists results,
     promise_all (dispatch steady (ocrTasks four_variants)) (rev (seq 0 16))
       = Resolved results /\
     Forall (fun a => exists i, variant a = Some (i + 1) /\ i < length four_variants)
       results /\
     exists i v,
       best_index (select results) = Some i /\ four_variants !! i = Some v /\
       best_mat four_variants (select results) = Some (mat v)).
Proof.
  split; [cbn; lia|].
  eexists. split; [vm_compute; reflexivity|].
  apply (winning_variant_in_bounds four_variants steady (rev (seq 0 16)));
    [cbn; lia|vm_compute; reflexivity].
Defined.


(* ================================================================== *)
(** * Part IV: further properties of the script                         *)
(* ================================================================== *)

(** ** [cleanText]: what it keeps and what it leaves *)
Module CleanFacts.
Import Text Normalize Shape TextFacts TidyFacts.
Local Open Scope N_scope.

Lemma ink_not_space c : isSpace c = true -> ink c = false.
Proof. unfold ink. now intros ->. Qed.

Lemma ink_not_hspace c : isHSpace c = true -> ink c = false.
Proof.
  unfold isHSpace. rewrite negb_involutive. intros H.
  apply ink_not_space. now destruct (isSpace c).
Qed.

Lemma ink_not_LF c : (c =? LF) = true -> ink c = false.
Proof. intros H. apply N.eqb_eq in H. now subst. Qed.

Lemma visible_strip_zwsp s : visible (strip_zwsp s) = visible s.
Proof.
  unfold visible, strip_zwsp. induction s as [|c r IH]; [reflexivity|].
  cbn [List.filter]. destruct (c =? ZWSP) eqn:Hz; cbn [negb List.filter].
  - unfold ink at 2. rewrite Hz, andb_false_r. exact IH.
  - now rewrite IH.
Qed.

Lemma visible_collapse_hspace b s : visible (collapse_hspace_from b s) = visible s.
Proof.
  unfold visible. revert b. induction s as [|c r IH]; intros b; [reflexivity|].
  cbn [collapse_hspace_from List.filter]. destruct (isHSpace c) eqn:Hc.
  - rewrite (ink_not_hspace c Hc). destruct b; [apply IH|].
    cbn [List.filter]. change (ink SP) with false. apply IH.
  - cbn [List.filter]. now rewrite IH.
Qed.

Lemma visible_strip_trailing s : visible (strip_trailing s) = visible s.
Proof.
  unfold visible, strip_trailing. induction s as [|c r IH]; [reflexivity|].
  cbn [strip_before_newline List.filter].
  destruct (isHSpace c) eqn:Hc; cbn [andb].
  - rewrite (ink_not_hspace c Hc).
    destruct (negb (c =? LF) && run_to_newline isHSpace r); [exact IH|].
    cbn [List.filter]. now rewrite (ink_not_hspace c Hc).
  - cbn [List.filter]. now rewrite IH.
Qed.

Lemma visible_collapse_newlines k s : visible (collapse_newlines_from k s) = visible s.
Proof.
  unfold visible. revert k. induction s as [|c r IH]; intros k; [reflexivity|].
  cbn [collapse_newlines_from List.filter]. destruct (c =? LF) eqn:Hc.
  - rewrite (ink_not_LF c Hc). destruct (k <? 2)%nat; [|apply IH].
    cbn [List.filter]. change (ink LF) with false. apply IH.
  - cbn [List.filter]. now rewrite IH.
Qed.

Lemma visible_trim_lines b s : visible (trim_lines_from b s) = visible s.
Proof.
  unfold visible. revert b. induction s as [|c r IH]; intros b; [reflexivity|].
  cbn [trim_lines_from List.filter]. destruct (c =? LF) eqn:Hc.
  - rewrite (ink_not_LF c Hc). cbn [List.filter]. change (ink LF) with false. apply IH.
  - destruct (isSpace c) eqn:Hs; cbn [andb].
    + rewrite (ink_not_space c Hs).
      destruct (b || blank_to_eol r); [apply IH|].
      cbn [List.filter]. rewrite (ink_not_space c Hs). apply IH.
    + cbn [List.filter]. now rewrite IH.
Qed.

Lemma visible_trimStart s : visible (trimStart s) = visible s.
Proof.
  unfold visible. induction s as [|c r IH]; [reflexivity|].
  cbn [trimStart List.filter]. destruct (isSpace c) eqn:Hs; [|reflexivity].
  now rewrite (ink_not_space c Hs).
Qed.

Lemma visible_trimEnd s : visible (trimEnd s) = visible s.
Proof.
  unfold visible. induction s as [|c r IH]; [reflexivity|].
  cbn [trimEnd List.filter]. rewrite <- IH.
  destruct (trimEnd r) as [|e r'].
  - destruct (isSpace c) eqn:Hs.
    + now rewrite (ink_not_space c Hs).
    + reflexivity.
  - reflexivity.
Qed.

Lemma visible_normalize s : visible (normalize s) = visible s.
Proof.
  unfold normalize, trim, trim_lines, collapse_newlines, collapse_hspace.
  now rewrite visible_trimEnd, visible_trimStart, visible_trim_lines,
    visible_collapse_newlines, visible_strip_trailing, visible_collapse_hspace,
    visible_strip_zwsp.
Qed.

(** *** No pass makes the text longer *)

Lemma collapse_hspace_length b s :
  (length (collapse_hspace_from b s) <= length s)%nat.
Proof.
  revert b. induction s as [|c r IH]; intros b; [reflexivity|].
  pose proof (IH true). pose proof (IH false).
  cbn [collapse_hspace_from]. destruct (isHSpace c); [destruct b|]; cbn [length]; lia.
Qed.

Lemma strip_before_newline_length p s :
  (length (strip_before_newline p s) <= length s)%nat.
Proof.
  induction s as [|c r IH]; [reflexivity|]. cbn [strip_before_newline].
  destruct (p c && negb (c =? LF) && run_to_newline p r); cbn [length]; lia.
Qed.

Lemma collapse_newlines_length k s :
  (length (collapse_newlines_from k s) <= length s)%nat.
Proof.
  revert k. induction s as [|c r IH]; intros k; [reflexivity|].
  pose proof (IH (S k)). pose proof (IH k). pose proof (IH O).
  cbn [collapse_newlines_from]. destruct (c =? LF); [destruct (k <? 2)%nat|];
    cbn [length]; lia.
Qed.

Lemma trim_lines_length b s : (length (trim_lines_from b s) <= length s)%nat.
Proof.
  revert b. induction s as [|c r IH]; intros b; [reflexivity|].
  pose proof (IH true). pose proof (IH b). pose proof (IH false).
  cbn [trim_lines_from].
  destruct (c =? LF); [|destruct (isSpace c && (b || blank_to_eol r))];
    cbn [length]; lia.
Qed.

Lemma trimStart_length s : (length (trimStart s) <= length s)%nat.
Proof.
  induction s as [|c r IH]; [reflexivity|]. cbn [trimStart].
  destruct (isSpace c); cbn [length]; lia.
Qed.

Lemma trimEnd_length s : (length (trimEnd s) <= length s)%nat.
Proof.
  induction s as [|c r IH]; [reflexivity|]. cbn [trimEnd].
  destruct (trimEnd r); [destruct (isSpace c)|]; cbn [length] in *; lia.
Qed.

Lemma strip_zwsp_length s : (length (strip_zwsp s) <= length s)%nat.
Proof. apply List.filter_length_le. Qed.

Lemma normalize_length s : (length (normalize s) <= length s)%nat.
Proof.
  unfold normalize, trim, trim_lines, collapse_newlines, collapse_hspace, strip_trailing.
  etransitivity; [apply trimEnd_length|].
  etransitivity; [apply trimStart_length|].
  etransitivity; [apply trim_lines_length|].
  etransitivity; [apply collapse_newlines_length|].
  etransitivity; [apply strip_before_newline_length|].
  etransitivity; [apply collapse_hspace_length|].
  apply strip_zwsp_length.
Qed.

(** *** Characters of the result *)

Lemma normalize_chars s c :
  In c (normalize s) -> c = SP \/ (In c s /\ (c =? ZWSP) = false /\ isHSpace c = false).
Proof.
  unfold normalize, trim, trim_lines, collapse_newlines, strip_trailing, collapse_hspace.
  intros H. apply trimEnd_incl, trimStart_incl, trim_lines_incl,
    collapse_newlines_incl, strip_before_newline_incl in H.
  destruct (collapse_hspace_chars _ _ _ H) as [->|[Hin Hh]]; [now left|].
  apply strip_zwsp_in in Hin. right. tauto.
Qed.

Lemma trimEnd_snoc_space r c : isSpace c = true -> trimEnd (r ++ [c]) = trimEnd r.
Proof.
  intros Hc. induction r as [|d r IH]; cbn [app trimEnd].
  - now rewrite Hc.
  - now rewrite IH.
Qed.

Lemma trimmed_ends t :
  trim t = t ->
  (forall c r, t = c :: r -> isSpace c = false) /\
  (forall r c, t = r ++ [c] -> isSpace c = false).
Proof.
  intros Ht. split.
  - intros c r ->. destruct (isSpace c) eqn:Hc; [|reflexivity]. exfalso.
    unfold trim in Ht. cbn [trimStart] in Ht. rewrite Hc in Ht.
    pose proof (trimEnd_length (trimStart r)). pose proof (trimStart_length r).
    rewrite Ht in H. cbn [length] in H. lia.
  - intros r c ->. destruct (isSpace c) eqn:Hc; [|reflexivity]. exfalso.
    assert (H : trimEnd (trim (r ++ [c])) = trimEnd (r ++ [c])) by now rewrite Ht.
    unfold trim in H. rewrite trimEnd_idem in H. fold (trim (r ++ [c])) in H.
    rewrite Ht, (trimEnd_snoc_space r c Hc) in H.
    pose proof (trimEnd_length r). rewrite <- H in H0.
    rewrite length_app in H0. cbn [length] in H0. lia.
Qed.

(** *** Neighbours *)

Lemma chain_adjacent ok prev a b s :
  ok a b = false -> chain ok prev s = true -> adjacent a b s = false.
Proof.
  intros Hab. revert prev. induction s as [|x r IH]; intros prev H; [reflexivity|].
  cbn [chain] in H. apply andb_true_iff in H. destruct H as [_ H].
  cbn [adjacent]. destruct r as [|y r']; [reflexivity|].
  rewrite (IH x H), orb_false_r.
  cbn [chain] in H. apply andb_true_iff in H. destruct H as [Hxy _].
  destruct (N.eqb_spec x a) as [->|]; [|reflexivity].
  destruct (N.eqb_spec y b) as [->|]; [|reflexivity]. congruence.
Qed.

Lemma nl_ok_no_run3 k s : nl_ok k s = true -> newline_run3 k s = false.
Proof.
  revert k. induction s as [|c r IH]; intros k H; [reflexivity|].
  cbn [nl_ok] in H. cbn [newline_run3]. destruct (c =? LF).
  - apply andb_true_iff in H. destruct H as [Hk H]. rewrite (IH _ H), orb_false_r.
    apply Nat.ltb_lt in Hk. apply Nat.leb_gt. lia.
  - now apply IH.
Qed.

Lemma Tidy_spaces t c :
  Tidy t -> In c t -> isSpace c = true -> c = SP \/ c = LF.
Proof.
  unfold Tidy. rewrite List.Forall_forall. intros Ht Hin Hs.
  destruct (tidy_view c (Ht c Hin)) as [->| ->|Hn]; [now left|now right|congruence].
Qed.

End CleanFacts.

Import Shape CleanFacts.

(** X1.  [cleanText] only removes or merges whitespace and zero-width
    spaces: the visible characters of the result are those of the input,
    in the same order, and the result is never longer than the input. *)
Theorem cleanText_keeps_visible (s : list N) :
  visible (cleanText s) = visible s /\ length (cleanText s) <= length s.
Proof.
  rewrite cleanText_normalize. split; [apply visible_normalize|apply normalize_length].
Qed.

(** X2.  Whatever the input, the result of [cleanText] holds no
    zero-width space, no horizontal whitespace other than the plain
    space, and neither starts nor ends with whitespace. *)
Theorem cleanText_result_chars (s : list N) :
  ~ In ZWSP (cleanText s) /\
  (forall c, In c (cleanText s) -> isHSpace c = true -> c = SP) /\
  trim (cleanText s) = cleanText s /\
  (forall c r, cleanText s = c :: r -> isSpace c = false) /\
  (forall r c, cleanText s = r ++ [c] -> isSpace c = false).
Proof.
  rewrite cleanText_normalize.
  assert (Ht : trim (normalize s) = normalize s) by apply trim_idem.
  split; [|split; [|split; [exact Ht|apply trimmed_ends, Ht]]].
  - intros H. destruct (normalize_chars s _ H) as [H'|(_ & H' & _)]; discriminate.
  - intros c H Hc. destruct (normalize_chars s _ H) as [H'|(_ & _ & H')];
      [assumption|congruence].
Qed.

(** X3.  The result of [cleanText] is the empty string exactly when the
    input has no visible character (only whitespace and zero-width
    spaces, or nothing). *)
Theorem cleanText_empty_iff (s : list N) :
  cleanText s = [] <-> visible s = [].
Proof.
  rewrite cleanText_normalize. split; intros H.
  - rewrite <- (visible_normalize s), H. reflexivity.
  - destruct (normalize s) as [|c r] eqn:Hn; [reflexivity|]. exfalso.
    assert (Ht : trim (normalize s) = normalize s) by apply trim_idem.
    destruct (trimmed_ends _ Ht) as [Hhd _].
    specialize (Hhd c r Hn).
    assert (Hin : In c (normalize s)) by (rewrite Hn; now left).
    assert (Hink : ink c = true).
    { unfold ink. rewrite Hhd.
      destruct (normalize_chars s c Hin) as [->|(_ & Hz & _)]; [discriminate Hhd|].
      now rewrite Hz. }
    rewrite <- (visible_normalize s), Hn in H.
    unfold visible in H. cbn [List.filter] in H. rewrite Hink in H. discriminate.
Qed.

(** X4.  On a text without carriage return the result of [cleanText] has
    no two spaces in a row, no space next to a newline, no three
    newlines in a row, and no whitespace other than the space and the
    newline. *)
Theorem cleanText_shape_without_cr (s : list N) :
  cr_free s = true ->
  adjacent SP SP (cleanText s) = false /\
  adjacent SP LF (cleanText s) = false /\
  adjacent LF SP (cleanText s) = false /\
  newline_run3 0 (cleanText s) = false /\
  (forall c, In c (cleanText s) -> isSpace c = true -> c = SP \/ c = LF).
Proof.
  intros Hcr. rewrite cleanText_normalize.
  destruct (normalize_cleaned s Hcr) as (Ht & Hch & Hn & _).
  apply chain_snoc_l in Hch.
  repeat split.
  - now apply (chain_adjacent okN LF).
  - now apply (chain_adjacent okN LF).
  - now apply (chain_adjacent okN LF).
  - now apply nl_ok_no_run3.
  - intros c. now apply Tidy_spaces.
Qed.

Lemma cleanText_shape_without_cr_witness :
  cr_free spaced_text = true /\
  adjacent SP SP (cleanText spaced_text) = false /\
  adjacent SP LF (cleanText spaced_text) = false /\
  adjacent LF SP (cleanText spaced_text) = false /\
  newline_run3 0 (cleanText spaced_text) = false /\
  (forall c, In c (cleanText spaced_text) -> isSpace c = true -> c = SP \/ c = LF).
Proof.
  split; [reflexivity|].
  apply (cleanText_shape_without_cr spaced_text). reflexivity.
Defined.

(** X5.  Among the texts without carriage return, [cleanText] leaves
    unchanged exactly the cleaned ones: tidy characters, single spaces
    that touch neither a newline nor an end of the text, at most two
    newlines in a row, nothing to trim. *)
Theorem cleanText_fixed_points (t : list N) :
  cr_free t = true -> (cleanText t = t <-> cleaned t).
Proof.
  intros Hcr. rewrite cleanText_normalize. split; intros H.
  - rewrite <- H. now apply normalize_cleaned.
  - now apply normalize_fix.
Qed.

Lemma cleanText_fixed_points_witness :
  cr_free spaced_clean = true /\
  (cleanText spaced_clean = spaced_clean <-> cleaned spaced_clean).
Proof.
  split; [reflexivity|].
  apply (cleanText_fixed_points spaced_clean). reflexivity.
Defined.


(** ** Skew: order of the rows, and the rotation *)
Module DeskewFacts.
Import Js JsFacts Skew SkewFacts Geometry.
Local Open Scope Q_scope.

Lemma count_if_mono p q l :
  (forall a, p a = true -> q a = true) -> (count_if p l <= count_if q l)%nat.
Proof.
  intros H. unfold count_if. induction l as [|a l IH]; [reflexivity|].
  cbn [List.filter]. destruct (p a) eqn:Hp.
  - rewrite (H a Hp). cbn [length]. lia.
  - destruct (q a); cbn [length]; lia.
Qed.

Lemma count_if_all p l :
  Forall (fun a => p a = true) l -> count_if p l = length l.
Proof.
  unfold count_if. induction 1 as [|a l Ha _ IH]; [reflexivity|].
  cbn [List.filter]. rewrite Ha. cbn [length]. now rewrite IH.
Qed.

(** The entry at position [i] of a sorted list has at most [i] entries
    below it and more than [i] entries not above it. *)
Lemma sorted_nth_counts l i :
  StronglySorted Qle l -> (i < length l)%nat ->
  (count_lt (nth i l 0%Q) l <= i)%nat /\ (i < count_le (nth i l 0%Q) l)%nat.
Proof.
  intros Hs Hi. destruct (nth_split l 0 Hi) as (l1 & l2 & Hl & Hl1).
  set (v := nth i l 0) in *. rewrite Hl in Hs.
  destruct (sorted_around _ _ _ Hs) as [Hlo Hhi].
  assert (Hvv : Qltb v v = false) by (apply Qltb_ge; lra).
  unfold count_lt, count_le. rewrite Hl.
  change (v :: l2) with ([v] ++ l2). rewrite !count_if_app. split.
  - rewrite (count_if_none _ l2).
    + unfold count_if at 2. cbn [List.filter]. rewrite Hvv. cbn [length].
      pose proof (count_if_le (fun a => Qltb a v) l1). lia.
    + apply (List.Forall_impl (P := Qle v)); [|assumption].
      intros a Ha. now apply Qltb_ge.
  - rewrite (count_if_all _ l1).
    + unfold count_if at 1. cbn [List.filter]. rewrite Hvv. cbn [negb length]. lia.
    + apply (List.Forall_impl (P := fun a => a <= v)); [|assumption].
      intros a Ha. apply negb_true_iff. now apply Qltb_ge.
Qed.

(** Those two counts pin the value down. *)
Lemma counts_unique l i v w :
  (count_lt v l <= i)%nat -> (i < count_le v l)%nat ->
  (count_lt w l <= i)%nat -> (i < count_le w l)%nat -> v == w.
Proof.
  intros Hv1 Hv2 Hw1 Hw2.
  destruct (Q_dec v w) as [[Hlt|Hgt]|Heq]; [| |assumption]; exfalso.
  - assert (H : (count_le v l <= count_lt w l)%nat).
    { apply count_if_mono. intros a Ha. apply negb_true_iff, Qltb_ge in Ha.
      apply Qltb_lt. lra. }
    lia.
  - assert (H : (count_le w l <= count_lt v l)%nat).
    { apply count_if_mono. intros a Ha. apply negb_true_iff, Qltb_ge in Ha.
      apply Qltb_lt. lra. }
    lia.
Qed.

Lemma surviving_perm atan2_deg rows rows' :
  Permutation rows rows' ->
  Permutation (surviving_angles atan2_deg rows) (surviving_angles atan2_deg rows').
Proof.
  intros H. rewrite <- !collect_angles_filter.
  induction H as [|x l l' _ IH|x y l|l l' l'' _ IH1 _ IH2]; cbn [collect_angles].
  - constructor.
  - destruct (Qltb _ _); [now constructor|assumption].
  - destruct (Qltb (Qabs (segment_angle atan2_deg y)) 45),
      (Qltb (Qabs (segment_angle atan2_deg x)) 45);
      try reflexivity; apply perm_swap.
  - now transitivity (collect_angles atan2_deg l').
Qed.

(** Middle entries of the sorts of two rearrangements agree. *)
Lemma middle_perm l l' :
  Permutation l l' ->
  nth (Nat.div (length l) 2) (sort (fun a b => a - b) l) 0 ==
  nth (Nat.div (length l') 2) (sort (fun a b => a - b) l') 0.
Proof.
  intros Hp. rewrite <- (Permutation_length Hp).
  destruct (Nat.eq_dec (length l) 0%nat) as [H0|H0].
  { destruct l; [|discriminate]. apply Permutation_nil in Hp. subst. reflexivity. }
  set (i := Nat.div (length l) 2).
  assert (Hi : (i < length l)%nat) by (unfold i; apply Nat.div_lt; lia).
  set (sl := sort (fun a b => a - b) l). set (sl' := sort (fun a b => a - b) l').
  assert (H1 := sorted_nth_counts sl i (sort_sorted l)
                  ltac:(unfold sl; now rewrite sort_length)).
  assert (H2 := sorted_nth_counts sl' i (sort_sorted l')
                  ltac:(unfold sl'; rewrite sort_length, <- (Permutation_length Hp); exact Hi)).
  unfold count_lt, count_le in *.
  assert (P1 : Permutation sl l) by apply sort_perm.
  assert (P2 : Permutation sl' l).
  { transitivity l'; [apply sort_perm|now symmetry]. }
  rewrite !(count_if_perm _ sl l P1) in H1.
  rewrite !(count_if_perm _ sl' l P2) in H2.
  destruct H1, H2. now apply (counts_unique l i).
Qed.

Lemma skew_abs_bound {Mat : Type} (detect : Mat -> option (list segment))
    atan2_deg (mat : Mat) :
  Qabs (computeSkewAngle detect atan2_deg mat) < 45.
Proof.
  unfold computeSkewAngle.
  destruct (detect mat) as [rows|]; [|reflexivity].
  rewrite collect_angles_filter.
  destruct (surviving_angles atan2_deg rows) as [|a l] eqn:Hk; [reflexivity|].
  apply Qabs_Qlt_condition. apply (surviving_bound atan2_deg rows).
  rewrite Hk. apply (middle_is_median (a :: l)). discriminate.
Qed.

End DeskewFacts.

Import Geometry DeskewFacts.

(** X6.  The skew estimate does not depend on the order in which the
    line detector lists its segments: two detections that return the same
    rows in different orders give equal angles. *)
Theorem skew_independent_of_row_order {Mat : Type}
    (detect : Mat -> option (list segment)) (atan2_deg : Z -> Z -> Q)
    (mat mat' : Mat) (rows rows' : list segment) :
  detect mat = Some rows -> detect mat' = Some rows' ->
  Permutation rows rows' ->
  (computeSkewAngle detect atan2_deg mat == computeSkewAngle detect atan2_deg mat')%Q.
Proof.
  intros H H' Hp. unfold computeSkewAngle. rewrite H, H', !collect_angles_filter.
  pose proof (surviving_perm atan2_deg rows rows' Hp) as Hs.
  destruct (surviving_angles atan2_deg rows) as [|a l] eqn:Hk;
    destruct (surviving_angles atan2_deg rows') as [|a' l'] eqn:Hk'.
  - reflexivity.
  - apply Permutation_nil in Hs. discriminate.
  - symmetry in Hs. apply Permutation_nil in Hs. discriminate.
  - now apply middle_perm.
Qed.

Lemma skew_independent_of_row_order_witness :
  let r1 := {| x1 := 0; y1 := 0; x2 := 100; y2 := 6 |}%Z in
  let r2 := {| x1 := 0; y1 := 0; x2 := 100; y2 := 2 |}%Z in
  let detect := fun b : bool => if b then Some [r1; r2] else Some [r2; r1] in
  (computeSkewAngle detect coarse_atan2 true
   == computeSkewAngle detect coarse_atan2 false)%Q.
Proof.
  intros r1 r2 detect.
  apply (skew_independent_of_row_order detect coarse_atan2 true false
           [r1; r2] [r2; r1]); [reflexivity|reflexivity|apply perm_swap].
Defined.

(** X7.  The image is rotated only when deskewing is on, and then by the
    opposite of the skew estimate, whose magnitude is above the double
    0.35 and below 45 degrees; when the line detection throws there is
    no rotation. *)
Theorem deskew_rotation_bounds {Mat : Type}
    (detect : Mat -> option (list segment)) (atan2_deg : Z -> Z -> Q)
    (doDeskew : bool) (gray : Mat) :
  match deskew_rotation detect atan2_deg doDeskew gray with
  | Some a =>
      doDeskew = true /\ a = (- computeSkewAngle detect atan2_deg gray)%Q /\
      (skew_threshold < Qabs a)%Q /\ (Qabs a < 45)%Q
  | None => True
  end /\
  match detect gray with
  | None => deskew_rotation detect atan2_deg doDeskew gray = None
  | Some _ => True
  end.
Proof.
  unfold deskew_rotation. split.
  - destruct doDeskew; [|exact I].
    destruct (Qltb skew_threshold (Qabs (computeSkewAngle detect atan2_deg gray)))
      eqn:Hc; [|exact I].
    apply Qltb_lt in Hc. rewrite Qabs_opp. repeat split; [assumption|].
    apply skew_abs_bound.
  - destruct (detect gray) eqn:Hd; [exact I|].
    destruct doDeskew; [|reflexivity].
    unfold computeSkewAngle. rewrite Hd. reflexivity.
Qed.

(** ** The run as a whole *)
Module RunFacts.
Import Js JsFacts Ocr OcrFacts.
Local Open Scope Q_scope.

Section RunFacts.
Context {Blob Mat Err : Type}.
Implicit Type vs : list (@processed Blob Mat).
Implicit Type tess : @engine Blob Err.

(** A collected attempt, its request and what the engine answered. *)
Lemma resolved_attempt_engine tess (ts : list (@task Blob)) ord results k a :
  promise_all (dispatch tess ts) ord = Resolved results ->
  results !! k = Some a ->
  exists t d, ts !! k = Some t /\ tess k (t_request t) = Fulfilled d /\
              a = then_attempt t d.
Proof.
  intros Hr Ha. apply promise_all_resolved in Hr.
  assert (H : dispatch tess ts !! k = Some (Fulfilled a)).
  { rewrite Hr, list_lookup_fmap, Ha. reflexivity. }
  rewrite dispatch_lookup in H.
  destruct (ts !! k) as [t|]; [|discriminate]. cbn in H.
  unfold settle in H. destruct (tess k (t_request t)) as [d|e] eqn:Hd; [|discriminate].
  inversion H. now exists t, d.
Qed.

Lemma ocrTasks_pair vs k t :
  ocrTasks vs !! k = Some t ->
  exists v, vs !! (k / 4)%nat = Some v /\ image (t_request t) = blob v /\
            t_variant t = (k / 4 + 1)%nat /\
            tessedit_pageseg_mode (t_request t) = t_psm t.
Proof.
  rewrite ocrTasks_lookup. unfold pair_at.
  destruct (vs !! (k / 4)%nat) as [v|]; [|discriminate].
  destruct (psms !! (k mod 4)%nat) as [p|]; [|discriminate].
  intros H. inversion H; subst. exists v. repeat split.
Qed.

Lemma resolved_nonempty vs tess ord results :
  (0 < length vs)%nat ->
  promise_all (dispatch tess (ocrTasks vs)) ord = Resolved results ->
  results <> [].
Proof.
  intros Hvs Hr ->. apply resolved_length in Hr.
  unfold ocrTasks in Hr. rewrite tasks_from_length in Hr. cbn in Hr. lia.
Qed.

(** The selected attempt of a resolved join, the request it answers and
    the variant it names. *)
Lemma resolved_winner vs tess ord results :
  (0 < length vs)%nat ->
  promise_all (dispatch tess (ocrTasks vs)) ord = Resolved results ->
  exists k t d v,
    ocrTasks vs !! k = Some t /\ tess k (t_request t) = Fulfilled d /\
    select results = then_attempt t d /\
    vs !! (k / 4)%nat = Some v /\ image (t_request t) = blob v /\
    variant (select results) = Some (k / 4 + 1)%nat /\
    tessedit_pageseg_mode (t_request t) = t_psm t /\
    best_mat vs (select results) = Some (mat v).
Proof.
  intros Hvs Hr.
  pose proof (resolved_nonempty vs tess ord results Hvs Hr) as Hne.
  pose proof (first_max_in _ _ (select_first_max results Hne)) as Hin.
  apply list_elem_of_In in Hin. apply list_elem_of_lookup in Hin.
  destruct Hin as [k Hk].
  destruct (resolved_attempt_engine tess _ ord results k _ Hr Hk)
    as (t & d & Ht & Hd & Hsel).
  destruct (ocrTasks_pair vs k t Ht) as (v & Hv & Him & Hvar & Hp).
  exists k, t, d, v. repeat split; try assumption.
  - rewrite Hsel. cbn. now rewrite Hvar.
  - apply (best_mat_in_bounds vs _ (k / 4)%nat v Hv).
    rewrite Hsel. cbn. now rewrite Hvar.
Qed.

Lemma createProcessedVariants_blob (toBlob : Mat -> Blob) v0 v1 v2 v3 v :
  In v (createProcessedVariants toBlob v0 v1 v2 v3) -> blob v = toBlob (mat v).
Proof.
  unfold createProcessedVariants. rewrite in_map_iff.
  intros (m & <- & _). reflexivity.
Qed.

Lemma createProcessedVariants_mats (toBlob : Mat -> Blob) v0 v1 v2 v3 :
  map mat (createProcessedVariants toBlob v0 v1 v2 v3) = pushed [v0; v1; v2; v3].
Proof.
  unfold createProcessedVariants. rewrite map_map. apply map_id.
Qed.

Lemma pushed_length (rs : list (option Mat)) : (length (pushed rs) <= length rs)%nat.
Proof.
  induction rs as [|[m|] r IH]; cbn [pushed length]; lia.
Qed.

Lemma filled_hole (slots : list (option attempt)) i :
  slots !! i = Some None -> filled slots = None.
Proof.
  revert i. induction slots as [|[a|] r IH]; intros i H.
  - discriminate.
  - destruct i as [|i]; [discriminate|]. cbn [filled]. now rewrite (IH i H).
  - reflexivity.
Qed.

(** While a task has not settled and no settled task was rejected, the
    join is pending. *)
Lemma all_from_pending (outs : list (settled attempt Err)) ord slots i :
  slots !! i = Some None -> ~ In i ord ->
  (forall k, In k ord -> forall e, outs !! k <> Some (Rejected e)) ->
  all_from outs ord slots = Pending.
Proof.
  revert slots. induction ord as [|j ord IH]; intros slots Hi Hn Hrej; cbn [all_from].
  - now rewrite (filled_hole slots i Hi).
  - assert (Hij : j <> i) by (intros ->; apply Hn; now left).
    assert (Hn' : ~ In i ord) by (intros H; apply Hn; now right).
    assert (Hrej' : forall k, In k ord -> forall e, outs !! k <> Some (Rejected e))
      by (intros k Hk; apply Hrej; now right).
    destruct (outs !! j) as [[a|e]|] eqn:Hj.
    + apply IH; [|assumption..]. now rewrite list_lookup_insert_ne.
    + exfalso. now apply (Hrej j (or_introl eq_refl) e).
    + now apply IH.
Qed.

Lemma promise_all_pending (outs : list (settled attempt Err)) ord i :
  (i < length outs)%nat -> ~ In i ord ->
  (forall k, In k ord -> forall e, outs !! k <> Some (Rejected e)) ->
  promise_all outs ord = Pending.
Proof.
  intros Hi. apply all_from_pending. now apply lookup_replicate.
Qed.
End RunFacts.

(** The first attempt wins when none is more confident. *)
Lemma first_max_head h l best :
  (forall a, In a l -> avgConf a <= avgConf h) ->
  first_max best (h :: l) -> best = h.
Proof.
  intros Hmax (pre & post & Hl & Hpre & _).
  destruct pre as [|x pre]; cbn [app] in Hl.
  - now inversion Hl.
  - exfalso. inversion Hl; subst x.
    assert (Hb : In best l) by (rewrite H1; apply in_elt).
    specialize (Hmax best Hb). specialize (Hpre h (or_introl eq_refl)). lra.
Qed.

End RunFacts.

Import RunFacts.

(** X9.  Whenever the join resolves on at least one variant, the text
    selected is what the engine answered to one request, and the image
    shown as the winner is the one whose PNG that request carried, read
    in the mode the attempt reports. *)
Theorem winner_text_comes_from_winner_image {Blob Mat Err : Type}
    (toBlob : Mat -> Blob) (v0 v1 v2 v3 : option Mat) (tess : @engine Blob Err)
    (ord : list nat) (results : list attempt) :
  let vs := createProcessedVariants toBlob v0 v1 v2 v3 in
  0 < length vs ->
  promise_all (dispatch tess (ocrTasks vs)) ord = Resolved results ->
  exists k t d m,
    ocrTasks vs !! k = Some t /\
    tess k (t_request t) = Fulfilled d /\
    text (select results) = default [] (data_text d) /\
    psm (select results) = Some (tessedit_pageseg_mode (t_request t)) /\
    best_mat vs (select results) = Some m /\
    image (t_request t) = toBlob m.
Proof.
  intros vs Hvs Hr.
  destruct (resolved_winner vs tess ord results Hvs Hr)
    as (k & t & d & v & Ht & Hd & Hsel & Hv & Him & _ & Hp & Hbest).
  exists k, t, d, (mat v). repeat split; try assumption.
  - now rewrite Hsel.
  - rewrite Hsel. cbn. now rewrite Hp.
  - rewrite Him. apply (createProcessedVariants_blob toBlob v0 v1 v2 v3).
    apply list_elem_of_In. apply list_elem_of_lookup. now exists (k / 4).
Qed.

Lemma winner_text_comes_from_winner_image_witness :
  let vs := createProcessedVariants (fun m : nat => m)
              (Some 0) (Some 1) (Some 2) (Some 3) in
  0 < length vs /\
  exists results,
    promise_all (dispatch steady (ocrTasks vs)) (seq 0 16) = Resolved results /\
    exists k t d m,
      ocrTasks vs !! k = Some t /\
      steady k (t_request t) = Fulfilled d /\
      text (select results) = default [] (data_text d) /\
      psm (select results) = Some (tessedit_pageseg_mode (t_request t)) /\
      best_mat vs (select results) = Some m /\
      image (t_request t) = (fun m : nat => m) m.
Proof.
  intros vs. split; [cbn; lia|].
  eexists. split; [vm_compute; reflexivity|].
  apply (winner_text_comes_from_winner_image (fun m : nat => m)
           (Some 0) (Some 1) (Some 2) (Some 3) steady (seq 0 16));
    [cbn; lia|vm_compute; reflexivity].
Defined.

(** X10.  When several requests are rejected, the error the run reports
    is the reason of the one that settles first: the attempts fulfilled
    before it, and everything that settles after it, are dropped. *)
Theorem run_reports_first_rejection {Blob Mat Err : Type} (toBlob : Mat -> Blob)
    (v0 v1 v2 v3 : option Mat) (tess : @engine Blob Err)
    (pre post : list nat) (j : nat) (e : Err) (normalize : bool) :
  let outs := dispatch tess (ocrTasks (createProcessedVariants toBlob v0 v1 v2 v3)) in
  (forall i, In i pre -> forall e', outs !! i <> Some (Rejected e')) ->
  outs !! j = Some (Rejected e) ->
  doExtract toBlob true (Fulfilled (v0, v1, v2, v3)) tess (pre ++ j :: post) normalize
  = Error (Thrown e) blank.
Proof.
  intros outs Hpre Hj. unfold doExtract. cbn [negb]. fold outs.
  unfold promise_all. now rewrite (all_from_first_rejection outs pre j post _ e Hpre Hj).
Qed.

Lemma run_reports_first_rejection_witness :
  let outs := dispatch flaky (ocrTasks four_variants) in
  (forall i, In i [7; 6] -> forall e', outs !! i <> Some (Rejected e')) /\
  outs !! 5 = Some (Rejected "worker terminated"%string) /\
  doExtract (fun m : nat => m) true (Fulfilled four_images) flaky
    ([7; 6] ++ 5 :: [0; 1]) false
  = Error (Thrown "worker terminated"%string) blank.
Proof.
  intros outs.
  assert (H : forall i, In i [7; 6] -> forall e', outs !! i <> Some (Rejected e')).
  { intros i [<-|[<-|[]]] e'; vm_compute; discriminate. }
  split; [exact H|]. split; [reflexivity|].
  exact (run_reports_first_rejection (fun m : nat => m) (Some 0) (Some 1) (Some 2)
           (Some 3) flaky [7; 6] [0; 1] 5 "worker terminated"%string false H eq_refl).
Defined.

(** X11.  The join is a barrier: as long as one request has not settled
    and none of those that settled was rejected, the run is still
    waiting and has shown nothing, however confident the attempts
    already in. *)
Theorem run_waits_for_every_request {Blob Mat Err : Type} (toBlob : Mat -> Blob)
    (v0 v1 v2 v3 : option Mat) (tess : @engine Blob Err) (ord : list nat)
    (i : nat) (normalize : bool) :
  let outs := dispatch tess (ocrTasks (createProcessedVariants toBlob v0 v1 v2 v3)) in
  i < length outs -> ~ In i ord ->
  (forall k, In k ord -> forall e, outs !! k <> Some (Rejected e)) ->
  doExtract toBlob true (Fulfilled (v0, v1, v2, v3)) tess ord normalize = Waiting.
Proof.
  intros outs Hi Hn Hrej. unfold doExtract. cbn [negb]. fold outs.
  now rewrite (promise_all_pending outs ord i Hi Hn Hrej).
Qed.

Lemma run_waits_for_every_request_witness :
  let outs := dispatch steady (ocrTasks four_variants) in
  15 < length outs /\ ~ In 15 (seq 0 15) /\
  (forall k, In k (seq 0 15) -> forall e, outs !! k <> Some (Rejected e)) /\
  doExtract (fun m : nat => m) true (Fulfilled four_images) steady (seq 0 15) false
  = Waiting.
Proof.
  intros outs.
  assert (H1 : 15 < length outs) by (vm_compute; lia).
  assert (H2 : ~ In 15 (seq 0 15)) by (rewrite in_seq; lia).
  assert (H3 : forall k, In k (seq 0 15) -> forall e, outs !! k <> Some (Rejected e)).
  { intros k Hk e. unfold outs. rewrite dispatch_lookup.
    destruct (ocrTasks four_variants !! k); cbn; discriminate. }
  split; [exact H1|]. split; [exact H2|]. split; [exact H3|].
  exact (run_waits_for_every_request (fun m : nat => m) (Some 0) (Some 1) (Some 2)
           (Some 3) steady (seq 0 15) 15 false H1 H2 H3).
Defined.

(** X12.  A ready run whose preparation did not throw ends with the
    [TypeError] on the winning image exactly when none of the four
    recipes produced a variant: with at least one variant the look-up
    never fails. *)
Theorem no_winner_iff_no_variant {Blob Mat Err : Type} (toBlob : Mat -> Blob)
    (v0 v1 v2 v3 : option Mat) (tess : @engine Blob Err) (ord : list nat)
    (normalize : bool) :
  (exists shown,
     doExtract toBlob true (Fulfilled (v0, v1, v2, v3)) tess ord normalize
     = Error NoWinningVariant shown) <->
  v0 = None /\ v1 = None /\ v2 = None /\ v3 = None.
Proof.
  split.
  - intros [shown H].
    destruct (pushed [v0; v1; v2; v3]) as [|m r] eqn:Hp.
    { destruct v0, v1, v2, v3; try discriminate Hp. repeat split. }
    exfalso. unfold doExtract in H. cbn [negb] in H.
    set (vs := createProcessedVariants toBlob v0 v1 v2 v3) in *.
    assert (Hvs : 0 < length vs).
    { unfold vs, createProcessedVariants. rewrite Hp. cbn. lia. }
    destruct (promise_all (dispatch tess (ocrTasks vs)) ord) as [results| |] eqn:Hr;
      try discriminate H.
    destruct (resolved_winner vs tess ord results Hvs Hr)
      as (k & t & d & v & _ & _ & _ & _ & _ & _ & _ & Hbest).
    rewrite Hbest in H. discriminate.
  - intros (-> & -> & -> & ->). exists blank.
    unfold doExtract. cbn [negb createProcessedVariants pushed map ocrTasks tasks_from].
    change (dispatch tess []) with (@nil (settled attempt Err)).
    rewrite promise_all_nil. destruct normalize; reflexivity.
Qed.

(** X13.  A run has one variant per recipe that did not throw, in recipe
    order and each with the PNG of its own image, so at most four, and
    it sends four requests per variant, so at most sixteen. *)
Theorem variants_and_requests_bounded {Blob Mat : Type} (toBlob : Mat -> Blob)
    (v0 v1 v2 v3 : option Mat) :
  let vs := createProcessedVariants toBlob v0 v1 v2 v3 in
  map mat vs = pushed [v0; v1; v2; v3] /\
  map blob vs = map toBlob (pushed [v0; v1; v2; v3]) /\
  length vs <= 4 /\
  length (ocrTasks vs) = 4 * length vs /\
  length (ocrTasks vs) <= 16.
Proof.
  intros vs.
  assert (Hl : length vs <= 4).
  { unfold vs, createProcessedVariants. rewrite length_map.
    apply (pushed_length [v0; v1; v2; v3]). }
  assert (Ht : length (ocrTasks vs) = 4 * length vs).
  { unfold ocrTasks. rewrite tasks_from_length. lia. }
  split; [apply createProcessedVariants_mats|].
  split; [unfold vs, createProcessedVariants; now rewrite map_map|].
  split; [exact Hl|]. split; [exact Ht|]. lia.
Qed.

(** X14.  When no attempt is more confident than the first one, the
    first one is selected; in particular, when the engine reports no
    confidence at all, the first request's text is shown with the
    dash. *)
Theorem first_attempt_wins_ties (h : attempt) (l : list attempt) (normalize : bool) :
  (forall a, In a l -> (avgConf a <= avgConf h)%Q) ->
  select (h :: l) = h /\
  ((avgConf h == 0)%Q -> confBadge (show normalize (select (h :: l))) = None).
Proof.
  intros Hmax.
  assert (Hs : select (h :: l) = h).
  { apply (first_max_head h l); [assumption|].
    apply select_first_max. discriminate. }
  split; [exact Hs|]. intros H0. rewrite Hs. cbn.
  apply Qeq_bool_iff in H0. now rewrite H0.
Qed.

Lemma first_attempt_wins_ties_witness :
  let h := attempt_of 0 1 "6" in
  let l := [attempt_of 0 1 "3"; attempt_of 0 2 "6"] in
  (forall a, In a l -> (avgConf a <= avgConf h)%Q) /\
  select (h :: l) = h /\
  ((avgConf h == 0)%Q -> confBadge (show true (select (h :: l))) = None).
Proof.
  intros h l.
  assert (H : forall a, In a l -> (avgConf a <= avgConf h)%Q).
  { intros a [<-|[<-|[]]]; cbn; lra. }
  split; [exact H|]. exact (first_attempt_wins_ties h l true H).
Defined.

(** ** The buttons over a sequence of events *)
Module ClickFacts.
Import Page Clicks.

Section ClickFacts.
Context {File : Type}.
Implicit Type p : @page File.

Lemma run_events_inv es p :
  cvReady (run_events p es) = cvReady p || opencv_reported es /\
  tessReady (run_events p es) = tessReady p /\
  lastFile (run_events p es) = latest_file es (lastFile p) /\
  btnExtract_disabled (run_events p es) =
    (if opencv_reported es then negb (tessReady p) else btnExtract_disabled p) /\
  btnReprocess_disabled (run_events p es) =
    (if opencv_reported es then negb (tessReady p) else btnReprocess_disabled p).
Proof.
  unfold run_events. revert p.
  induction es as [|e r IH]; intros p.
  - cbn. now rewrite orb_false_r.
  - cbn [fold_left opencv_reported existsb latest_file].
    fold (opencv_reported r).
    destruct (IH (step p e)) as (H1 & H2 & H3 & H4 & H5).
    rewrite H1, H2, H3, H4, H5. clear IH H1 H2 H3 H4 H5.
    destruct e; cbn; repeat split;
      try (destruct (cvReady p); reflexivity);
      destruct (opencv_reported r); reflexivity.
Qed.
End ClickFacts.
End ClickFacts.

Import Clicks ClickFacts.

(** X15.  After the script has run, both buttons are disabled until the
    OpenCV callback has fired and enabled ever after, whatever other
    events come before, between or after; [cvReady] is set by that
    callback alone and never reset. *)
Theorem buttons_enabled_once_opencv_reports {File : Type} (d1 d2 : bool)
    (es : list (@event File)) :
  let p := run_events (loaded d1 d2) es in
  cvReady p = opencv_reported es /\
  tessReady p = true /\
  btnExtract_disabled p = negb (opencv_reported es) /\
  btnReprocess_disabled p = negb (opencv_reported es).
Proof.
  destruct (run_events_inv es (loaded (File := File) d1 d2))
    as (H1 & H2 & _ & H4 & H5).
  cbv zeta. rewrite H1, H2, H4, H5.
  destruct (opencv_reported es); repeat split.
Qed.

(** X16.  A click on Extract or on Reprocess does nothing before the
    OpenCV callback has fired; after it, the click runs [doExtract] on
    the file of the latest choice, and only asks for an image when no
    file was chosen yet, the latest file dialog was cancelled, or Clear
    was clicked since. *)
Theorem click_runs_latest_file {File : Type} (d1 d2 : bool)
    (es : list (@event File)) :
  let p := run_events (loaded d1 d2) es in
  let effect :=
    if opencv_reported es then
      match latest_file es None with
      | Some f => Extract f
      | None => AskForImage
      end
    else Ignored in
  button_click (btnExtract_disabled p) p = effect /\
  button_click (btnReprocess_disabled p) p = effect.
Proof.
  destruct (run_events_inv es (loaded (File := File) d1 d2))
    as (_ & _ & H3 & H4 & H5).
  cbv zeta. unfold button_click. rewrite H3, H4, H5.
  destruct (opencv_reported es); split; reflexivity.
Qed.

(** ** The native buffers of a run *)
Module BufferFacts.
Import Js Skew Geometry Ocr Buffers.
Local Open Scope Q_scope.

Lemma buf_eqb_eq a b : buf_eqb a b = true <-> a = b.
Proof.
  unfold buf_eqb. rewrite Nat.eqb_eq. split; [|now intros ->].
  destruct a, b; cbn [buf_tag]; intros H; try reflexivity; discriminate H.
Qed.

Lemma mem_In b l : mem b l = true <-> In b l.
Proof.
  induction l as [|x r IH]; cbn [mem In]; [split; [discriminate|tauto]|].
  rewrite orb_true_iff, IH, buf_eqb_eq. split; intros [H|H]; auto.
Qed.

Lemma mem_app b l1 l2 : mem b (l1 ++ l2) = mem b l1 || mem b l2.
Proof.
  induction l1 as [|x r IH]; cbn [mem app]; [reflexivity|].
  now rewrite IH, orb_assoc.
Qed.

Lemma remove_one_app_r b l1 l2 :
  mem b l1 = false -> remove_one b (l1 ++ l2) = l1 ++ remove_one b l2.
Proof.
  induction l1 as [|x r IH]; cbn [mem app remove_one]; [reflexivity|].
  intros H. apply orb_false_iff in H as [-> H]. now rewrite IH.
Qed.

Section Steps.
Context {E : Type}.
Variable throws : site -> bool.

Local Abbreviation with_live l st :=
  {| live := l; double_delete := double_delete st;
     use_after_delete := use_after_delete st; variants := variants st |}.

Lemma bind_ret {A B : Type} (a : A) (f : A -> cmd (E := E) B) st :
  bind (ret a) f st = f a st.
Proof. reflexivity. Qed.

Lemma bind_bind {A B C : Type} (m : cmd (E := E) A) (g : A -> cmd B)
    (f : B -> cmd C) st :
  bind (bind m g) f st = bind m (fun x => bind (g x) f) st.
Proof. unfold bind. destruct (m st) as [st' [a|e]]; reflexivity. Qed.

Lemma bind_new {B : Type} b (f : unit -> cmd (E := E) B) st :
  bind (new b) f st = f tt (with_live (b :: live st) st).
Proof. reflexivity. Qed.

Lemma bind_push {B : Type} b (f : unit -> cmd (E := E) B) st :
  bind (push b) f st =
  f tt {| live := live st; double_delete := double_delete st;
          use_after_delete := use_after_delete st;
          variants := variants st ++ [b] |}.
Proof. reflexivity. Qed.

Lemma touch_all args st :
  forallb (fun a => mem a (live st)) args = true -> fold_left touch args st = st.
Proof.
  induction args as [|a r IH]; cbn [forallb fold_left]; [reflexivity|].
  intros H. apply andb_true_iff in H as [Ha Hr].
  unfold touch at 2. rewrite Ha. now apply IH.
Qed.

Lemma call_run s args st :
  forallb (fun a => mem a (live st)) args = true ->
  call (E := E) throws s args st =
  (st, if throws s then inr (Thrown (inl s)) else inl tt).
Proof. intros H. unfold call. now rewrite touch_all. Qed.

Lemma bind_call {B : Type} s args (f : unit -> cmd (E := E) B) st :
  forallb (fun a => mem a (live st)) args = true ->
  bind (call throws s args) f st =
  if throws s then (st, inr (Thrown (inl s))) else f tt st.
Proof.
  intros H. unfold bind. rewrite call_run by exact H.
  destruct (throws s); reflexivity.
Qed.

Lemma bind_use {B : Type} args (f : unit -> cmd (E := E) B) st :
  forallb (fun a => mem a (live st)) args = true ->
  bind (use args) f st = f tt st.
Proof. intros H. unfold bind, use. now rewrite touch_all. Qed.

Lemma delete_run b st :
  mem b (live st) = true ->
  delete (E := E) b st = (with_live (remove_one b (live st)) st, inl tt).
Proof. intros H. unfold delete. now rewrite H. Qed.

Lemma bind_delete {B : Type} b (f : unit -> cmd (E := E) B) st :
  mem b (live st) = true ->
  bind (delete b) f st = f tt (with_live (remove_one b (live st)) st).
Proof. intros H. unfold bind. now rewrite delete_run. Qed.

Ltac side :=
  cbn [forallb mem remove_one buf_eqb buf_tag Nat.eqb orb andb
       live double_delete use_after_delete variants];
  repeat match goal with
         | H : mem _ _ = true |- _ => rewrite H
         end;
  rewrite ?orb_true_r; reflexivity.

Ltac norm :=
  cbn [live double_delete use_after_delete variants remove_one buf_eqb
       buf_tag Nat.eqb fst snd].

Ltac step :=
  first [ rewrite bind_new
        | rewrite bind_push
        | rewrite bind_ret
        | rewrite bind_call by side
        | rewrite bind_use by side
        | rewrite bind_delete by side
        | rewrite delete_run by side ];
  norm.

Ltac split_throw :=
  match goal with
  | |- context [if throws ?s then (_, inr _) else _] => destruct (throws s)
  end.

Ltac run := repeat first [ step | split_throw ].

Ltac finish :=
  cbn [fst snd app pushed orb andb negb]; rewrite ?app_nil_r; reflexivity.

Lemma recipe0_run gray st :
  gray = b_gray \/ gray = b_rotated -> mem gray (live st) = true ->
  try_ (E := E) (recipe0 throws gray) st =
  ({| live := left0 throws ++ live st; double_delete := double_delete st;
      use_after_delete := use_after_delete st;
      variants := variants st ++ pushed [out0 throws] |}, inl tt).
Proof.
  intros [-> | ->] Hm; unfold try_, recipe0, left0, out0; run; finish.
Qed.

Lemma recipe1_run gray st :
  gray = b_gray \/ gray = b_rotated -> mem gray (live st) = true ->
  try_ (E := E) (recipe1 throws gray) st =
  ({| live := left1 throws ++ live st; double_delete := double_delete st;
      use_after_delete := use_after_delete st;
      variants := variants st ++ pushed [out1 throws] |}, inl tt).
Proof.
  intros [-> | ->] Hm; unfold try_, recipe1, left1, out1; run; finish.
Qed.

Lemma recipe2_run gray st :
  gray = b_gray \/ gray = b_rotated -> mem gray (live st) = true ->
  try_ (E := E) (recipe2 throws gray) st =
  ({| live := left2 throws ++ live st; double_delete := double_delete st;
      use_after_delete := use_after_delete st;
      variants := variants st ++ pushed [out2 throws] |}, inl tt).
Proof.
  intros [-> | ->] Hm; unfold try_, recipe2, left2, out2; run; finish.
Qed.

Lemma recipe3_run gray st :
  gray = b_gray \/ gray = b_rotated -> mem gray (live st) = true ->
  try_ (E := E) (recipe3 throws gray) st =
  ({| live := left3 throws ++ live st; double_delete := double_delete st;
      use_after_delete := use_after_delete st;
      variants := variants st ++ pushed [out3 throws] |}, inl tt).
Proof.
  intros [-> | ->] Hm; unfold try_, recipe3, left3, out3; run; finish.
Qed.

Lemma computeSkewAngle_buf_run atan2_deg rows mat st :
  mem mat (live st) = true ->
  computeSkewAngle_buf (E := E) throws atan2_deg rows mat st =
  (with_live (skew_left throws true ++ live st) st,
   inl (computeSkewAngle
          (fun _ : unit => if detection_failed throws then None else Some rows)
          atan2_deg tt)).
Proof.
  intros Hm. unfold computeSkewAngle_buf, skew_left, detection_failed.
  run; cbn [orb app]; reflexivity.
Qed.


Lemma steep0 : Qltb skew_threshold (Qabs 0) = false.
Proof. reflexivity. Qed.

Lemma with_live_id st : st = with_live (live st) st.
Proof. destruct st; reflexivity. Qed.

Lemma bind_skew {B : Type} atan2_deg rows mat (f : Q -> cmd (E := E) B) st :
  mem mat (live st) = true ->
  bind (computeSkewAngle_buf throws atan2_deg rows mat) f st =
  f (computeSkewAngle
       (fun _ : unit => if detection_failed throws then None else Some rows)
       atan2_deg tt)
    (with_live (skew_left throws true ++ live st) st).
Proof.
  intros H. unfold bind at 1. now rewrite computeSkewAngle_buf_run.
Qed.

Ltac split_if :=
  match goal with
  | |- context [bind (if ?c then _ else _) _ _] => destruct c
  end.

Ltac run_all := repeat first [ step | rewrite bind_bind | split_throw | split_if ].

Lemma prepare_run cols one_channel doDeskew atan2_deg rows st :
  let r := prepare (E := E) throws cols one_channel doDeskew atan2_deg rows st in
  fst r = with_live (live (fst r)) st /\
  match prepare_failure throws cols one_channel doDeskew atan2_deg rows with
  | Some s => snd r = inr (Thrown (inl s))
  | None =>
      snd r = inl (src_buf cols, gray_buf throws doDeskew atan2_deg rows) /\
      live (fst r) =
        skew_left throws doDeskew
        ++ gray_buf throws doDeskew atan2_deg rows :: src_buf cols :: live st
  end.
Proof.
  cbv zeta.
  unfold prepare, rotateMat_buf, prepare_failure, src_buf, gray_buf, rotates.
  run_all.
  all: try (rewrite bind_skew by side).
  all: unfold skew_left, detection_failed.
  all: try (destruct (throws c_Canny); [|destruct (throws c_HoughLinesP)]).
  all: cbn [orb negb andb app computeSkewAngle]; rewrite ?steep0; norm.
  all: run_all.
  all: cbn [fst snd live andb orb negb app].
  all: split; [apply with_live_id || reflexivity | try split; reflexivity].
Qed.


Lemma bind_eq {A B : Type} (m : cmd (E := E) A) (f : A -> cmd B) st st' a :
  m st = (st', inl a) -> bind m f st = f a st'.
Proof. intros H. unfold bind. now rewrite H. Qed.

Lemma bind_inr {A B : Type} (m : cmd (E := E) A) (f : A -> cmd B) st st' e :
  m st = (st', inr e) -> bind m f st = (st', inr e).
Proof. intros H. unfold bind. now rewrite H. Qed.

Lemma bind_get {B : Type} (f : list buf -> cmd (E := E) B) st :
  bind get_variants f st = f (variants st) st.
Proof. reflexivity. Qed.

Lemma buf_eqb_refl b : buf_eqb b b = true.
Proof. now apply buf_eqb_eq. Qed.

Lemma for_each_call {B : Type} (s : nat -> site) i l
    (f : unit -> cmd (E := E) B) st :
  forallb (fun v => mem v (live st)) l = true ->
  bind (for_each i l (fun j v => call throws (s j) [v])) f st =
  match first_throw throws s i (length l) with
  | Some j => (st, inr (Thrown (inl (s j))))
  | None => f tt st
  end.
Proof.
  revert i. induction l as [|v r IH]; intros i H; [reflexivity|].
  cbn [forallb] in H. apply andb_true_iff in H as [Hv Hr].
  cbn [for_each length first_throw]. rewrite bind_bind.
  rewrite bind_call by (cbn [forallb]; now rewrite Hv).
  destruct (throws (s i)); [reflexivity|]. now apply IH.
Qed.

Ltac cases0 :=
  destruct (throws c_equalizeHist0);
  [|destruct (throws c_adaptiveThreshold0);
    [|destruct (throws c_getStructuringElement);
      [|destruct (throws c_morphologyEx)]]].
Ltac cases1 :=
  destruct (throws c_GaussianBlur); [|destruct (throws c_threshold1)].
Ltac cases2 :=
  destruct (throws c_bilateralFilter);
  [|destruct (throws c_medianBlur); [|destruct (throws c_adaptiveThreshold2)]].
Ltac cases3 :=
  destruct (throws c_equalizeHist3);
  [|destruct (throws c_CLAHE_apply); [|destruct (throws c_threshold3)]].
Ltac cases_skew :=
  destruct (throws c_Canny); [|destruct (throws c_HoughLinesP)].

Lemma outs_held doDeskew rest :
  forallb (fun v => mem v (held throws doDeskew ++ rest)) (outs throws) = true.
Proof.
  unfold outs, held, out0, out1, out2, out3, left0, left1, left2, left3.
  cases0; cases1; cases2; cases3; reflexivity.
Qed.

Lemma held_low doDeskew b :
  (buf_tag b <? 5)%nat = true -> mem b (held throws doDeskew) = false.
Proof.
  intros H. unfold held. rewrite !mem_app.
  unfold left0, left1, left2, left3, skew_left.
  destruct b; try discriminate H.
  all: repeat match goal with
         | |- context [if ?c then _ else _] => destruct c
         end; reflexivity.
Qed.

Lemma gray_buf_cases doDeskew atan2_deg rows :
  gray_buf throws doDeskew atan2_deg rows = b_gray \/
  gray_buf throws doDeskew atan2_deg rows = b_rotated.
Proof. unfold gray_buf. destruct rotates; auto. Qed.

Lemma outs_pushed :
  ((([] ++ pushed [out0 throws]) ++ pushed [out1 throws])
   ++ pushed [out2 throws]) ++ pushed [out3 throws] = outs throws.
Proof.
  unfold outs.
  destruct (out0 throws), (out1 throws), (out2 throws), (out3 throws);
    reflexivity.
Qed.

Ltac gray_live :=
  cbn [live]; rewrite !mem_app; cbn [mem]; rewrite buf_eqb_refl;
  cbn [orb]; rewrite ?orb_true_r; reflexivity.

Lemma createProcessedVariants_buf_run cols one_channel doDeskew atan2_deg rows :
  let r := createProcessedVariants_buf (E := E) throws cols one_channel doDeskew
             atan2_deg rows start in
  match prepare_failure throws cols one_channel doDeskew atan2_deg rows with
  | Some s =>
      r = ({| live := live (fst r); double_delete := [];
              use_after_delete := []; variants := [] |},
           inr (Thrown (inl s)))
  | None =>
      match first_throw throws c_imshow_blob 0 (length (outs throws)) with
      | Some i =>
          r = ({| live := held throws doDeskew
                          ++ [gray_buf throws doDeskew atan2_deg rows;
                              src_buf cols];
                  double_delete := []; use_after_delete := [];
                  variants := outs throws |},
               inr (Thrown (inl (c_imshow_blob i))))
      | None =>
          r = ({| live := held throws doDeskew; double_delete := [];
                  use_after_delete := []; variants := outs throws |},
               inl (outs throws))
      end
  end.
Proof.
  cbv zeta. unfold createProcessedVariants_buf.
  pose proof (prepare_run cols one_channel doDeskew atan2_deg rows start)
    as [H1 H2].
  cbv zeta in H1, H2.
  destruct (prepare throws cols one_channel doDeskew atan2_deg rows start)
    as [st1 res] eqn:Hp.
  cbn [fst snd] in H1, H2.
  destruct (prepare_failure throws cols one_channel doDeskew atan2_deg rows)
    as [s|].
  - subst res. rewrite (bind_inr _ _ _ _ _ Hp). cbn [fst live].
    f_equal. exact H1.
  - destruct H2 as [-> H3]. rewrite (bind_eq _ _ _ _ _ Hp). clear Hp.
    rewrite H3 in H1. subst st1. cbn [fst snd].
    pose proof (gray_buf_cases doDeskew atan2_deg rows) as Hg.
    erewrite bind_eq by (apply recipe0_run; [exact Hg|gray_live]).
    erewrite bind_eq by (apply recipe1_run; [exact Hg|gray_live]).
    erewrite bind_eq by (apply recipe2_run; [exact Hg|gray_live]).
    erewrite bind_eq by (apply recipe3_run; [exact Hg|gray_live]).
    cbn [live double_delete use_after_delete variants start].
    rewrite bind_get. cbn [variants]. rewrite outs_pushed.
    replace (left3 throws ++ left2 throws ++ left1 throws ++ left0 throws
             ++ skew_left throws doDeskew
             ++ [gray_buf throws doDeskew atan2_deg rows; src_buf cols])
      with (held throws doDeskew
            ++ [gray_buf throws doDeskew atan2_deg rows; src_buf cols])
      by (unfold held; now rewrite <- !app_assoc).
    rewrite for_each_call by (cbn [live]; apply outs_held).
    destruct (first_throw throws c_imshow_blob 0 (length (outs throws)));
      [reflexivity|].
    assert (Hgl : mem (gray_buf throws doDeskew atan2_deg rows)
                    (held throws doDeskew) = false).
    { apply held_low. destruct Hg as [-> | ->]; reflexivity. }
    assert (Hsl : mem (src_buf cols) (held throws doDeskew) = false).
    { apply held_low. unfold src_buf. destruct (upscaled cols); reflexivity. }
    rewrite bind_delete by gray_live. cbn [live double_delete use_after_delete variants].
    rewrite remove_one_app_r by exact Hgl.
    cbn [remove_one]. rewrite buf_eqb_refl.
    rewrite bind_delete
      by (cbn [live]; rewrite mem_app; cbn [mem]; rewrite buf_eqb_refl;
          cbn [orb]; now rewrite orb_true_r).
    cbn [live double_delete use_after_delete variants].
    rewrite remove_one_app_r by exact Hsl.
    cbn [remove_one]. rewrite buf_eqb_refl, app_nil_r.
    reflexivity.
Qed.


Lemma outs_held0 doDeskew :
  forallb (fun v => mem v (held throws doDeskew)) (outs throws) = true.
Proof.
  pose proof (outs_held doDeskew []) as H. now rewrite app_nil_r in H.
Qed.

Lemma release_run i ms st :
  for_each (E := E) i ms (fun _ m => try_ (delete m)) st =
  (fold_left (fun s m => fst (delete (E := E) m s)) ms st, inl tt).
Proof.
  revert i st. induction ms as [|m r IH]; intros i st; [reflexivity|].
  cbn [for_each fold_left]. unfold bind, try_ at 1. apply IH.
Qed.

Lemma release_held doDeskew :
  fold_left (fun s m => fst (delete (E := E) m s)) (outs throws)
    {| live := held throws doDeskew; double_delete := [];
       use_after_delete := []; variants := outs throws |} =
  {| live := leaked throws doDeskew; double_delete := [];
     use_after_delete := []; variants := outs throws |}.
Proof.
  unfold outs, held, leaked, out0, out1, out2, out3, left0, left1, left2, left3.
  cases0; cases1; cases2; cases3; reflexivity.
Qed.

Lemma display_tail doDeskew bestMat :
  (forall m, bestMat = Some m -> In m (outs throws)) ->
  let st1 := {| live := held throws doDeskew; double_delete := [];
                use_after_delete := []; variants := outs throws |} in
  bind (E := E)
    (match bestMat with
     | Some m => ret m
     | None => raise NoWinningVariant
     end)
    (fun m =>
       bind (call throws c_imshow_best [m])
         (fun _ =>
            bind (for_each 0 (outs throws) (fun _ m => try_ (delete m)))
              (fun _ => ret m))) st1 =
  match bestMat with
  | None => (st1, inr NoWinningVariant)
  | Some m =>
      if throws c_imshow_best then (st1, inr (Thrown (inl c_imshow_best)))
      else ({| live := leaked throws doDeskew; double_delete := [];
               use_after_delete := []; variants := outs throws |}, inl m)
  end.
Proof.
  intros Hm st1. destruct bestMat as [m|]; [|reflexivity].
  rewrite bind_ret.
  assert (Hl : mem m (live st1) = true).
  { pose proof (outs_held0 doDeskew) as H.
    rewrite forallb_forall in H. apply H. now apply Hm. }
  rewrite bind_call by (cbn [forallb]; now rewrite Hl).
  destruct (throws c_imshow_best); [reflexivity|].
  unfold bind. rewrite release_run. unfold st1. rewrite release_held.
  reflexivity.
Qed.

Lemma display_and_release_run showAll doDeskew bestMat :
  (forall m, bestMat = Some m -> In m (outs throws)) ->
  let st1 := {| live := held throws doDeskew; double_delete := [];
                use_after_delete := []; variants := outs throws |} in
  display_and_release (E := E) throws showAll (outs throws) bestMat st1 =
  match (if showAll then first_throw throws c_imshow_thumb 0 (length (outs throws))
         else None) with
  | Some i => (st1, inr (Thrown (inl (c_imshow_thumb i))))
  | None =>
      match bestMat with
      | None => (st1, inr NoWinningVariant)
      | Some m =>
          if throws c_imshow_best then (st1, inr (Thrown (inl c_imshow_best)))
          else ({| live := leaked throws doDeskew; double_delete := [];
                   use_after_delete := []; variants := outs throws |}, inl m)
      end
  end.
Proof.
  intros Hm st1. unfold display_and_release. destruct showAll.
  - rewrite for_each_call by apply outs_held0.
    destruct (first_throw throws c_imshow_thumb 0 (length (outs throws)));
      [reflexivity|].
    now apply display_tail.
  - rewrite bind_ret. now apply display_tail.
Qed.

Lemma best_mat_In ms (best : attempt) m :
  best_mat (map (fun m : buf => {| blob := m; mat := m |}) ms) best = Some m ->
  In m ms.
Proof.
  unfold best_mat. destruct (best_index best) as [i|]; [|discriminate].
  rewrite list_lookup_fmap.
  destruct (ms !! i) as [v|] eqn:Hv; [|discriminate].
  cbn. intros [= <-]. apply list_elem_of_In. eapply list_elem_of_lookup_2, Hv.
Qed.

(** The whole run, path by path. *)
Lemma doExtract_buf_run cvReady cols one_channel doDeskew showAll normalize
    atan2_deg rows (tess : @engine buf (site + E)) ord :
  let r := doExtract_buf throws cvReady cols one_channel doDeskew showAll
             normalize atan2_deg rows tess ord start in
  let st1 := {| live := held throws doDeskew; double_delete := [];
                use_after_delete := []; variants := outs throws |} in
  let vs := map (fun m : buf => {| blob := m; mat := m |}) (outs throws) in
  if negb cvReady then r = (start, NotReady) else
  match prepare_failure throws cols one_channel doDeskew atan2_deg rows with
  | Some s =>
      r = ({| live := live (fst r); double_delete := [];
              use_after_delete := []; variants := [] |},
           Error (Thrown (inl s)) blank)
  | None =>
      match first_throw throws c_imshow_blob 0 (length (outs throws)) with
      | Some i =>
          r = ({| live := held throws doDeskew
                          ++ [gray_buf throws doDeskew atan2_deg rows;
                              src_buf cols];
                  double_delete := []; use_after_delete := [];
                  variants := outs throws |},
               Error (Thrown (inl (c_imshow_blob i))) blank)
      | None =>
          match promise_all (dispatch tess (ocrTasks vs)) ord with
          | Pending => r = (st1, Waiting)
          | Failed e => r = (st1, Error (Thrown e) blank)
          | Resolved results =>
              let best := select results in
              let shown := show normalize best in
              match (if showAll then
                       first_throw throws c_imshow_thumb 0 (length (outs throws))
                     else None) with
              | Some i => r = (st1, Error (Thrown (inl (c_imshow_thumb i))) shown)
              | None =>
                  match best_mat vs best with
                  | None => r = (st1, Error NoWinningVariant shown)
                  | Some m =>
                      if throws c_imshow_best
                      then r = (st1, Error (Thrown (inl c_imshow_best)) shown)
                      else r = ({| live := leaked throws doDeskew;
                                   double_delete := []; use_after_delete := [];
                                   variants := outs throws |},
                                Done shown best m)
                  end
              end
          end
      end
  end.
Proof.
  cbv zeta. unfold doExtract_buf.
  destruct cvReady; cbn [negb]; [|reflexivity].
  pose proof (createProcessedVariants_buf_run cols one_channel doDeskew
                atan2_deg rows) as H.
  cbv zeta in H.
  destruct (prepare_failure throws cols one_channel doDeskew atan2_deg rows)
    as [s|].
  - rewrite H. cbn [fst live]. reflexivity.
  - destruct (first_throw throws c_imshow_blob 0 (length (outs throws)))
      as [i|]; rewrite H; [reflexivity|].
    destruct (promise_all _ ord) as [results|e|]; [|reflexivity|reflexivity].
    rewrite display_and_release_run by apply best_mat_In.
    destruct (if showAll then _ else _); [reflexivity|].
    destruct (best_mat _ _); [|reflexivity].
    destruct (throws c_imshow_best); reflexivity.
Qed.


Lemma leaked_nil doDeskew :
  leaked throws doDeskew = [] <->
  length (outs throws) = 4%nat /\
  (doDeskew = true -> detection_failed throws = false).
Proof.
  unfold leaked, outs, detection_failed, skew_left, scrap,
    out0, out1, out2, out3, left0, left1, left2, left3.
  destruct doDeskew; [cases_skew|]; cases0; cases1; cases2; cases3;
    cbn [orb app pushed length];
    (split;
     [intros H;
      first [discriminate H
            |split; [reflexivity|intros H'; first [reflexivity|discriminate H']]]
     |intros [H1 H2];
      first [discriminate H1
            |specialize (H2 eq_refl); discriminate H2
            |reflexivity]]).
Qed.

Lemma first_throw_throws (s : nat -> site) i n j :
  first_throw throws s i n = Some j -> throws (s j) = true.
Proof.
  revert i. induction n as [|n IH]; intros i; cbn [first_throw]; [discriminate|].
  destruct (throws (s i)) eqn:Hi; [now intros [= <-]|apply IH].
Qed.

Lemma held_not_low doDeskew b :
  (buf_tag b <? 5)%nat = true -> ~ In b (held throws doDeskew).
Proof.
  intros H Hin. apply mem_In in Hin. rewrite held_low in Hin by exact H.
  discriminate Hin.
Qed.

Lemma outs_in_held doDeskew rest v :
  In v (outs throws) -> In v (held throws doDeskew ++ rest).
Proof.
  intros H. apply mem_In.
  pose proof (outs_held doDeskew rest) as Hall.
  rewrite forallb_forall in Hall. now apply Hall.
Qed.

End Steps.
End BufferFacts.

Import Buffers BufferFacts.

(** X17.  [computeSkewAngle] never throws and never frees a buffer it does
    not own: on a live image it returns the angle of the estimate, which
    is 0 when [Canny] or [HoughLinesP] throws, and whatever it had
    allocated when the call threw ([edges], or [edges] and [lines]) stays
    allocated. *)
Theorem skew_detection_never_throws {E : Type} (throws : site -> bool)
    (atan2_deg : Z -> Z -> Q) (rows : list segment) (mat : buf) (st : state) :
  mem mat (live st) = true ->
  computeSkewAngle_buf (E := E) throws atan2_deg rows mat st =
  ({| live := skew_left throws true ++ live st;
      double_delete := double_delete st;
      use_after_delete := use_after_delete st;
      variants := variants st |},
   inl (computeSkewAngle
          (fun _ : unit => if detection_failed throws then None else Some rows)
          atan2_deg tt)).
Proof. apply computeSkewAngle_buf_run. Qed.

Lemma skew_detection_never_throws_witness :
  computeSkewAngle_buf (E := string) rough coarse_atan2 leaning_rows b_gray
    gray_only =
  ({| live := skew_left rough true ++ live gray_only;
      double_delete := double_delete gray_only;
      use_after_delete := use_after_delete gray_only;
      variants := variants gray_only |},
   inl (computeSkewAngle
          (fun _ : unit => if detection_failed rough then None
                           else Some leaning_rows)
          coarse_atan2 tt)).
Proof.
  apply (skew_detection_never_throws rough coarse_atan2 leaning_rows b_gray
           gray_only).
  reflexivity.
Defined.

(** X18.  Whatever calls throw, whatever the options, the engine and the
    order of the answers, a run of [doExtract] never deletes a buffer
    twice and never hands a deleted buffer to a library call. *)
Theorem run_never_touches_released_buffer {E : Type} (throws : site -> bool)
    (cvReady : bool) (cols : Z) (one_channel doDeskew showAll normalize : bool)
    (atan2_deg : Z -> Z -> Q) (rows : list segment)
    (tess : @engine buf (site + E)) (ord : list nat) :
  let st := fst (doExtract_buf throws cvReady cols one_channel doDeskew showAll
                   normalize atan2_deg rows tess ord start) in
  double_delete st = [] /\ use_after_delete st = [].
Proof.
  pose proof (doExtract_buf_run throws cvReady cols one_channel doDeskew showAll
                normalize atan2_deg rows tess ord) as H.
  cbv zeta in *.
  destruct (negb cvReady); [rewrite H; now split|].
  destruct (prepare_failure throws cols one_channel doDeskew atan2_deg rows);
    [rewrite H; now split|].
  destruct (first_throw throws c_imshow_blob 0 (length (outs throws)));
    [rewrite H; now split|].
  destruct (promise_all _ ord); [|rewrite H; now split..].
  destruct (if showAll then _ else _); [rewrite H; now split|].
  destruct (best_mat _ _); [|rewrite H; now split].
  destruct (throws c_imshow_best); rewrite H; now split.
Qed.

(** X19.  A run that reaches [Done] has released every image of
    [variants], [src] and [gray]; what stays allocated is exactly what
    the recipes that threw and a failed skew detection had allocated.
    Nothing at all stays allocated exactly when the four recipes pushed
    their image and, if deskewing was asked for, detection did not
    throw. *)
Theorem finished_run_leaks {E : Type} (throws : site -> bool)
    (cvReady : bool) (cols : Z) (one_channel doDeskew showAll normalize : bool)
    (atan2_deg : Z -> Z -> Q) (rows : list segment)
    (tess : @engine buf (site + E)) (ord : list nat)
    (shown : display) (best : attempt) (m : buf) :
  let r := doExtract_buf throws cvReady cols one_channel doDeskew showAll
             normalize atan2_deg rows tess ord start in
  snd r = Done shown best m ->
  live (fst r) = leaked throws doDeskew /\
  (live (fst r) = [] <->
   length (variants (fst r)) = 4%nat /\
   (doDeskew = true -> detection_failed throws = false)).
Proof.
  pose proof (doExtract_buf_run throws cvReady cols one_channel doDeskew showAll
                normalize atan2_deg rows tess ord) as H.
  cbv zeta in *.
  destruct (negb cvReady); [rewrite H; discriminate|].
  destruct (prepare_failure throws cols one_channel doDeskew atan2_deg rows);
    [rewrite H; discriminate|].
  destruct (first_throw throws c_imshow_blob 0 (length (outs throws)));
    [rewrite H; discriminate|].
  destruct (promise_all _ ord); [|rewrite H; discriminate..].
  destruct (if showAll then _ else _); [rewrite H; discriminate|].
  destruct (best_mat _ _); [|rewrite H; discriminate].
  destruct (throws c_imshow_best); rewrite H; [discriminate|].
  intros _. cbn [fst live variants]. split; [reflexivity|].
  apply leaked_nil.
Qed.

Lemma finished_run_leaks_witness :
  let r := doExtract_buf rough true 1000 false true true true coarse_atan2
             leaning_rows steady_ocr (rev (seq 0 12)) start in
  live (fst r) = leaked rough true /\
  (live (fst r) = [] <->
   length (variants (fst r)) = 4%nat /\
   (true = true -> detection_failed rough = false)).
Proof.
  assert (H : exists shown best m,
             snd (doExtract_buf rough true 1000 false true true true
                    coarse_atan2 leaning_rows steady_ocr (rev (seq 0 12)) start)
             = Done shown best m)
    by (vm_compute; eauto).
  destruct H as (shown & best & m & H).
  exact (finished_run_leaks rough true 1000 false true true true coarse_atan2
           leaning_rows steady_ocr (rev (seq 0 12)) shown best m H).
Defined.

(** X20.  A run that ends in the [catch] block, or whose join never
    settles, has released no image: every buffer pushed to [variants] is
    still allocated. *)
Theorem failed_run_releases_nothing {E : Type} (throws : site -> bool)
    (cvReady : bool) (cols : Z) (one_channel doDeskew showAll normalize : bool)
    (atan2_deg : Z -> Z -> Q) (rows : list segment)
    (tess : @engine buf (site + E)) (ord : list nat) :
  let r := doExtract_buf throws cvReady cols one_channel doDeskew showAll
             normalize atan2_deg rows tess ord start in
  (snd r = Waiting \/ exists f shown, snd r = Error f shown) ->
  forall v, In v (variants (fst r)) -> In v (live (fst r)).
Proof.
  pose proof (doExtract_buf_run throws cvReady cols one_channel doDeskew showAll
                normalize atan2_deg rows tess ord) as H.
  cbv zeta in *.
  assert (Hheld : forall v, In v (outs throws) -> In v (held throws doDeskew)).
  { intros v Hv. pose proof (outs_in_held throws doDeskew [] v Hv) as Hin.
    now rewrite app_nil_r in Hin. }
  destruct (negb cvReady); [rewrite H; intros _ v []|].
  destruct (prepare_failure throws cols one_channel doDeskew atan2_deg rows);
    [rewrite H; intros _ v []|].
  destruct (first_throw throws c_imshow_blob 0 (length (outs throws))).
  { rewrite H. cbn [fst live variants]. intros _ v. apply outs_in_held. }
  destruct (promise_all _ ord); [|rewrite H; intros _; exact Hheld..].
  destruct (if showAll then _ else _); [rewrite H; intros _; exact Hheld|].
  destruct (best_mat _ _); [|rewrite H; intros _; exact Hheld].
  destruct (throws c_imshow_best); rewrite H; [intros _; exact Hheld|].
  cbn [snd]. intros [Hw | (f & d & He)]; discriminate.
Qed.

Lemma failed_run_releases_nothing_witness :
  let r := doExtract_buf quiet true 1000 false true true true coarse_atan2
             leaning_rows flaky_ocr (seq 0 16) start in
  (snd r = Waiting \/ exists f shown, snd r = Error f shown) /\
  (forall v, In v (variants (fst r)) -> In v (live (fst r))).
Proof.
  intros r.
  assert (H : snd r = Waiting \/ exists f shown, snd r = Error f shown)
    by (right; vm_compute; eauto).
  split; [exact H|].
  exact (failed_run_releases_nothing quiet true 1000 false true true true
           coarse_atan2 leaning_rows flaky_ocr (seq 0 16) H).
Defined.

(** X21.  As long as no [cv.imshow] of the display throws, the run with
    its buffers ends exactly as [doExtract] does when it is given how
    the preparation ends: rejected by the first call that throws before
    the recipes or in the loop that makes the blobs, and otherwise
    fulfilled with the image of each recipe that did not throw. *)
Theorem buffers_refine_run {E : Type} (throws : site -> bool)
    (cvReady : bool) (cols : Z) (one_channel doDeskew showAll normalize : bool)
    (atan2_deg : Z -> Z -> Q) (rows : list segment)
    (tess : @engine buf (site + E)) (ord : list nat) :
  display_ok throws showAll = true ->
  snd (doExtract_buf throws cvReady cols one_channel doDeskew showAll normalize
         atan2_deg rows tess ord start) =
  doExtract (fun m : buf => m) cvReady
    (prep_of throws cols one_channel doDeskew atan2_deg rows) tess ord normalize.
Proof.
  intros Hok.
  pose proof (doExtract_buf_run throws cvReady cols one_channel doDeskew showAll
                normalize atan2_deg rows tess ord) as H.
  cbv zeta in H. unfold doExtract, prep_of.
  unfold display_ok in Hok. apply andb_true_iff in Hok as [Hbest Hthumb].
  apply negb_true_iff in Hbest.
  destruct (negb cvReady); [now rewrite H|].
  destruct (prepare_failure throws cols one_channel doDeskew atan2_deg rows);
    [now rewrite H|].
  destruct (first_throw throws c_imshow_blob 0 (length (outs throws)));
    [now rewrite H|].
  unfold createProcessedVariants. fold (outs throws).
  destruct (promise_all _ ord); [|now rewrite H..].
  destruct showAll.
  - destruct (first_throw throws c_imshow_thumb 0 (length (outs throws)));
      [discriminate Hthumb|].
    destruct (best_mat _ _); [|now rewrite H].
    rewrite Hbest in H. now rewrite H.
  - destruct (best_mat _ _); [|now rewrite H].
    rewrite Hbest in H. now rewrite H.
Qed.

Lemma buffers_refine_run_witness :
  snd (doExtract_buf rough true 1000 false true true true coarse_atan2
         leaning_rows steady_ocr (rev (seq 0 12)) start) =
  doExtract (fun m : buf => m) true
    (prep_of rough 1000 false true coarse_atan2 leaning_rows) steady_ocr
    (rev (seq 0 12)) true.
Proof.
  apply (buffers_refine_run rough true 1000 false true true true coarse_atan2
           leaning_rows steady_ocr (rev (seq 0 12))).
  reflexivity.
Defined.

(** X22.  A recipe that throws never aborts [createProcessedVariants]:
    once the image is loaded, grayed and deskewed, [variants] holds the
    images of the recipes that did not throw, in recipe order.  The
    function returns them, with [src] and [gray] deleted, unless a
    [cv.imshow] of the loop that makes the blobs throws; then it throws,
    and [src] and [gray] stay allocated. *)
Theorem recipe_failures_are_contained {E : Type} (throws : site -> bool)
    (cols : Z) (one_channel doDeskew : bool) (atan2_deg : Z -> Z -> Q)
    (rows : list segment) :
  prepare_failure throws cols one_channel doDeskew atan2_deg rows = None ->
  let r := createProcessedVariants_buf (E := E) throws cols one_channel doDeskew
             atan2_deg rows start in
  let gray := gray_buf throws doDeskew atan2_deg rows in
  let src := src_buf cols in
  variants (fst r) = pushed [out0 throws; out1 throws; out2 throws; out3 throws] /\
  (forall vs, snd r = inl vs ->
     vs = variants (fst r) /\ ~ In gray (live (fst r)) /\ ~ In src (live (fst r))) /\
  (forall e, snd r = inr e ->
     (exists i, e = Thrown (inl (c_imshow_blob i)) /\
                throws (c_imshow_blob i) = true) /\
     In gray (live (fst r)) /\ In src (live (fst r))).
Proof.
  intros Hp.
  pose proof (createProcessedVariants_buf_run (E := E) throws cols one_channel
                doDeskew atan2_deg rows) as H.
  cbv zeta in *. rewrite Hp in H.
  assert (Hg : (buf_tag (gray_buf throws doDeskew atan2_deg rows) <? 5)%nat = true).
  { destruct (gray_buf_cases throws doDeskew atan2_deg rows) as [-> | ->];
      reflexivity. }
  assert (Hs : (buf_tag (src_buf cols) <? 5)%nat = true).
  { unfold src_buf. destruct (upscaled cols); reflexivity. }
  destruct (first_throw throws c_imshow_blob 0 (length (outs throws)))
    as [i|] eqn:Hi; rewrite H; cbn [fst snd live variants].
  - split; [reflexivity|]. split; [discriminate|].
    intros e [= <-]. split.
    + exists i. split; [reflexivity|]. eapply first_throw_throws, Hi.
    + split; apply in_or_app; right; cbn [In]; auto.
  - split; [reflexivity|]. split; [|discriminate].
    intros vs [= <-]. split; [reflexivity|].
    split; now apply held_not_low.
Qed.

Lemma recipe_failures_are_contained_witness :
  let r := createProcessedVariants_buf (E := string) rough 1000 false true
             coarse_atan2 leaning_rows start in
  let gray := gray_buf rough true coarse_atan2 leaning_rows in
  let src := src_buf 1000 in
  variants (fst r) = pushed [out0 rough; out1 rough; out2 rough; out3 rough] /\
  (forall vs, snd r = inl vs ->
     vs = variants (fst r) /\ ~ In gray (live (fst r)) /\ ~ In src (live (fst r))) /\
  (forall e, snd r = inr e ->
     (exists i, e = Thrown (inl (c_imshow_blob i)) /\
                rough (c_imshow_blob i) = true) /\
     In gray (live (fst r)) /\ In src (live (fst r))).
Proof.
  apply (recipe_failures_are_contained rough 1000 false true coarse_atan2
           leaning_rows).
  reflexivity.
Defined.

(** X8.  When nothing throws before the recipes, in the loop that makes
    the blobs or in the display, at least one recipe succeeds and every
    request is fulfilled, the run ends in [Done] whatever the order in
    which the requests settle: it shows the first attempt of greatest
    confidence (cleaned when asked to) and the image of the variant that
    attempt names. *)
Theorem run_shows_winner {E : Type} (throws : site -> bool) (cols : Z)
    (one_channel doDeskew showAll normalize : bool)
    (atan2_deg : Z -> Z -> Q) (rows : list segment)
    (tess : @engine buf (site + E)) (ord : list nat) (atts : list attempt) :
  let vs := map (fun m : buf => {| blob := m; mat := m |}) (outs throws) in
  prepare_failure throws cols one_channel doDeskew atan2_deg rows = None ->
  first_throw throws c_imshow_blob 0 (length (outs throws)) = None ->
  display_ok throws showAll = true ->
  0 < length vs ->
  dispatch tess (ocrTasks vs) = map Fulfilled atts ->
  completion_order (length atts) ord = true ->
  exists i v,
    vs !! i = Some v /\ variant (select atts) = Some (i + 1) /\
    first_max (select atts) atts /\
    snd (doExtract_buf throws true cols one_channel doDeskew showAll normalize
           atan2_deg rows tess ord start)
    = Done {| resultArea := if normalize then cleanText (text (select atts))
                            else text (select atts);
              confBadge := if Qeq_bool (avgConf (select atts)) 0 then None
                           else Some (avgConf (select atts)) |}
           (select atts) (mat v).
Proof.
  cbv zeta. intros Hp Hb Hok Hvs Hd Hord.
  set (vs := map (fun m : buf => {| blob := m; mat := m |}) (outs throws)) in *.
  assert (Hr : promise_all (dispatch tess (ocrTasks vs)) ord = Resolved atts)
    by (rewrite Hd; now apply promise_all_fulfilled).
  destruct (resolved_winner vs tess ord atts Hvs Hr)
    as (k & t & d & v & _ & _ & _ & Hv & _ & Hvar & _ & Hbest).
  exists (k / 4), v. split; [assumption|]. split; [assumption|]. split.
  - apply select_first_max. exact (resolved_nonempty vs tess ord atts Hvs Hr).
  - pose proof (doExtract_buf_run throws true cols one_channel doDeskew showAll
                  normalize atan2_deg rows tess ord) as H.
    cbv zeta in H. cbn [negb] in H. rewrite Hp, Hb in H. fold vs in H.
    rewrite Hr, Hbest in H.
    unfold display_ok in Hok. apply andb_true_iff in Hok as [Hshow Hthumb].
    apply negb_true_iff in Hshow. rewrite Hshow in H.
    destruct showAll.
    + destruct (first_throw throws c_imshow_thumb 0 (length (outs throws)));
        [discriminate Hthumb|].
      rewrite H. reflexivity.
    + rewrite H. reflexivity.
Qed.

Lemma run_shows_winner_witness :
  let vs := map (fun m : buf => {| blob := m; mat := m |}) (outs quiet) in
  let atts := map (fun k => attempt_of (inject_Z (Z.of_nat (60 + k))) (k / 4 + 1)
                              (nth (k mod 4) psms EmptyString)) (seq 0 16) in
  exists i v,
    vs !! i = Some v /\ variant (select atts) = Some (i + 1) /\
    first_max (select atts) atts /\
    snd (doExtract_buf quiet true 1000 false true true true coarse_atan2
           leaning_rows steady_ocr (rev (seq 0 16)) start)
    = Done {| resultArea := if true then cleanText (text (select atts))
                            else text (select atts);
              confBadge := if Qeq_bool (avgConf (select atts)) 0 then None
                           else Some (avgConf (select atts)) |}
           (select atts) (mat v).
Proof.
  intros vs atts.
  apply (run_shows_winner (E := string) quiet 1000 false true true true
           coarse_atan2 leaning_rows steady_ocr (rev (seq 0 16)) atts);
    [reflexivity|reflexivity|reflexivity|cbn; lia|reflexivity|reflexivity].
Defined.
